(** * sdc: dependency-aware container orchestration

    A shallow embedding of the orchestration engine of saltyorg/sdc
    (label parser, dependency graph, executor, job manager and HTTP control
    plane) together with the properties stated about it.

    Conventions of the embedding.
    - A Go [string] is a Rocq [string]: a sequence of bytes ([ascii]).
    - A Go [int] (64 bit) is a [Z]; the operations used here cannot overflow
      unless said otherwise.
    - A [*Node] is represented by the node's [Name]: [Build] stores every
      node under its name, and a name identifies one node object.
    - A Go [map] is a [gmap]; the order in which [range] walks a map is
      unspecified in Go, so every order-sensitive [range] takes its order
      from an explicit iteration oracle. *)

From Stdlib Require Import ZArith NArith String Ascii List Lia Permutation.
From stdpp Require Import base option list relations gmap sets strings sorting pretty.

Local Open Scope Z_scope.

(** ** Results of fallible calls *)

(** [(T, error)] of Go: either an error value or a result. *)
Inductive result (E A : Type) : Type :=
| Err (e : E)
| Ok (a : A).
Arguments Err {E A} e.
Arguments Ok {E A} a.

Definition is_Ok {E A} (r : result E A) : bool :=
  match r with Ok _ => true | Err _ => false end.

(** ** Package strings, strconv, unicode/utf8 (Go standard library) *)

Module GoString.

Definition byte_val (c : ascii) : N := N_of_ascii c.

Definition bytes (s : string) : list ascii := list_ascii_of_string s.
Definition of_bytes (l : list ascii) : string := string_of_list_ascii l.

(** [utf8.RuneSelf]: bytes below it are single-byte runes. *)
Definition RuneSelf : N := 0x80.
Definition RuneError : N := 0xFFFD.

Definition is_ascii_byte (c : ascii) : bool := (byte_val c <? RuneSelf)%N.
Definition is_ascii (s : string) : bool := forallb is_ascii_byte (bytes s).

(** [strings.asciiSpace]: tab, newline, vertical tab, form feed,
    carriage return, space. *)
Definition asciiSpace (c : ascii) : bool :=
  let b := byte_val c in
  ((9 <=? b) && (b <=? 13) || (b =? 32))%N.

(** [unicode.IsSpace]: the Latin-1 cases, then the White_Space table. *)
Definition IsSpace (r : N) : bool :=
  (if r <=? 0xFF then
     (9 <=? r) && (r <=? 13) || (r =? 0x20) || (r =? 0x85) || (r =? 0xA0)
   else
     (r =? 0x1680) || (0x2000 <=? r) && (r <=? 0x200A) ||
     (r =? 0x2028) || (r =? 0x2029) || (r =? 0x202F) ||
     (r =? 0x205F) || (r =? 0x3000))%N.

(** [utf8.first]: information about the first byte of an encoding.
    The low three bits give the length, the high four bits select the
    accepted range of the second byte; [0xF0] marks ASCII and [0xF1] an
    invalid first byte. *)
Definition first (b : N) : N :=
  (if b <? 0x80 then 0xF0
   else if b <? 0xC2 then 0xF1
   else if b <? 0xE0 then 0x02
   else if b =? 0xE0 then 0x13
   else if b <? 0xED then 0x03
   else if b =? 0xED then 0x23
   else if b <? 0xF0 then 0x03
   else if b =? 0xF0 then 0x34
   else if b <? 0xF4 then 0x04
   else if b =? 0xF4 then 0x44
   else 0xF1)%N.

(** [utf8.acceptRanges]. *)
Definition acceptRange (i : N) : N * N :=
  (if i =? 1 then (0xA0, 0xBF)
   else if i =? 2 then (0x80, 0x9F)
   else if i =? 3 then (0x90, 0xBF)
   else if i =? 4 then (0x80, 0x8F)
   else (0x80, 0xBF))%N.

Definition cont_byte (b : N) : bool := ((0x80 <=? b) && (b <=? 0xBF))%N.

(** [utf8.DecodeRuneInString]: the first rune of [s] and its width in
    bytes; an invalid encoding is [RuneError] of width 1, the empty
    string [RuneError] of width 0. *)
Definition DecodeRuneInString (s : list ascii) : N * nat :=
  match s with
  | [] => (RuneError, 0%nat)
  | c0 :: rest =>
      let s0 := byte_val c0 in
      let x := first s0 in
      if (0xF0 <=? x)%N then
        if (x =? 0xF0)%N then (s0, 1%nat) else (RuneError, 1%nat)
      else
        let sz := N.to_nat (N.land x 7) in
        let '(lo, hi) := acceptRange (N.shiftr x 4) in
        if (length s <? sz)%nat then (RuneError, 1%nat)
        else
          match rest with
          | [] => (RuneError, 1%nat)
          | c1 :: rest1 =>
              let s1 := byte_val c1 in
              if ((s1 <? lo) || (hi <? s1))%N then (RuneError, 1%nat)
              else if (sz <=? 2)%nat then
                (N.lor (N.shiftl (N.land s0 0x1F) 6) (N.land s1 0x3F), 2%nat)
              else
                match rest1 with
                | [] => (RuneError, 1%nat)
                | c2 :: rest2 =>
                    let s2 := byte_val c2 in
                    if negb (cont_byte s2) then (RuneError, 1%nat)
                    else if (sz <=? 3)%nat then
                      (N.lor (N.shiftl (N.land s0 0x0F) 12)
                         (N.lor (N.shiftl (N.land s1 0x3F) 6)
                            (N.land s2 0x3F)), 3%nat)
                    else
                      match rest2 with
                      | [] => (RuneError, 1%nat)
                      | c3 :: _ =>
                          let s3 := byte_val c3 in
                          if negb (cont_byte s3) then (RuneError, 1%nat)
                          else
                            (N.lor (N.shiftl (N.land s0 0x07) 18)
                               (N.lor (N.shiftl (N.land s1 0x3F) 12)
                                  (N.lor (N.shiftl (N.land s2 0x3F) 6)
                                     (N.land s3 0x3F))), 4%nat)
                      end
                end
          end
  end.

(** [utf8.RuneStart]. *)
Definition RuneStart (c : ascii) : bool :=
  negb (N.land (byte_val c) 0xC0 =? 0x80)%N.

(** The backwards scan of [utf8.DecodeLastRuneInString]: starting at
    [start], step down while [start >= lim] until a rune start. *)
Fixpoint scan_back (s : list ascii) (lim : nat) (steps : nat) (start : Z) : Z :=
  match steps with
  | O => start
  | S k =>
      if (start <? Z.of_nat lim) then start
      else
        match s !! Z.to_nat start with
        | Some c => if RuneStart c then start else scan_back s lim k (start - 1)
        | None => start
        end
  end.

(** [utf8.DecodeLastRuneInString]. *)
Definition DecodeLastRuneInString (s : list ascii) : N * nat :=
  let e := length s in
  match last s with
  | None => (RuneError, 0%nat)
  | Some c =>
      if is_ascii_byte c then (byte_val c, 1%nat)
      else
        let lim := (e - 4)%nat in
        let start := scan_back s lim 4 (Z.of_nat e - 2) in
        let start := Z.to_nat (Z.max start 0) in
        let '(r, size) := DecodeRuneInString (drop start s) in
        if (start + size =? e)%nat then (r, size) else (RuneError, 1%nat)
  end.

(** [strings.TrimLeftFunc(s, unicode.IsSpace)] : the [range] over the
    string decodes rune by rune and stops at the first rune that is not
    white space. *)
Fixpoint TrimLeftSpace_go (fuel : nat) (s : list ascii) : list ascii :=
  match fuel with
  | O => s
  | S k =>
      match s with
      | [] => []
      | _ =>
          let '(r, size) := DecodeRuneInString s in
          if IsSpace r then TrimLeftSpace_go k (drop size s) else s
      end
  end.

Definition TrimLeftSpace (s : list ascii) : list ascii :=
  TrimLeftSpace_go (length s) s.

(** [strings.lastIndexFunc(s, unicode.IsSpace, false)] : the index of the
    last rune that is not white space, or -1. *)
Fixpoint lastIndexNotSpace (fuel : nat) (s : list ascii) (i : nat) : Z :=
  match fuel with
  | O => -1
  | S k =>
      if (0 <? i)%nat then
        let '(r, size) := DecodeLastRuneInString (take i s) in
        let i := (i - size)%nat in
        if negb (IsSpace r) then Z.of_nat i else lastIndexNotSpace k s i
      else -1
  end.

(** [strings.TrimRightFunc(s, unicode.IsSpace)]. *)
Definition TrimRightSpace (s : list ascii) : list ascii :=
  let i := lastIndexNotSpace (length s) s (length s) in
  let stop :=
    match (if (0 <=? i) then s !! Z.to_nat i else None) with
    | Some c =>
        if is_ascii_byte c then i + 1
        else i + Z.of_nat (snd (DecodeRuneInString (drop (Z.to_nat i) s)))
    | None => i + 1
    end in
  take (Z.to_nat stop) s.

(** Second loop of [strings.TrimSpace], on the reversed remainder: drop
    trailing ASCII white space; at a non-ASCII byte fall back to
    [TrimRightFunc] on what is left. *)
Fixpoint TrimSpace_stop (r : list ascii) : list ascii :=
  match r with
  | [] => []
  | c :: r' =>
      if negb (is_ascii_byte c) then TrimRightSpace (rev r)
      else if asciiSpace c then TrimSpace_stop r'
      else rev r
  end.

(** First loop of [strings.TrimSpace]: drop leading ASCII white space; at
    a non-ASCII byte fall back to [TrimFunc] on the remaining bytes. *)
Fixpoint TrimSpace_start (s : list ascii) : list ascii :=
  match s with
  | [] => TrimSpace_stop (rev s)
  | c :: s' =>
      if negb (is_ascii_byte c) then TrimRightSpace (TrimLeftSpace s)
      else if asciiSpace c then TrimSpace_start s'
      else TrimSpace_stop (rev s)
  end.

(** [strings.TrimSpace]: [s] without leading and trailing white space,
    as defined by Unicode. *)
Definition TrimSpace (s : string) : string :=
  of_bytes (TrimSpace_start (bytes s)).

(** [strings.Split(s, sep)] and the sequence of [strings.SplitSeq(s, sep)]
    for a one-byte separator: the pieces between separators, a single
    empty piece for the empty string. *)
Fixpoint Split_go (sep : ascii) (cur : list ascii) (s : list ascii) : list string :=
  match s with
  | [] => [of_bytes (rev cur)]
  | c :: s' =>
      if Ascii.eqb c sep then of_bytes (rev cur) :: Split_go sep [] s'
      else Split_go sep (c :: cur) s'
  end.

Definition Split (s : string) (sep : ascii) : list string :=
  Split_go sep [] (bytes s).

(** ASCII path of [strings.ToLower]. *)
Definition lower_byte (c : ascii) : ascii :=
  let b := byte_val c in
  if ((65 <=? b) && (b <=? 90))%N then ascii_of_N (b + 32) else c.

(** [strings.ToLower]: a string of ASCII bytes is lowered byte by byte;
    any other string goes through [strings.Map(unicode.ToLower, s)],
    which depends on the Unicode case tables and is a parameter. *)
Definition ToLower (MapUnicodeToLower : string -> string) (s : string) : string :=
  if is_ascii s then of_bytes (map lower_byte (bytes s))
  else MapUnicodeToLower s.

(** Digits of a base-10 numeral, most significant first. *)
Fixpoint digits_go (acc : Z) (s : list ascii) : option Z :=
  match s with
  | [] => Some acc
  | c :: s' =>
      let b := byte_val c in
      if ((48 <=? b) && (b <=? 57))%N
      then digits_go (acc * 10 + (Z.of_N b - 48)) s'
      else None
  end.

Definition maxInt : Z := 2 ^ 63 - 1.
Definition minInt : Z := - 2 ^ 63.

(** [strconv.Atoi] on a 64-bit platform: an optional sign followed by at
    least one decimal digit, in the range of [int]; anything else is an
    error ([None]). *)
Definition Atoi (s : string) : option Z :=
  match bytes s with
  | [] => None
  | c :: rest =>
      let '(neg, ds) :=
        if Ascii.eqb c "-"%char then (true, rest)
        else if Ascii.eqb c "+"%char then (false, rest)
        else (false, c :: rest) in
      match ds with
      | [] => None
      | _ =>
          match digits_go 0 ds with
          | None => None
          | Some n =>
              let v := if neg then - n else n in
              if (minInt <=? v) && (v <=? maxInt) then Some v else None
          end
      end
  end.

End GoString.

(** ** Errors *)

(** The error values built by the packages below; [error_string] is the
    result of [err.Error()]. *)
Inductive error : Type :=
| ErrCircularDependency (cycle : list string)
| ErrNoContainers
| ErrDaemon (msg : string)
| ErrUnknownJobType (ty : string)
| ErrShuttingDown
| ErrWrap (msg : string) (cause : error).

(** [fmt] verb [%v] on a slice of strings: the elements separated by one
    space, between square brackets. *)
Definition fmt_v (l : list string) : string :=
  ("[" ++ String.concat " " l ++ "]")%string.

Fixpoint error_string (e : error) : string :=
  match e with
  | ErrCircularDependency cycle =>
      ("circular dependency detected: " ++ fmt_v cycle)%string
  | ErrNoContainers => "no containers to sort"%string
  | ErrDaemon msg => msg
  | ErrUnknownJobType ty => ("unknown job type: " ++ ty)%string
  | ErrShuttingDown => "job manager is shutting down"%string
  | ErrWrap msg cause => (msg ++ ": " ++ error_string cause)%string
  end.

(** A computation that may fail to return: [None] stands for a Go program
    that exhausts its stack in unbounded recursion or loops forever. *)
Definition comp (A : Type) : Type := option (result error A).

(** ** Package docker: label parsing *)

Module docker.

Definition LabelManaged : string := "com.github.saltbox.saltbox_managed".
Definition LabelController : string := "com.github.saltbox.saltbox_controller".
Definition LabelDependsOn : string := "com.github.saltbox.depends_on".
Definition LabelDelay : string := "com.github.saltbox.depends_on.delay".
Definition LabelHealthchecks : string := "com.github.saltbox.depends_on.healthchecks".

Record ContainerLabels : Type := mkContainerLabels {
  Managed : bool;
  DependsOn : list string;
  DependsOnDelay : Z;
  DependsOnHealthchecks : bool;
  ControllerEnabled : bool
}.

(** The loop over [strings.SplitSeq(value, ",")]: trim every piece and
    append the non-empty ones. *)
Definition trimmed_pieces (acc : list string) (value : string) : list string :=
  foldl (fun acc piece =>
           let trimmed := GoString.TrimSpace piece in
           if String.eqb trimmed EmptyString then acc else acc ++ [trimmed])
        acc (GoString.Split value ","%char).

Section parse.
(** [strings.Map(unicode.ToLower, s)] for strings that are not ASCII. *)
Variable MapUnicodeToLower : string -> string.

Definition lower_is (value expected : string) : bool :=
  String.eqb (GoString.ToLower MapUnicodeToLower value) expected.

Definition ParseLabels (labels : gmap string string) : ContainerLabels :=
  let managed :=
    match labels !! LabelManaged with
    | Some managed => lower_is managed "true"
    | None => false
    end in
  let controller :=
    match labels !! LabelController with
    | Some controller => negb (lower_is controller "false")
    | None => true
    end in
  let deps :=
    match labels !! LabelDependsOn with
    | Some dependsOn =>
        if String.eqb dependsOn EmptyString then [] else trimmed_pieces [] dependsOn
    | None => []
    end in
  let delay :=
    match labels !! LabelDelay with
    | Some delay =>
        match GoString.Atoi delay with
        | Some delayInt => if 0 <? delayInt then delayInt else 0
        | None => 0
        end
    | None => 0
    end in
  let healthchecks :=
    match labels !! LabelHealthchecks with
    | Some healthchecks => lower_is healthchecks "true"
    | None => false
    end in
  {| Managed := managed;
     DependsOn := deps;
     DependsOnDelay := delay;
     DependsOnHealthchecks := healthchecks;
     ControllerEnabled := controller |}.
End parse.

Definition IsManaged (l : ContainerLabels) : bool :=
  Managed l && ControllerEnabled l.
Definition GetDependencies (l : ContainerLabels) : list string := DependsOn l.
Definition GetStartupDelay (l : ContainerLabels) : Z := DependsOnDelay l.
Definition ShouldWaitForHealthcheck (l : ContainerLabels) : bool :=
  DependsOnHealthchecks l.

(** [container.Summary] of the daemon API, the fields that are read. *)
Record Summary : Type := mkSummary {
  SummaryID : string;
  Names : list string;
  Labels : gmap string string;
  State : string
}.

End docker.

(** ** Slices written through an index *)

(** [out := make([]T, len(l)); for i, x := range l { out[len(l)-1-i] = x }] *)
Definition reverse_by_index {A} (zero : A) (l : list A) : list A :=
  let n := length l in
  foldl (fun out ix => <[(n - 1 - ix.1)%nat := ix.2]> out)
        (replicate n zero) (imap (fun i x => (i, x)) l).

(** [l[i], l[j] = l[j], l[i]] *)
Definition swap {A} (i j : nat) (l : list A) : list A :=
  match l !! i, l !! j with
  | Some a, Some b => <[i := b]> (<[j := a]> l)
  | _, _ => l
  end.

(** [for i := 0; i < len(l)/2; i++ { l[i], l[len(l)-1-i] = l[len(l)-1-i], l[i] }] *)
Definition reverse_in_place {A} (l : list A) : list A :=
  foldl (fun l i => swap i (length l - 1 - i)%nat l) l (seq 0 (length l / 2)).

(** ** Package graph *)

Module graph.
Import docker.

(** A node object. Its [Name] is the key under which the heap holds it;
    the fields [visited] and [inStack] live in [Flags]; [sortIndex] is
    written by the sort and never read, and is left out. *)
Record Node : Type := mkNode {
  ID : string;
  NodeLabels : gmap string string;
  IsRunning : bool;
  IsPlaceholder : bool;
  Parents : list string;
  Children : list string;
  StartupDelay : Z;
  WaitForHealthcheck : bool;
  StopTimeout : option Z
}.

(** All node objects, by name. *)
Abbreviation Heap := (gmap string Node).

(** A [Graph] value: the keys of its [Nodes] map, and the node objects the
    pointers lead to. The graph built by [Build] has every object of the
    heap in [Nodes]; the subgraph of a component shares the heap and
    holds fewer keys. *)
Record Graph : Type := mkGraph {
  heap : Heap;
  Nodes : gset string
}.

(** The per-node fields [visited] and [inStack]: the names of the nodes
    whose field is [true]. *)
Record Flags : Type := mkFlags {
  visited : gset string;
  inStack : gset string
}.

Definition no_flags : Flags := mkFlags ∅ ∅.

Definition set_visited (n : string) (fl : Flags) : Flags :=
  mkFlags ({[n]} ∪ visited fl) (inStack fl).
Definition set_inStack (n : string) (b : bool) (fl : Flags) : Flags :=
  mkFlags (visited fl) (if b then {[n]} ∪ inStack fl else inStack fl ∖ {[n]}).

Definition parents_of (h : Heap) (n : string) : list string :=
  match h !! n with Some nd => Parents nd | None => [] end.
Definition children_of (h : Heap) (n : string) : list string :=
  match h !! n with Some nd => Children nd | None => [] end.
Definition is_placeholder (h : Heap) (n : string) : bool :=
  match h !! n with Some nd => IsPlaceholder nd | None => false end.

Definition HasParents (h : Heap) (n : string) : bool :=
  (0 <? length (parents_of h n))%nat.
Definition HasChildren (h : Heap) (n : string) : bool :=
  (0 <? length (children_of h n))%nat.

(** [summary.Names[0]] without its leading slash. (Indexing an empty
    [Names] panics in Go; the daemon reports at least one name.) *)
Definition container_name (c : Summary) : string :=
  let name := default EmptyString (head (Names c)) in
  match name with
  | String "/"%char rest => rest
  | _ => name
  end.

Definition NewNode (c : Summary) : Node :=
  {| ID := SummaryID c;
     NodeLabels := Labels c;
     IsRunning := String.eqb (State c) "running";
     IsPlaceholder := false;
     Parents := [];
     Children := [];
     StartupDelay := 0;
     WaitForHealthcheck := false;
     StopTimeout := None |}.

Definition NewPlaceholderNode : Node :=
  {| ID := EmptyString;
     NodeLabels := ∅;
     IsRunning := false;
     IsPlaceholder := true;
     Parents := [];
     Children := [];
     StartupDelay := 0;
     WaitForHealthcheck := false;
     StopTimeout := None |}.

Definition add_parent_field (p : string) (nd : Node) : Node :=
  {| ID := ID nd; NodeLabels := NodeLabels nd; IsRunning := IsRunning nd;
     IsPlaceholder := IsPlaceholder nd;
     Parents := Parents nd ++ [p];
     Children := Children nd;
     StartupDelay := StartupDelay nd;
     WaitForHealthcheck := WaitForHealthcheck nd;
     StopTimeout := StopTimeout nd |}.

Definition add_child_field (c : string) (nd : Node) : Node :=
  {| ID := ID nd; NodeLabels := NodeLabels nd; IsRunning := IsRunning nd;
     IsPlaceholder := IsPlaceholder nd;
     Parents := Parents nd;
     Children := Children nd ++ [c];
     StartupDelay := StartupDelay nd;
     WaitForHealthcheck := WaitForHealthcheck nd;
     StopTimeout := StopTimeout nd |}.

(** [n.AddParent(parent)] *)
Definition AddParent (n parent : string) (h : Heap) : Heap :=
  alter (add_child_field n) parent (alter (add_parent_field parent) n h).

Section build.
Variable MapUnicodeToLower : string -> string.
(** The stop timeout that inspecting a container (by ID) yields:
    [None] when the inspection fails, the configuration is missing or
    no timeout is configured. *)
Variable InspectStopTimeout : string -> option Z.

(** First pass of [Build]: one node per orchestrated container. *)
Definition build_nodes (containers : list Summary) : Heap :=
  foldl (fun (h : Heap) c =>
           let node := NewNode c in
           let labels := ParseLabels MapUnicodeToLower (Labels c) in
           if negb (IsManaged labels) then h
           else
             let node :=
               {| ID := ID node; NodeLabels := NodeLabels node;
                  IsRunning := IsRunning node;
                  IsPlaceholder := IsPlaceholder node;
                  Parents := Parents node; Children := Children node;
                  StartupDelay := GetStartupDelay labels;
                  WaitForHealthcheck := ShouldWaitForHealthcheck labels;
                  StopTimeout := InspectStopTimeout (SummaryID c) |} in
             <[container_name c := node]> h)
        ∅ containers.

(** Inner loop of the second pass: the edges of one container. *)
Definition build_edges_of (name : string) (dependencies : list string) (h : Heap) : Heap :=
  foldl (fun (h : Heap) depName =>
           let h :=
             match h !! depName with
             | Some _ => h
             | None => <[depName := NewPlaceholderNode]> h
             end in
           AddParent name depName h)
        h dependencies.

(** Second pass of [Build]. *)
Definition build_edges (containers : list Summary) (h : Heap) : Heap :=
  foldl (fun (h : Heap) c =>
           let name := container_name c in
           match h !! name with
           | None => h
           | Some _ =>
               let labels := ParseLabels MapUnicodeToLower (Labels c) in
               build_edges_of name (GetDependencies labels) h
           end)
        h containers.

Definition Build (containers : list Summary) : Graph :=
  let h := build_edges containers (build_nodes containers) in
  {| heap := h; Nodes := dom h |}.
End build.

(** The [range] statements over a [Nodes] map whose order matters. *)
Inductive Site : Type :=
| RangeHasCycles
| RangeTopologicalSort
| RangeComponents.

(** An iteration oracle: the order in which a [range] at a site walks a
    map with the given keys. *)
Definition RangeOrder : Type := Site -> gset string -> list string.

Definition range_ok (order : RangeOrder) : Prop :=
  forall site (keys : gset string), order site keys ≡ₚ elements keys.

(** *** Cycle detection *)

Definition dfs_result : Type := bool * Flags * list string.

(** The loop over [node.Children] inside [dfs], with the recursive call
    as a parameter. *)
Definition dfs_children (rec : string -> Flags -> list string -> option dfs_result)
    (node : string) : list string -> Flags -> list string -> option dfs_result :=
  fix loop children fl cycle :=
    match children with
    | [] => Some (false, set_inStack node false fl, cycle)
    | child :: rest =>
        match rec child fl cycle with
        | None => None
        | Some (true, fl', cycle') => Some (true, fl', cycle' ++ [node])
        | Some (false, fl', cycle') => loop rest fl' cycle'
        end
    end.

Fixpoint dfs (fuel : nat) (h : Heap) (node : string) (fl : Flags)
    (cycle : list string) : option dfs_result :=
  match fuel with
  | O => None
  | S k =>
      if decide (node ∈ inStack fl) then Some (true, fl, cycle ++ [node])
      else if decide (node ∈ visited fl) then Some (false, fl, cycle)
      else
        dfs_children (dfs k h) node (children_of h node)
                     (set_inStack node true (set_visited node fl)) cycle
  end.

Definition reset_cycle_flags (keys : gset string) (fl : Flags) : Flags :=
  mkFlags (visited fl ∖ keys) (inStack fl ∖ keys).
Definition reset_visited (keys : gset string) (fl : Flags) : Flags :=
  mkFlags (visited fl ∖ keys) (inStack fl).

(** Recursion depth that the walks below can need: one frame per node
    object, and one more. *)
Definition depth_bound (h : Heap) : nat := S (size h).

Fixpoint HasCycles_loop (h : Heap) (nodes : list string) (fl : Flags)
    (cycle : list string) : option dfs_result :=
  match nodes with
  | [] => Some (false, fl, [])
  | node :: rest =>
      if decide (node ∈ visited fl) then HasCycles_loop h rest fl cycle
      else
        match dfs (depth_bound h) h node fl cycle with
        | None => None
        | Some (true, fl', cycle') => Some (true, fl', reverse_in_place cycle')
        | Some (false, fl', cycle') => HasCycles_loop h rest fl' cycle'
        end
  end.

Definition HasCycles (order : RangeOrder) (g : Graph) (fl : Flags) : option dfs_result :=
  HasCycles_loop (heap g) (order RangeHasCycles (Nodes g))
                 (reset_cycle_flags (Nodes g) fl) [].

(** [Validate]: only a cycle is an error. *)
Definition Validate (order : RangeOrder) (g : Graph) (fl : Flags)
    : option (result error unit * Flags) :=
  match HasCycles order g fl with
  | None => None
  | Some (true, fl', cycle) => Some (Err (ErrCircularDependency cycle), fl')
  | Some (false, fl', _) => Some (Ok tt, fl')
  end.

(** *** Topological sort *)

Record SortedContainers : Type := mkSorted {
  StartupOrder : list string;
  ShutdownOrder : list string
}.

Definition visit_parents (rec : string -> Flags -> list string -> option (Flags * list string))
    : list string -> Flags -> list string -> option (Flags * list string) :=
  fix loop parents fl sorted :=
    match parents with
    | [] => Some (fl, sorted)
    | parent :: rest =>
        match rec parent fl sorted with
        | None => None
        | Some (fl', sorted') => loop rest fl' sorted'
        end
    end.

Fixpoint visit (fuel : nat) (h : Heap) (node : string) (fl : Flags)
    (sorted : list string) : option (Flags * list string) :=
  match fuel with
  | O => None
  | S k =>
      if decide (node ∈ visited fl) then Some (fl, sorted)
      else
        match visit_parents (visit k h) (parents_of h node) (set_visited node fl) sorted with
        | None => None
        | Some (fl', sorted') =>
            if is_placeholder h node then Some (fl', sorted')
            else Some (fl', sorted' ++ [node])
        end
  end.

Fixpoint visit_all (h : Heap) (nodes : list string) (fl : Flags)
    (sorted : list string) : option (Flags * list string) :=
  match nodes with
  | [] => Some (fl, sorted)
  | node :: rest =>
      if bool_decide (node ∈ visited fl) || is_placeholder h node
      then visit_all h rest fl sorted
      else
        match visit (depth_bound h) h node fl sorted with
        | None => None
        | Some (fl', sorted') => visit_all h rest fl' sorted'
        end
  end.

Definition TopologicalSort (order : RangeOrder) (g : Graph) (fl : Flags)
    : option (result error SortedContainers * Flags) :=
  match Validate order g fl with
  | None => None
  | Some (Err e, fl1) => Some (Err e, fl1)
  | Some (Ok _, fl1) =>
      match visit_all (heap g) (order RangeTopologicalSort (Nodes g))
                      (reset_visited (Nodes g) fl1) [] with
      | None => None
      | Some (fl2, sorted) =>
          if (length sorted =? 0)%nat then Some (Err ErrNoContainers, fl2)
          else
            Some (Ok {| StartupOrder := sorted;
                        ShutdownOrder := reverse_by_index EmptyString sorted |},
                  fl2)
      end
  end.

(** *** Batches *)

(** The loop over [node.Parents] inside [calculateDepth]. *)
Definition depth_parents (rec : string -> gmap string Z -> option (Z * gmap string Z))
    (h : Heap) : list string -> Z -> gmap string Z -> option (Z * gmap string Z) :=
  fix loop parents maxParentDepth depths :=
    match parents with
    | [] => Some (maxParentDepth, depths)
    | parent :: rest =>
        if is_placeholder h parent then loop rest maxParentDepth depths
        else
          match rec parent depths with
          | None => None
          | Some (parentDepth, depths') =>
              loop rest
                   (if maxParentDepth <? parentDepth then parentDepth else maxParentDepth)
                   depths'
          end
    end.

Fixpoint calculateDepth (fuel : nat) (h : Heap) (node : string)
    (depths : gmap string Z) : option (Z * gmap string Z) :=
  match fuel with
  | O => None
  | S k =>
      match depths !! node with
      | Some depth => Some (depth, depths)
      | None =>
          if negb (HasParents h node) then Some (0, <[node := 0]> depths)
          else
            match depth_parents (calculateDepth k h) h (parents_of h node) (-1) depths with
            | None => None
            | Some (maxParentDepth, depths') =>
                let depth := maxParentDepth + 1 in
                Some (depth, <[node := depth]> depths')
            end
      end
  end.

(** The first loop over [sorted.StartupOrder]: all depths and the
    largest one. *)
Fixpoint all_depths (h : Heap) (nodes : list string) (maxDepth : Z)
    (depths : gmap string Z) : option (Z * gmap string Z) :=
  match nodes with
  | [] => Some (maxDepth, depths)
  | node :: rest =>
      match calculateDepth (depth_bound h) h node depths with
      | None => None
      | Some (depth, depths') =>
          all_depths h rest (if maxDepth <? depth then depth else maxDepth) depths'
      end
  end.

(** The second loop: [batches[depth] = append(batches[depth], node)]. *)
Definition group_by_depth (depths : gmap string Z) (maxDepth : Z)
    (nodes : list string) : list (list string) :=
  foldl (fun batches node =>
           let depth := default 0 (depths !! node) in
           alter (fun batch => batch ++ [node]) (Z.to_nat depth) batches)
        (replicate (Z.to_nat (maxDepth + 1)) []) nodes.

Definition GetStartupBatches (order : RangeOrder) (g : Graph) (fl : Flags)
    : option (result error (list (list string)) * Flags) :=
  match TopologicalSort order g fl with
  | None => None
  | Some (Err e, fl') => Some (Err e, fl')
  | Some (Ok sorted, fl') =>
      match all_depths (heap g) (StartupOrder sorted) 0 ∅ with
      | None => None
      | Some (maxDepth, depths) =>
          Some (Ok (group_by_depth depths maxDepth (StartupOrder sorted)), fl')
      end
  end.

Definition GetShutdownBatches (order : RangeOrder) (g : Graph) (fl : Flags)
    : option (result error (list (list string)) * Flags) :=
  match GetStartupBatches order g fl with
  | None => None
  | Some (Err e, fl') => Some (Err e, fl')
  | Some (Ok startupBatches, fl') =>
      Some (Ok (reverse_by_index [] startupBatches), fl')
  end.

(** *** Connected components *)

Record ComponentBatches : Type := mkComponent {
  Batches : list (list string)
}.

(** [stack = append(stack, x)] for every [x] of [nodes] that is neither
    visited nor a placeholder. The stack is kept with its top first. *)
Definition push_connected (h : Heap) (fl : Flags) (nodes : list string)
    (stack : list string) : list string :=
  foldl (fun stack x =>
           if negb (bool_decide (x ∈ visited fl)) && negb (is_placeholder h x)
           then x :: stack else stack)
        stack nodes.

Fixpoint findComponent_loop (fuel : nat) (h : Heap) (stack : list string)
    (fl : Flags) (component : list string) : option (list string * Flags) :=
  match fuel with
  | O => None
  | S k =>
      match stack with
      | [] => Some (component, fl)
      | node :: stack =>
          if bool_decide (node ∈ visited fl) || is_placeholder h node
          then findComponent_loop k h stack fl component
          else
            let fl := set_visited node fl in
            let stack := push_connected h fl (parents_of h node) stack in
            let stack := push_connected h fl (children_of h node) stack in
            findComponent_loop k h stack fl (component ++ [node])
      end
  end.

(** Number of pointer fields of the heap: every push of [findComponent]
    reads one of them, of a node that it has just marked. *)
Definition edge_count (h : Heap) : nat :=
  sum_list_with (fun kv : string * Node =>
                   (length (Parents kv.2) + length (Children kv.2))%nat)
                (map_to_list h).

Definition findComponent (h : Heap) (start : string) (fl : Flags)
    : option (list string * Flags) :=
  findComponent_loop (2 + edge_count h) h [start] fl [].

Definition getBatchesForComponent (order : RangeOrder) (h : Heap)
    (component : list string) (fl : Flags)
    : option (result error (list (list string)) * Flags) :=
  let subgraph := {| heap := h; Nodes := list_to_set component |} in
  GetStartupBatches order subgraph fl.

Fixpoint components_loop (order : RangeOrder) (h : Heap) (nodes : list string)
    (fl : Flags) (components : list ComponentBatches)
    : option (result error (list ComponentBatches) * Flags) :=
  match nodes with
  | [] => Some (Ok components, fl)
  | node :: rest =>
      if bool_decide (node ∈ visited fl) || is_placeholder h node
      then components_loop order h rest fl components
      else
        match findComponent h node fl with
        | None => None
        | Some (component, fl1) =>
            if (0 <? length component)%nat then
              match getBatchesForComponent order h component fl1 with
              | None => None
              | Some (Err e, fl2) => Some (Err e, fl2)
              | Some (Ok batches, fl2) =>
                  components_loop order h rest fl2
                                  (components ++ [{| Batches := batches |}])
              end
            else components_loop order h rest fl1 components
        end
  end.

Definition GetConnectedComponents (order : RangeOrder) (g : Graph) (fl : Flags)
    : option (result error (list ComponentBatches) * Flags) :=
  components_loop order (heap g) (order RangeComponents (Nodes g))
                  (reset_visited (Nodes g) fl) [].

Definition GetConnectedComponentsForShutdown (order : RangeOrder) (g : Graph)
    (fl : Flags) : option (result error (list ComponentBatches) * Flags) :=
  match GetConnectedComponents order g fl with
  | None => None
  | Some (Err e, fl') => Some (Err e, fl')
  | Some (Ok components, fl') =>
      Some (Ok ((fun comp => {| Batches := reverse_by_index [] (Batches comp) |})
                  <$> components),
            fl')
  end.

End graph.

(** ** Package orchestrator *)

Module orchestrator.
Import docker graph.

(** The container daemon as the executor sees it: what each call answers
    for a given container. [ctxDoneDuringDelay name] tells whether the
    deadline of the operation passes while [name] sleeps its startup
    delay. *)
Record Daemon : Type := mkDaemon {
  ListManagedContainers : result error (list Summary);
  InspectStopTimeout : string -> option Z;
  IsContainerRunning : string -> result error bool;
  StartContainer : string -> result error unit;
  StopContainer : string -> Z -> result error unit;
  ctxDoneDuringDelay : string -> bool
}.

(** A state-changing call made to the daemon. *)
Inductive Action : Type :=
| ActStart (id : string)
| ActStop (id : string) (timeout : Z).

Record StartContainersOptions : Type := mkStartOpts {
  StartTimeout : Z;
  StartIgnore : list string
}.
Record StopContainersOptions : Type := mkStopOpts {
  StopTimeoutOpt : Z;
  StopIgnore : list string
}.

Record StartResult : Type := mkStartResult {
  Started : list string;
  StartSkipped : list string;
  StartFailed : list string
}.
Record StopResult : Type := mkStopResult {
  Stopped : list string;
  StopSkipped : list string;
  StopFailed : list string
}.

Definition node_ID (h : Heap) (n : string) : string :=
  match h !! n with Some nd => ID nd | None => EmptyString end.
Definition node_StartupDelay (h : Heap) (n : string) : Z :=
  match h !! n with Some nd => StartupDelay nd | None => 0 end.
Definition node_StopTimeout (h : Heap) (n : string) : option Z :=
  match h !! n with Some nd => StopTimeout nd | None => None end.

(** [startContainer]. Waiting for the parents' health checks only reads
    from the daemon, and every failure of it is a warning: it changes
    neither the outcome nor the calls made, and is not modelled. *)
Definition startContainer (d : Daemon) (h : Heap) (node : string)
    : result error unit * list Action :=
  match IsContainerRunning d node with
  | Err e => (Err (ErrWrap "failed to check container status" e), [])
  | Ok true => (Ok tt, [])
  | Ok false =>
      if (0 <? node_StartupDelay h node) && ctxDoneDuringDelay d node
      then (Err (ErrDaemon "context deadline exceeded"), [])
      else
        match StartContainer d (node_ID h node) with
        | Err e => (Err (ErrWrap "failed to start container" e), [ActStart (node_ID h node)])
        | Ok _ => (Ok tt, [ActStart (node_ID h node)])
        end
  end.

(** [stopContainer] *)
Definition stopContainer (d : Daemon) (h : Heap) (node : string)
    : result error unit * list Action :=
  match IsContainerRunning d node with
  | Err e => (Err (ErrWrap "failed to check container status" e), [])
  | Ok false => (Ok tt, [])
  | Ok true =>
      let timeout := default 10 (node_StopTimeout h node) in
      match StopContainer d (node_ID h node) timeout with
      | Err e => (Err (ErrWrap "failed to stop container" e),
                  [ActStop (node_ID h node) timeout])
      | Ok _ => (Ok tt, [ActStop (node_ID h node) timeout])
      end
  end.

(** Outcome buckets (done, skipped, failed) and the calls made. *)
Definition Buckets : Type := list string * list string * list string * list Action.

(** One node of a batch. *)
Definition run_node (act : string -> result error unit * list Action)
    (ignore : list string) (acc : Buckets) (n : string) : Buckets :=
  let '(done, skipped, failed, trace) := acc in
  if bool_decide (n ∈ ignore) then (done, skipped ++ [n], failed, trace)
  else
    match act n with
    | (Err _, calls) => (done, skipped, failed ++ [n], trace ++ calls)
    | (Ok _, calls) => (done ++ [n], skipped, failed, trace ++ calls)
    end.

(** The components, their batches and the nodes of a batch run
    concurrently in Go, a batch after the previous one of its component.
    The model runs one admissible schedule: components in order, batches
    in order, nodes in order. *)
Definition run_components (act : string -> result error unit * list Action)
    (ignore : list string) (components : list ComponentBatches) : Buckets :=
  foldl (fun acc comp =>
           foldl (fun acc batch => foldl (run_node act ignore) acc batch)
                 acc (Batches comp))
        ([], [], [], []) components.

Section executor.
Variable MapUnicodeToLower : string -> string.
Variable order : RangeOrder.
Variable d : Daemon.

Definition StartContainers (opts : StartContainersOptions)
    : option (result error StartResult * list Action) :=
  match ListManagedContainers d with
  | Err e => Some (Err (ErrWrap "failed to list containers" e), [])
  | Ok containers =>
      let g := Build MapUnicodeToLower (InspectStopTimeout d) containers in
      match GetConnectedComponents order g no_flags with
      | None => None
      | Some (Err e, _) =>
          Some (Err (ErrWrap "failed to identify connected components" e), [])
      | Some (Ok components, _) =>
          let '(started, skipped, failed, trace) :=
            run_components (startContainer d (heap g)) (StartIgnore opts) components in
          Some (Ok {| Started := started; StartSkipped := skipped;
                      StartFailed := failed |}, trace)
      end
  end.

Definition StopContainers (opts : StopContainersOptions)
    : option (result error StopResult * list Action) :=
  match ListManagedContainers d with
  | Err e => Some (Err (ErrWrap "failed to list containers" e), [])
  | Ok containers =>
      let g := Build MapUnicodeToLower (InspectStopTimeout d) containers in
      match GetConnectedComponentsForShutdown order g no_flags with
      | None => None
      | Some (Err e, _) =>
          Some (Err (ErrWrap "failed to identify connected components" e), [])
      | Some (Ok components, _) =>
          let '(stopped, skipped, failed, trace) :=
            run_components (stopContainer d (heap g)) (StopIgnore opts) components in
          Some (Ok {| Stopped := stopped; StopSkipped := skipped;
                      StopFailed := failed |}, trace)
      end
  end.
End executor.

End orchestrator.

(** ** Package jobs *)

Module jobs.
Import orchestrator.

Definition JobTypeStart : string := "start".
Definition JobTypeStop : string := "stop".

Inductive JobStatus : Type :=
| JobStatusPending
| JobStatusRunning
| JobStatusCompleted
| JobStatusFailed.

Global Instance JobStatus_eq_dec : EqDecision JobStatus.
Proof. solve_decision. Defined.

Definition status_string (s : JobStatus) : string :=
  match s with
  | JobStatusPending => "pending"
  | JobStatusRunning => "running"
  | JobStatusCompleted => "completed"
  | JobStatusFailed => "failed"
  end.

(** A [time.Time] is its distance in nanoseconds from the zero time. *)
Definition Time : Type := Z.
Definition IsZero (t : Time) : bool := t =? 0.

Definition Second : Z := 1000000000.
Definition Minute : Z := 60 * Second.
Definition Hour : Z := 60 * Minute.
Definition maxDuration : Z := 2 ^ 63 - 1.
Definition minDuration : Z := - 2 ^ 63.

(** [t.Sub(u)]: the difference, saturated to the range of a Duration. *)
Definition Sub (t u : Time) : Z :=
  Z.max minDuration (Z.min maxDuration (t - u)).

Definition DefaultWorkerCount : Z := 3.
Definition MinJobRetention : Z := 1 * Hour.
Definition MaxJobCount : nat := 1000.
Definition CleanupInterval : Z := 5 * Minute.

Record Job : Type := mkJob {
  JobID : string;
  Type_ : string;
  Status : JobStatus;
  CreatedAt : Time;
  StartedAt : Time;
  EndedAt : Time;
  Timeout : Z;
  Ignore : list string;
  JobStarted : list string;
  JobStopped : list string;
  JobSkipped : list string;
  JobFailed : list string;
  Error : string
}.

(** [NewJob]; the UUID and the clock reading are inputs. *)
Definition NewJob (uuid : string) (now : Time) (jobType : string)
    (timeout : Z) (ignore : list string) : Job :=
  {| JobID := uuid; Type_ := jobType; Status := JobStatusPending;
     CreatedAt := now; StartedAt := 0; EndedAt := 0;
     Timeout := timeout; Ignore := ignore;
     JobStarted := []; JobStopped := []; JobSkipped := []; JobFailed := [];
     Error := EmptyString |}.

Definition GetStatus (j : Job) : JobStatus := Status j.

Definition SetStatus (now : Time) (status : JobStatus) (j : Job) : Job :=
  {| JobID := JobID j; Type_ := Type_ j; Status := status;
     CreatedAt := CreatedAt j;
     StartedAt :=
       match status with
       | JobStatusRunning => if IsZero (StartedAt j) then now else StartedAt j
       | _ => StartedAt j
       end;
     EndedAt :=
       match status with
       | JobStatusCompleted | JobStatusFailed =>
           if IsZero (EndedAt j) then now else EndedAt j
       | _ => EndedAt j
       end;
     Timeout := Timeout j; Ignore := Ignore j;
     JobStarted := JobStarted j; JobStopped := JobStopped j;
     JobSkipped := JobSkipped j; JobFailed := JobFailed j;
     Error := Error j |}.

Definition SetError (now : Time) (err : error) (j : Job) : Job :=
  {| JobID := JobID j; Type_ := Type_ j; Status := JobStatusFailed;
     CreatedAt := CreatedAt j; StartedAt := StartedAt j;
     EndedAt := if IsZero (EndedAt j) then now else EndedAt j;
     Timeout := Timeout j; Ignore := Ignore j;
     JobStarted := JobStarted j; JobStopped := JobStopped j;
     JobSkipped := JobSkipped j; JobFailed := JobFailed j;
     Error := error_string err |}.

(** [SetResults]; a [nil] argument is [None] and leaves the field. *)
Definition SetResults (started stopped skipped failed : option (list string))
    (j : Job) : Job :=
  {| JobID := JobID j; Type_ := Type_ j; Status := Status j;
     CreatedAt := CreatedAt j; StartedAt := StartedAt j; EndedAt := EndedAt j;
     Timeout := Timeout j; Ignore := Ignore j;
     JobStarted := default (JobStarted j) started;
     JobStopped := default (JobStopped j) stopped;
     JobSkipped := default (JobSkipped j) skipped;
     JobFailed := default (JobFailed j) failed;
     Error := Error j |}.

(** The manager: the registry, the queue of submitted jobs (by ID) and
    whether its context is cancelled. *)
Record Manager : Type := mkManager {
  jobs : gmap string Job;
  jobQueue : list string;
  shuttingDown : bool
}.

Definition QueueCapacity : nat := 100.

(** [Submit]. A send on a full queue waits for a worker or for the
    cancellation of the context; [cancelledWhileWaiting] tells which of
    the two comes first. *)
Definition Submit (cancelledWhileWaiting : bool) (job : Job) (m : Manager)
    : result error unit * Manager :=
  if shuttingDown m then (Err ErrShuttingDown, m)
  else
    let registered := <[JobID job := job]> (jobs m) in
    if (length (jobQueue m) <? QueueCapacity)%nat || negb cancelledWhileWaiting
    then (Ok tt, {| jobs := registered;
                    jobQueue := jobQueue m ++ [JobID job];
                    shuttingDown := shuttingDown m |})
    else (Err ErrShuttingDown,
          {| jobs := registered; jobQueue := jobQueue m;
             shuttingDown := shuttingDown m |}).

(** [Get]; the clone of a job is the job's value. *)
Definition Get (id : string) (m : Manager) : option Job := jobs m !! id.

Section worker.
Variable MapUnicodeToLower : string -> string.
Variable order : graph.RangeOrder.
Variable d : Daemon.

(** [processStartJob]; [None] when the executor never returns. *)
Definition processStartJob (now : Time) (job : Job) : option Job :=
  let opts := {| StartTimeout := Timeout job; StartIgnore := Ignore job |} in
  match StartContainers MapUnicodeToLower order d opts with
  | None => None
  | Some (Err err, _) => Some (SetError now err job)
  | Some (Ok res, _) =>
      Some (SetStatus now JobStatusCompleted
              (SetResults (Some (Started res)) None
                          (Some (StartSkipped res)) (Some (StartFailed res)) job))
  end.

Definition processStopJob (now : Time) (job : Job) : option Job :=
  let opts := {| StopTimeoutOpt := Timeout job; StopIgnore := Ignore job |} in
  match StopContainers MapUnicodeToLower order d opts with
  | None => None
  | Some (Err err, _) => Some (SetError now err job)
  | Some (Ok res, _) =>
      Some (SetStatus now JobStatusCompleted
              (SetResults None (Some (Stopped res))
                          (Some (StopSkipped res)) (Some (StopFailed res)) job))
  end.

(** [processJob]; [picked] and [now] are the clock readings when the
    worker picks the job up and when the executor has returned. *)
Definition processJob (picked now : Time) (job : Job) : option Job :=
  let job := SetStatus picked JobStatusRunning job in
  if String.eqb (Type_ job) JobTypeStart then processStartJob now job
  else if String.eqb (Type_ job) JobTypeStop then processStopJob now job
  else Some (SetError now (ErrUnknownJobType (Type_ job)) job).
End worker.

(** *** Retention *)

Record jobAge : Type := mkJobAge { id : string; age : Z }.

(** The loop that collects the jobs eligible for cleanup. *)
Definition collect_eligible (now : Time) (entries : list (string * Job)) : list jobAge :=
  foldl (fun eligible entry =>
           let status := GetStatus entry.2 in
           if bool_decide (status = JobStatusCompleted) || bool_decide (status = JobStatusFailed)
           then
             let age := Sub now (CreatedAt entry.2) in
             if MinJobRetention <? age
             then eligible ++ [{| id := entry.1; age := age |}]
             else eligible
           else eligible)
        [] entries.

(** [if eligible[j].age > eligible[i].age { swap }] *)
Definition swap_if_older (i j : nat) (eligible : list jobAge) : list jobAge :=
  match eligible !! i, eligible !! j with
  | Some ei, Some ej => if age ei <? age ej then swap i j eligible else eligible
  | _, _ => eligible
  end.

(** The nested loops that sort [eligible] by age, oldest first. *)
Definition sort_by_age (eligible : list jobAge) : list jobAge :=
  let n := length eligible in
  foldl (fun eligible i =>
           foldl (fun eligible j => swap_if_older i j eligible)
                 eligible (seq (i + 1) (n - (i + 1))))
        eligible (seq 0 n).

Definition delete_all (ids : list string) (reg : gmap string Job) : gmap string Job :=
  foldl (fun reg i => delete i reg) reg ids.

(** [cleanup]; [entries] is the registry in the order in which [range]
    walks it. *)
Definition cleanup_registry (now : Time) (entries : list (string * Job))
    (reg : gmap string Job) : gmap string Job :=
  let totalJobs := size reg in
  if (totalJobs =? 0)%nat then reg
  else
    let eligible := collect_eligible now entries in
    if (length eligible =? 0)%nat && (totalJobs <=? MaxJobCount)%nat then reg
    else if (MaxJobCount <? totalJobs)%nat then
      let eligible := sort_by_age eligible in
      let toRemove := (totalJobs - MaxJobCount)%nat in
      let toRemove := if (length eligible <? toRemove)%nat then length eligible else toRemove in
      delete_all (id <$> take toRemove eligible) reg
    else if (0 <? length eligible)%nat then
      delete_all (id <$> eligible) reg
    else reg.

(** An iteration oracle for the registry. *)
Definition JobOrder : Type := gmap string Job -> list (string * Job).
Definition job_order_ok (jorder : JobOrder) : Prop :=
  forall reg, jorder reg ≡ₚ map_to_list reg.

Definition cleanup (jorder : JobOrder) (now : Time) (m : Manager) : Manager :=
  {| jobs := cleanup_registry now (jorder (jobs m)) (jobs m);
     jobQueue := jobQueue m;
     shuttingDown := shuttingDown m |}.


(** *** The rest of the job and of the registry *)

(** [Clone]: a copy of the job, with slices of its own; as a value, the
    job. *)
Definition Clone (j : Job) : Job :=
  {| JobID := JobID j; Type_ := Type_ j; Status := Status j;
     CreatedAt := CreatedAt j; StartedAt := StartedAt j; EndedAt := EndedAt j;
     Timeout := Timeout j;
     Ignore := [] ++ Ignore j;
     JobStarted := [] ++ JobStarted j; JobStopped := [] ++ JobStopped j;
     JobSkipped := [] ++ JobSkipped j; JobFailed := [] ++ JobFailed j;
     Error := Error j |}.

(** [Duration], asked at the clock reading [now]. *)
Definition Duration (now : Time) (j : Job) : Z :=
  if IsZero (StartedAt j) then 0
  else if IsZero (EndedAt j) then Sub now (StartedAt j)
  else Sub (EndedAt j) (StartedAt j).

(** [Age], asked at the clock reading [now]. *)
Definition Age (now : Time) (j : Job) : Z := Sub now (CreatedAt j).

(** The error of [Get] and [Delete]. *)
Inductive registry_error : Type :=
| ErrJobNotFound (id : string).

Definition registry_error_string (e : registry_error) : string :=
  match e with
  | ErrJobNotFound id => ("job not found: " ++ id)%string
  end.

(** [Get], with its error. *)
Definition GetJob (id : string) (m : Manager) : result registry_error Job :=
  match jobs m !! id with
  | None => Err (ErrJobNotFound id)
  | Some job => Ok (Clone job)
  end.

(** [List]; the registry is walked in the order [jorder]. *)
Definition List (jorder : JobOrder) (m : Manager) : list Job :=
  foldl (fun result entry => result ++ [Clone entry.2]) [] (jorder (jobs m)).

(** [Delete] *)
Definition Delete (id : string) (m : Manager) : result registry_error unit * Manager :=
  match jobs m !! id with
  | None => (Err (ErrJobNotFound id), m)
  | Some _ =>
      (Ok tt, {| jobs := delete id (jobs m); jobQueue := jobQueue m;
                 shuttingDown := shuttingDown m |})
  end.

(** A call that changes a job. *)
Inductive JobCall : Type :=
| CallSetStatus (now : Time) (status : JobStatus)
| CallSetError (now : Time) (err : error)
| CallSetResults (started stopped skipped failed : option (list string)).

Definition call (j : Job) (c : JobCall) : Job :=
  match c with
  | CallSetStatus now status => SetStatus now status j
  | CallSetError now err => SetError now err j
  | CallSetResults started stopped skipped failed =>
      SetResults started stopped skipped failed j
  end.

End jobs.

(** ** Package api *)

Module api.
Import jobs.

(** A request after routing: method, path segments and the parsed query
    ([url.Values]: every key with its values in order). *)
Record Request : Type := mkRequest {
  method : string;
  path : list string;
  query : gmap string (list string)
}.

(** A response: the status code and the members of the JSON object
    written as body. *)
Record Response : Type := mkResponse {
  status : Z;
  body : list (string * string)
}.

Definition StatusOK : Z := 200.
Definition StatusNotFound : Z := 404.
Definition StatusMethodNotAllowed : Z := 405.
Definition StatusInternalServerError : Z := 500.
Definition StatusServiceUnavailable : Z := 503.

(** The server: the job manager, the block flag, and the auto-unblock
    timer that is pending (if any) among those started so far. *)
Record Server : Type := mkServer {
  jobManager : Manager;
  isBlocked : bool;
  unblockCancel : option nat;
  timersStarted : nat
}.

(** What a handler takes from its surroundings: a fresh UUID, the clock,
    and how a wait on a full queue ends. *)
Record Env : Type := mkEnv {
  uuid : string;
  now : Time;
  cancelledWhileWaiting : bool
}.

Definition with_manager (m : Manager) (s : Server) : Server :=
  {| jobManager := m; isBlocked := isBlocked s;
     unblockCancel := unblockCancel s; timersStarted := timersStarted s |}.

Definition writeJSON (status : Z) (data : list (string * string)) : Response :=
  {| status := status; body := data |}.
Definition writeError (status : Z) (message : string) : Response :=
  writeJSON status [("error"%string, message)].

(** [r.URL.Query().Get(key)]: the first value, or the empty string. *)
Definition query_Get (q : gmap string (list string)) (key : string) : string :=
  match q !! key with
  | Some (v :: _) => v
  | _ => EmptyString
  end.

Definition parse_timeout (q : gmap string (list string)) (dflt : Z) : Z :=
  let timeoutStr := query_Get q "timeout" in
  if String.eqb timeoutStr EmptyString then dflt
  else
    match GoString.Atoi timeoutStr with
    | Some parsedTimeout => parsedTimeout
    | None => dflt
    end.

(** The loops over [query["ignore"]] and the pieces of each value. *)
Definition parse_ignore (q : gmap string (list string)) : list string :=
  match q !! "ignore"%string with
  | Some ignoreParams => foldl docker.trimmed_pieces [] ignoreParams
  | None => []
  end.

Definition submit_job (env : Env) (job : Job) (s : Server) : Response * Server :=
  match Submit (cancelledWhileWaiting env) job (jobManager s) with
  | (Err _, m) =>
      (writeError StatusInternalServerError "Failed to submit job", with_manager m s)
  | (Ok _, m) =>
      (writeJSON StatusOK [("job_id"%string, JobID job)], with_manager m s)
  end.

Definition HandleStartContainers (env : Env) (r : Request) (s : Server)
    : Response * Server :=
  if isBlocked s then (writeError StatusServiceUnavailable "Operation blocked", s)
  else
    let timeout := parse_timeout (query r) 600 in
    let job := NewJob (uuid env) (now env) JobTypeStart timeout [] in
    submit_job env job s.

Definition HandleStopContainers (env : Env) (r : Request) (s : Server)
    : Response * Server :=
  if isBlocked s then (writeError StatusServiceUnavailable "Operation blocked", s)
  else
    let timeout := parse_timeout (query r) 300 in
    let ignore := parse_ignore (query r) in
    let job := NewJob (uuid env) (now env) JobTypeStop timeout ignore in
    submit_job env job s.

Definition HandleGetJobStatus (jobID : string) (s : Server) : Response * Server :=
  match Get jobID (jobManager s) with
  | None => (writeJSON StatusNotFound [("status"%string, "not_found"%string)], s)
  | Some job => (writeJSON StatusOK [("status"%string, status_string (Status job))], s)
  end.

Definition HandleHealth (s : Server) : Response * Server :=
  (writeJSON StatusOK [("status"%string, "healthy"%string)], s).

(** [strconv.Itoa] *)
Definition Itoa (n : Z) : string := pretty n.

Definition HandleBlock (durationStr : string) (s : Server) : Response * Server :=
  let duration :=
    if String.eqb durationStr EmptyString then 10
    else match GoString.Atoi durationStr with
         | Some parsedDuration => parsedDuration
         | None => 10
         end in
  (writeJSON StatusOK
     [("message"%string,
       ("Operations are now blocked for " ++ Itoa duration ++ " minutes")%string)],
   {| jobManager := jobManager s; isBlocked := true;
      unblockCancel := Some (timersStarted s);
      timersStarted := S (timersStarted s) |}).

Definition HandleUnblock (s : Server) : Response * Server :=
  (writeJSON StatusOK [("message"%string, "Operations are now unblocked"%string)],
   {| jobManager := jobManager s; isBlocked := false;
      unblockCancel := None; timersStarted := timersStarted s |}).


(** [Router]: the routes of the server; any other path is not found and
    any other method on a known path is not allowed. *)
Definition Router (env : Env) (r : Request) (s : Server) : Response * Server :=
  match path r with
  | ["start"%string] =>
      if String.eqb (method r) "POST" then HandleStartContainers env r s
      else (writeJSON StatusMethodNotAllowed [], s)
  | ["stop"%string] =>
      if String.eqb (method r) "POST" then HandleStopContainers env r s
      else (writeJSON StatusMethodNotAllowed [], s)
  | ["ping"%string] =>
      if String.eqb (method r) "GET" then HandleHealth s
      else (writeJSON StatusMethodNotAllowed [], s)
  | ["block"%string; duration] =>
      if String.eqb (method r) "POST" then HandleBlock duration s
      else (writeJSON StatusMethodNotAllowed [], s)
  | ["unblock"%string] =>
      if String.eqb (method r) "POST" then HandleUnblock s
      else (writeJSON StatusMethodNotAllowed [], s)
  | ["job_status"%string; job_id] =>
      if String.eqb (method r) "GET" then HandleGetJobStatus job_id s
      else (writeJSON StatusMethodNotAllowed [], s)
  | _ => (writeJSON StatusNotFound [], s)
  end.

End api.

(** ** The parsers as the specification words them *)

Module spec.
Import GoString.

Fixpoint drop_while {A} (p : A -> bool) (l : list A) : list A :=
  match l with
  | [] => []
  | x :: l' => if p x then drop_while p l' else l
  end.

(** A string without its leading and trailing ASCII white space. *)
Definition ascii_trim (s : string) : string :=
  of_bytes (rev (drop_while asciiSpace (rev (drop_while asciiSpace (bytes s))))).

Definition non_empty (s : string) : bool := negb (String.eqb s EmptyString).

(** Split on commas, trim every element with [trim], drop the empty
    elements. *)
Definition elements_of (trim : string -> string) (value : string) : list string :=
  List.filter non_empty (trim <$> Split value ","%char).

(** Equality with a lower-case word up to the case of ASCII letters. *)
Definition fold_eq (value word : string) : bool :=
  String.eqb (of_bytes (map lower_byte (bytes value))) word.

(** A base-10 integer; invalid or negative strings yield 0. *)
Definition delay_of (value : string) : Z :=
  match Atoi value with
  | Some n => Z.max 0 n
  | None => 0
  end.

(** The label record with every element trimmed by [trim]. *)
Definition labels_with (trim : string -> string) (labels : gmap string string)
    : docker.ContainerLabels :=
  {| docker.Managed :=
       match labels !! docker.LabelManaged with
       | Some v => fold_eq v "true"
       | None => false
       end;
     docker.DependsOn :=
       match labels !! docker.LabelDependsOn with
       | Some v => elements_of trim v
       | None => []
       end;
     docker.DependsOnDelay :=
       match labels !! docker.LabelDelay with
       | Some v => delay_of v
       | None => 0
       end;
     docker.DependsOnHealthchecks :=
       match labels !! docker.LabelHealthchecks with
       | Some v => fold_eq v "true"
       | None => false
       end;
     docker.ControllerEnabled :=
       match labels !! docker.LabelController with
       | Some v => negb (fold_eq v "false")
       | None => true
       end |}.

(** The ignore list of a query: every value of the repeated parameter,
    split on commas, trimmed, empty entries dropped. *)
Definition ignore_with (trim : string -> string) (q : gmap string (list string))
    : list string :=
  concat (elements_of trim <$> default [] (q !! "ignore"%string)).

(** The timeout of a query: the first value when it is an integer. *)
Definition timeout_of (q : gmap string (list string)) (dflt : Z) : Z :=
  match q !! "timeout"%string with
  | Some (v :: _) => default dflt (Atoi v)
  | _ => dflt
  end.

(** *** Dependency graphs *)

(** [n] has [c] among its children; [n] has [p] among its parents. *)
Definition child_edge (h : graph.Heap) (n c : string) : Prop :=
  c ∈ graph.children_of h n.
Definition parent_edge (h : graph.Heap) (n p : string) : Prop :=
  p ∈ graph.parents_of h n.

(** A graph without cycles: no node reaches itself, neither along the
    children nor along the parents. *)
Definition cycle_free (h : graph.Heap) : Prop :=
  (forall n, ~ tc (child_edge h) n n) /\ (forall n, ~ tc (parent_edge h) n n).

(** The node objects not yet marked visited. *)
Definition unvisited (h : graph.Heap) (fl : graph.Flags) : nat :=
  size (dom h ∖ graph.visited fl).

(** The pointer fields of the node objects not yet marked visited. *)
Definition degree (nd : graph.Node) : nat :=
  (length (graph.Parents nd) + length (graph.Children nd))%nat.
Definition pending (h : graph.Heap) (fl : graph.Flags) : nat :=
  sum_list_with (fun kv : string * graph.Node =>
                   if bool_decide (kv.1 ∈ graph.visited fl) then 0%nat else degree kv.2)
                (map_to_list h).

(** A chain of parents that starts at [n] and runs through [l]. *)
Fixpoint parent_chain (h : graph.Heap) (n : string) (l : list string) : Prop :=
  match l with
  | [] => True
  | x :: l' => x = n /\ exists p, parent_edge h n p /\ parent_chain h p l'
  end.

(** Batches in dependency order: every non-placeholder parent of a
    non-placeholder node of batch [i] is in a batch [j < i]. *)
Definition batch_order (h : graph.Heap) (batches : list (list string)) : Prop :=
  forall i batch n p,
    batches !! i = Some batch -> n ∈ batch -> graph.is_placeholder h n = false ->
    parent_edge h n p -> graph.is_placeholder h p = false ->
    exists j batch', (j < i)%nat /\ batches !! j = Some batch' /\ p ∈ batch'.

(** The component with its batches in reverse order. *)
Definition reversed (comp : graph.ComponentBatches) : graph.ComponentBatches :=
  {| graph.Batches := rev (graph.Batches comp) |}.

(** A result with its value, if any, mapped. *)
Definition on_value {A B} (f : A -> B) (r : option (result error A * graph.Flags))
    : option (result error B * graph.Flags) :=
  match r with
  | None => None
  | Some (Err e, fl) => Some (Err e, fl)
  | Some (Ok a, fl) => Some (Ok (f a), fl)
  end.

(** The nodes that the cycle check has finished with. *)
Definition finished (fl : graph.Flags) : gset string :=
  graph.visited fl ∖ graph.inStack fl.

(** The finished nodes are closed under children and none of them is on a
    cycle. *)
Definition finished_closed (h : graph.Heap) (fl : graph.Flags) : Prop :=
  graph.inStack fl ⊆ graph.visited fl
  /\ (forall u c, u ∈ finished fl -> child_edge h u c -> c ∈ finished fl)
  /\ (forall u, u ∈ finished fl -> ~ tc (child_edge h) u u).

(** Every element of [l] has the next one among its children. *)
Definition child_path (h : graph.Heap) (l : list string) : Prop :=
  forall i x y, l !! i = Some x -> l !! S i = Some y -> child_edge h x y.

(** Every element of [l] is among the children of the next one. *)
Definition back_path (h : graph.Heap) (l : list string) : Prop :=
  forall i x y, l !! i = Some x -> l !! S i = Some y -> child_edge h y x.

(** What [dfs n] appends to the cycle under construction when it finds
    one: a path back from a node that is on the stack, or further down the
    path itself, to [n]. *)
Definition found_path (h : graph.Heap) (n : string) (stack : gset string)
    (l : list string) : Prop :=
  back_path h l /\ last l = Some n
  /\ exists t rest, l = t :: rest /\ (t ∈ stack \/ t ∈ rest).

(** A list of names that names a cycle: a path along the children whose
    last node occurs earlier on it. *)
Definition names_cycle (h : graph.Heap) (cycle : list string) : Prop :=
  child_path h cycle
  /\ exists lead t loop, cycle = lead ++ t :: loop ++ [t].

(** The nodes that a walk of [visit] calls from [starts] has newly marked
    are reached from [starts] along the parents, and all their parents
    are marked. *)
Definition visit_closed (h : graph.Heap) (starts : list string)
    (fl fl' : graph.Flags) : Prop :=
  forall x, x ∈ graph.visited fl' -> x ∉ graph.visited fl ->
    (exists s, s ∈ starts /\ rtc (parent_edge h) s x)
    /\ (forall p, parent_edge h x p -> p ∈ graph.visited fl').

(** The memo of [calculateDepth] is sound: no depth is negative, and
    every non-placeholder parent of a node with a depth has a smaller
    one. *)
Definition depths_ok (h : graph.Heap) (depths : gmap string Z) : Prop :=
  forall n d, depths !! n = Some d ->
    0 <= d
    /\ (forall p, parent_edge h n p -> graph.is_placeholder h p = false ->
          exists d', depths !! p = Some d' /\ d' < d).

(** What a walk of [calculateDepth] calls from [starts] has done to the
    memo: it grew, stayed sound, and its new entries are reached from
    [starts] along the parents. *)
Definition depths_frame (h : graph.Heap) (starts : list string)
    (depths depths' : gmap string Z) : Prop :=
  depths ⊆ depths' /\ depths_ok h depths'
  /\ (forall x, is_Some (depths' !! x) ->
        is_Some (depths !! x) \/ exists s, s ∈ starts /\ rtc (parent_edge h) s x).

(** Every name among the [Parents] of a node object is the key of a node
    object. *)
Definition parents_linked (h : graph.Heap) : Prop :=
  forall n nd p, h !! n = Some nd -> p ∈ graph.Parents nd -> is_Some (h !! p).

(** The parents of the nodes of the graph are nodes of the graph. *)
Definition parents_closed (g : graph.Graph) : Prop :=
  forall n p, n ∈ graph.Nodes g -> parent_edge (graph.heap g) n p -> p ∈ graph.Nodes g.

(** What a call [dfs n] that returns has done to the flags and to the
    cycle under construction. *)
Definition dfs_post (n : string) (fl : graph.Flags) (cycle : list string)
    (r : graph.dfs_result) : Prop :=
  let '(found, fl', cycle') := r in
  graph.visited fl ⊆ graph.visited fl'
  /\ (found = false ->
      graph.inStack fl' = graph.inStack fl /\ cycle' = cycle
      /\ n ∈ graph.visited fl').

(** What a walk of [visit] calls that returns has done: it appended to
    [sorted], once each, the non-placeholder nodes that it marked. *)
Definition visit_frame (h : graph.Heap) (fl : graph.Flags) (sorted : list string)
    (r : graph.Flags * list string) : Prop :=
  let '(fl', sorted') := r in
  graph.visited fl ⊆ graph.visited fl'
  /\ graph.inStack fl' = graph.inStack fl
  /\ exists added,
      sorted' = sorted ++ added
      /\ NoDup added
      /\ (forall x, x ∈ added <->
            x ∈ graph.visited fl' /\ (x ∉ graph.visited fl)
            /\ graph.is_placeholder h x = false).

Definition visit_post (h : graph.Heap) (n : string) (fl : graph.Flags)
    (sorted : list string) (r : graph.Flags * list string) : Prop :=
  visit_frame h fl sorted r /\ n ∈ graph.visited r.1.

(** *** Retention of jobs *)

Definition job_age (now : jobs.Time) (j : jobs.Job) : Z :=
  jobs.Sub now (jobs.CreatedAt j).

Definition terminal (j : jobs.Job) : bool :=
  bool_decide (jobs.Status j = jobs.JobStatusCompleted)
  || bool_decide (jobs.Status j = jobs.JobStatusFailed).

(** Eligible for deletion: Completed or Failed, and older than the
    minimum retention. *)
Definition eligible (now : jobs.Time) (j : jobs.Job) : bool :=
  terminal j && (jobs.MinJobRetention <? job_age now j).

Definition eligible_count (now : jobs.Time) (reg : gmap string jobs.Job) : nat :=
  length (List.filter (fun e : string * jobs.Job => eligible now e.2) (map_to_list reg)).

(** A slice of [jobAge] in which no element is older than one before
    it. *)
Definition oldest_first (l : list jobs.jobAge) : Prop :=
  forall a b x y, (a < b)%nat -> l !! a = Some x -> l !! b = Some y ->
    jobs.age y <= jobs.age x.

(** *** The sort of the eligible jobs, loop by loop *)

(** The inner loop at index [i], over the indices [js]. *)
Definition inner_loop (i : nat) (js : list nat) (l : list jobs.jobAge) : list jobs.jobAge :=
  foldl (fun l j => jobs.swap_if_older i j l) l js.

(** One round of the outer loop. *)
Definition outer_step (n : nat) (l : list jobs.jobAge) (i : nat) : list jobs.jobAge :=
  inner_loop i (seq (i + 1) (n - (i + 1))) l.

(** The first [i] elements are in place: each is at least as old as
    every element after it. *)
Definition placed (i : nat) (l : list jobs.jobAge) : Prop :=
  forall a x y, (a < i)%nat -> l !! a = Some x -> y ∈ drop (S a) l ->
    jobs.age y <= jobs.age x.

(** The entry of [eligible] that a registry entry gives. *)
Definition age_entry (now : jobs.Time) (e : string * jobs.Job) : jobs.jobAge :=
  {| jobs.id := e.1; jobs.age := job_age now e.2 |}.


(** *** The graph that [Build] makes *)

(** What [Build] copies from a container into its node; [AddParent]
    leaves it alone. *)
Definition node_data (nd : graph.Node)
    : string * gmap string string * bool * bool * Z * bool * option Z :=
  (graph.ID nd, graph.NodeLabels nd, graph.IsRunning nd, graph.IsPlaceholder nd,
   graph.StartupDelay nd, graph.WaitForHealthcheck nd, graph.StopTimeout nd).

(** The node that the first pass of [Build] makes for a container. *)
Definition node_of_container (U : string -> string) (inspect : string -> option Z)
    (c : docker.Summary) (nd : graph.Node) : Prop :=
  let labels := docker.ParseLabels U (docker.Labels c) in
  graph.ID nd = docker.SummaryID c
  /\ graph.NodeLabels nd = docker.Labels c
  /\ graph.IsRunning nd = String.eqb (docker.State c) "running"
  /\ graph.IsPlaceholder nd = false
  /\ graph.StartupDelay nd = docker.GetStartupDelay labels
  /\ graph.WaitForHealthcheck nd = docker.ShouldWaitForHealthcheck labels
  /\ graph.StopTimeout nd = inspect (docker.SummaryID c).

(** The container is one that the controller orchestrates. *)
Definition orchestrated (U : string -> string) (c : docker.Summary) : Prop :=
  docker.IsManaged (docker.ParseLabels U (docker.Labels c)) = true.

(** The names that the container lists as its dependencies. *)
Definition dependencies_of (U : string -> string) (c : docker.Summary) : list string :=
  docker.GetDependencies (docker.ParseLabels U (docker.Labels c)).

(** The parent and the child lists mirror each other. *)
Definition edges_mirrored (h : graph.Heap) : Prop :=
  forall n p, p ∈ graph.parents_of h n <-> n ∈ graph.children_of h p.


(** *** Orders *)

(** [p] comes before [x] in [l]. *)
Definition before (l : list string) (p x : string) : Prop :=
  exists i j, l !! i = Some p /\ l !! j = Some x /\ (i < j)%nat.

(** Every non-placeholder parent of a name of [added] that was not marked
    in [fl] comes before it in [added]. *)
Definition parents_first (h : graph.Heap) (fl : graph.Flags)
    (added : list string) : Prop :=
  forall x p, x ∈ added -> parent_edge h x p -> p ∉ graph.visited fl ->
    graph.is_placeholder h p = false -> before added p x.

(** What a walk of [visit] calls from [starts] that returns has done,
    in a graph without cycles: the frame, the closure and the order of
    what it appended. *)
Definition visit_sorted (h : graph.Heap) (starts : list string)
    (fl : graph.Flags) (sorted : list string) (r : graph.Flags * list string) : Prop :=
  visit_frame h fl sorted r
  /\ visit_closed h starts fl r.1
  /\ (forall added, r.2 = sorted ++ added -> parents_first h fl added).


(** No depth in the memo of [calculateDepth] is larger than needed: a
    node with a depth above 0 has a non-placeholder parent one level
    below. *)
Definition depths_tight (h : graph.Heap) (depths : gmap string Z) : Prop :=
  forall n d, depths !! n = Some d -> 0 < d ->
    exists p, parent_edge h n p /\ graph.is_placeholder h p = false
      /\ depths !! p = Some (d - 1).


(** *** Connected components *)

(** [b] is a parent or a child of [a], not a placeholder and not marked
    in [fl]. *)
Definition link (h : graph.Heap) (fl : graph.Flags) (a b : string) : Prop :=
  (parent_edge h a b \/ child_edge h a b)
  /\ graph.is_placeholder h b = false /\ b ∉ graph.visited fl.

(** Neither a placeholder nor marked. *)
Definition fresh (h : graph.Heap) (fl : graph.Flags) (n : string) : Prop :=
  graph.is_placeholder h n = false /\ n ∉ graph.visited fl.

(** The state of the loop of [findComponent] that started at [n] with
    the flags [fl]: what it collected is what it marked, each node once,
    all of them linked to [n], which comes first; what it collected and
    has not followed up is on the stack. *)
Definition component_inv (h : graph.Heap) (n : string) (fl : graph.Flags)
    (stack : list string) (flc : graph.Flags) (component : list string) : Prop :=
  NoDup component
  /\ graph.visited flc = graph.visited fl ∪ list_to_set component
  /\ graph.inStack flc = graph.inStack fl
  /\ (forall x, x ∈ component -> fresh h fl x /\ rtc (link h fl) n x)
  /\ (forall x, x ∈ stack -> rtc (link h fl) n x)
  /\ (forall x y, x ∈ component -> link h fl x y -> y ∈ component \/ y ∈ stack)
  /\ ((component = [] /\ (stack = [n] \/ (stack = [] /\ ~ fresh h fl n)))
      \/ head component = Some n).


(** *** The executor *)

(** All nodes of all batches of the components. *)
Definition nodes_of (components : list graph.ComponentBatches) : list string :=
  concat (concat (graph.Batches <$> components)).


(** The daemon gets a start call for [x]: the container is not running
    and the deadline does not pass during its startup delay. *)
Definition start_call (d : orchestrator.Daemon) (h : graph.Heap) (x : string) : Prop :=
  orchestrator.IsContainerRunning d x = Ok false
  /\ (0 <? orchestrator.node_StartupDelay h x)
     && orchestrator.ctxDoneDuringDelay d x = false.

(** The stop timeout that the daemon is given for [x]. *)
Definition stop_timeout (h : graph.Heap) (x : string) : Z :=
  default 10 (orchestrator.node_StopTimeout h x).

End spec.

(** What the Unicode case tables guarantee about [strings.ToLower]: a
    string with a byte outside ASCII lowers neither to [true] nor to
    [false] (the only runes outside ASCII that lower into ASCII are the
    Kelvin sign and the dotted capital I). *)
Definition unicode_lower_ok (MapUnicodeToLower : string -> string) : Prop :=
  forall s, GoString.is_ascii s = false ->
    MapUnicodeToLower s <> "true"%string /\ MapUnicodeToLower s <> "false"%string.

(** ** Concrete inputs *)

Module examples.
Import docker graph orchestrator jobs api.

(** The two bytes of U+00A0 (no-break space) in UTF-8. *)
Definition nbsp : string :=
  String (ascii_of_nat 194) (String (ascii_of_nat 160) EmptyString).

(** The ASCII-only path of [strings.ToLower] suffices for the examples. *)
Definition no_unicode : string -> string := fun s => s.

Definition labels_nbsp : gmap string string :=
  {[ LabelManaged := "true"%string; LabelDependsOn := nbsp ]}.

(** An idle manager and a server in front of it. *)
Definition manager0 : Manager :=
  {| jobs := ∅; jobQueue := []; shuttingDown := false |}.
Definition server0 : Server :=
  {| jobManager := manager0; isBlocked := false;
     unblockCancel := None; timersStarted := 0 |}.
Definition server_blocked : Server := (HandleBlock "1" server0).2.
Definition env0 : Env :=
  {| uuid := "6f1c2a9e-0000-4000-8000-000000000001";
     now := 1000 * Second; cancelledWhileWaiting := false |}.

(** [POST /start?timeout=30&ignore=nginx] *)
Definition start_with_ignore : Request :=
  {| method := "POST"; path := ["start"%string];
     query := {[ "timeout"%string := ["30"%string];
                 "ignore"%string := ["nginx"%string] ]} |}.
(** [POST /stop?ignore=traefik,%20nginx&ignore=&ignore=redis] *)
Definition stop_with_ignore : Request :=
  {| method := "POST"; path := ["stop"%string];
     query := {[ "ignore"%string :=
                   ["traefik, nginx"%string; EmptyString; "redis"%string] ]} |}.

(** The order that walks the keys named in [first], in that order, before
    the other keys. *)
Definition prefer (first : list string) : RangeOrder :=
  fun _ keys =>
    List.filter (fun k => bool_decide (k ∈ keys)) first
    ++ List.filter (fun k => negb (bool_decide (k ∈ first))) (elements keys).

Definition container (name : string) (labels : list (string * string)) : Summary :=
  {| SummaryID := ("id-" ++ name)%string;
     Names := [("/" ++ name)%string];
     Labels := list_to_map labels;
     State := "exited" |}.

(** A daemon that lists [containers], reports every container as
    stopped, and fails to start or stop the containers whose ID is in
    [broken]. *)
Definition daemon (containers : list Summary) (broken : list string) : Daemon :=
  {| ListManagedContainers := Ok containers;
     InspectStopTimeout := fun _ => None;
     IsContainerRunning := fun _ => Ok false;
     StartContainer := fun cid =>
       if bool_decide (cid ∈ broken) then Err (ErrDaemon "no such image") else Ok tt;
     StopContainer := fun cid _ =>
       if bool_decide (cid ∈ broken) then Err (ErrDaemon "cannot stop") else Ok tt;
     ctxDoneDuringDelay := fun _ => false |}.

(** The same daemon with every container running. *)
Definition daemon_running (containers : list Summary) : Daemon :=
  {| ListManagedContainers := Ok containers;
     InspectStopTimeout := fun _ => None;
     IsContainerRunning := fun _ => Ok true;
     StartContainer := fun _ => Ok tt;
     StopContainer := fun _ _ => Ok tt;
     ctxDoneDuringDelay := fun _ => false |}.

(** One managed container. *)
Definition one_container : list Summary :=
  [ container "app" [(LabelManaged, "true"%string)] ].

(** [app] needs [db]; [db] is listed but opted out of the controller and
    names [base] as its dependency; [web] needs [base]. *)
Definition opted_out_middle : list Summary :=
  [ container "app" [(LabelManaged, "true"%string); (LabelDependsOn, "db"%string)];
    container "db" [(LabelManaged, "true"%string); (LabelController, "false"%string);
                    (LabelDependsOn, "base"%string)];
    container "base" [(LabelManaged, "true"%string)];
    container "web" [(LabelManaged, "true"%string); (LabelDependsOn, "base"%string)] ].

(** [x] and [a] need [b]; [b] is listed but opted out of the controller
    and names [a] as its dependency: [a] and [b] depend on each other. *)
Definition opted_out_cycle : list Summary :=
  [ container "x" [(LabelManaged, "true"%string); (LabelDependsOn, "b"%string)];
    container "a" [(LabelManaged, "true"%string); (LabelDependsOn, "b"%string)];
    container "b" [(LabelManaged, "true"%string); (LabelController, "false"%string);
                   (LabelDependsOn, "a"%string)] ].

(** A chain: [b] needs [a], [c] needs [b]. *)
Definition chain : list Summary :=
  [ container "a" [(LabelManaged, "true"%string)];
    container "b" [(LabelManaged, "true"%string); (LabelDependsOn, "a"%string)];
    container "c" [(LabelManaged, "true"%string); (LabelDependsOn, "b"%string)] ].

Definition build (containers : list Summary) : Graph :=
  Build no_unicode (fun _ => None) containers.

(** The order that walks the keys as [elements] lists them. *)
Definition in_key_order : RangeOrder := fun _ keys => elements keys.

(** A rank for every name, 0 for the names not listed. *)
Definition rank_of (ranks : list (string * nat)) (n : string) : nat :=
  default 0%nat ((list_to_map ranks : gmap string nat) !! n).

(** Every parent of a node has a smaller rank, every child a larger one. *)
Definition ranked (rank : string -> nat) (h : Heap) : Prop :=
  map_Forall (fun n nd =>
                Forall (fun p => (rank p < rank n)%nat) (Parents nd)
                /\ Forall (fun c => (rank n < rank c)%nat) (Children nd)) h.

(** A graph of one placeholder that nothing refers to. *)
Definition lone_placeholder : Graph :=
  {| heap := {[ "ghost"%string := NewPlaceholderNode ]};
     Nodes := {[ "ghost"%string ]} |}.

(** A job as [NewJob] makes it. *)
Definition job0 (jobType : string) : Job :=
  NewJob (uuid env0) (now env0) jobType 600 [].

(** A start job with ID [i], created at [created], that a worker has
    picked up. *)
Definition running_job (created : Time) (i : nat) : Job :=
  SetStatus (created + Second) JobStatusRunning
            (NewJob (pretty i) created JobTypeStart 600 []).

(** A registry of [n] running jobs, and the manager that holds 1001. *)
Definition running_jobs (n : nat) : gmap string Job :=
  list_to_map ((fun i => (pretty i, running_job (1000 * Second) i)) <$> seq 0 n).
Definition busy_manager : Manager :=
  {| jobs := running_jobs 1001; jobQueue := []; shuttingDown := false |}.

(** The registry walked in the order of [map_to_list]. *)
Definition in_map_order : JobOrder := fun reg => map_to_list reg.

(** Two finished jobs, one two hours old and one a minute old, and a
    running job two hours old, seen at [3 * Hour]. *)
Definition small_registry : gmap string Job :=
  {[ "old"%string :=
       SetStatus (1 * Hour + Minute) JobStatusCompleted (running_job (1 * Hour) 1);
     "new"%string :=
       SetStatus (3 * Hour - Second) JobStatusFailed (running_job (3 * Hour - Minute) 2);
     "busy"%string := running_job (1 * Hour) 3 ]}.
Definition small_manager : Manager :=
  {| jobs := small_registry; jobQueue := []; shuttingDown := false |}.
End examples.

(** * Properties *)

(** ** Slices written through an index *)

Section index_writes.
Context {A : Type}.
Implicit Types l out : list A.

Lemma reverse_writes_aux (n : nat) l : forall (p : nat) out,
  length out = n -> n = (p + length l)%nat ->
  foldl (fun out (ix : nat * A) => <[(n - 1 - ix.1)%nat := ix.2]> out) out
        (imap (fun i x => ((p + i)%nat, x)) l)
  = rev l ++ drop (length l) out.
Proof.
  induction l as [|x l IH]; intros p out Hlen Hn; simpl.
  - by rewrite drop_0.
  - rewrite (imap_ext _ (fun i y => ((S p + i)%nat, y))); last first.
    { intros i y _. simpl. f_equal. lia. }
    rewrite IH; [| by rewrite length_insert | simpl in Hn; lia].
    simpl in Hn. rewrite <- app_assoc. f_equal. simpl.
    replace (n - 1 - (p + 0))%nat with (length l) by lia.
    rewrite drop_insert_ge by lia.
    rewrite Nat.sub_diag.
    destruct (drop (length l) out) as [|y rest] eqn:Hd.
    + apply (f_equal length) in Hd. rewrite length_drop in Hd. simpl in Hd. lia.
    + simpl. f_equal.
      replace (S (length l)) with (length l + 1)%nat by lia.
      by rewrite <- drop_drop, Hd.
Qed.

(** Writing every element at the mirrored index reverses the slice. *)
Lemma reverse_by_index_rev (zero : A) l : reverse_by_index zero l = rev l.
Proof.
  unfold reverse_by_index.
  rewrite (imap_ext _ (fun i x => ((0 + i)%nat, x))) by done.
  rewrite (reverse_writes_aux (length l) l 0 (replicate (length l) zero)).
  - rewrite drop_ge by (rewrite length_replicate; lia). by rewrite app_nil_r.
  - by rewrite length_replicate.
  - lia.
Qed.
End index_writes.

(** ** Strings *)

Section strings.
Import GoString.

Lemma of_bytes_bytes s : of_bytes (bytes s) = s.
Proof. apply string_of_list_ascii_of_string. Qed.

Lemma bytes_of_bytes l : bytes (of_bytes l) = l.
Proof. apply list_ascii_of_string_of_list_ascii. Qed.

Lemma forallb_rev {A} (p : A -> bool) l : forallb p (rev l) = forallb p l.
Proof.
  induction l as [|x l IH]; simpl; [done|].
  rewrite forallb_app, IH. simpl. rewrite andb_true_r. apply andb_comm.
Qed.

Lemma forallb_drop_while {A} (p q : A -> bool) l :
  forallb p l = true -> forallb p (spec.drop_while q l) = true.
Proof.
  induction l as [|x l IH]; simpl; [done|].
  intros [Hx Hl]%andb_prop. destruct (q x); [by apply IH|].
  simpl. by rewrite Hx, Hl.
Qed.

(** On ASCII bytes the second loop of [TrimSpace] drops the trailing
    ASCII white space. *)
Lemma TrimSpace_stop_ascii r :
  forallb is_ascii_byte r = true ->
  TrimSpace_stop r = rev (spec.drop_while asciiSpace r).
Proof.
  induction r as [|c r IH]; simpl; [done|].
  intros [Hc Hr]%andb_prop. rewrite Hc. simpl.
  destruct (asciiSpace c); [by apply IH | done].
Qed.

(** On ASCII bytes [TrimSpace] never reaches its Unicode paths. *)
Lemma TrimSpace_start_ascii l :
  forallb is_ascii_byte l = true ->
  TrimSpace_start l
  = rev (spec.drop_while asciiSpace (rev (spec.drop_while asciiSpace l))).
Proof.
  induction l as [|c l IH]; [done|].
  intros Hall. pose proof Hall as [Hc Hl]%andb_prop.
  cbn [TrimSpace_start spec.drop_while]. rewrite Hc. cbn [negb].
  destruct (asciiSpace c); [by apply IH|].
  apply TrimSpace_stop_ascii. by rewrite forallb_rev.
Qed.

Lemma TrimSpace_ascii s :
  is_ascii s = true -> TrimSpace s = spec.ascii_trim s.
Proof.
  intros H. unfold TrimSpace, spec.ascii_trim. f_equal.
  by apply TrimSpace_start_ascii.
Qed.

(** The pieces of an ASCII string are ASCII strings. *)
Lemma Split_go_ascii sep s : forall cur,
  forallb is_ascii_byte cur = true -> forallb is_ascii_byte s = true ->
  Forall (fun piece => is_ascii piece = true) (Split_go sep cur s).
Proof.
  induction s as [|c s IH]; intros cur Hcur Hs; simpl.
  - constructor; [|constructor].
    unfold is_ascii. by rewrite bytes_of_bytes, forallb_rev.
  - apply andb_prop in Hs as [Hc Hs]. destruct (Ascii.eqb c sep).
    + constructor.
      * unfold is_ascii. by rewrite bytes_of_bytes, forallb_rev.
      * by apply IH.
    + apply IH; [|done]. simpl. by rewrite Hc, Hcur.
Qed.

Lemma Split_ascii s sep :
  is_ascii s = true -> Forall (fun piece => is_ascii piece = true) (Split s sep).
Proof. intros H. by apply Split_go_ascii. Qed.

(** A byte that lowers to an ASCII byte is an ASCII byte. *)
Lemma lower_byte_ascii c : is_ascii_byte (lower_byte c) = is_ascii_byte c.
Proof. destruct c as [[] [] [] [] [] [] [] []]; reflexivity. Qed.

Lemma lower_bytes_ascii l :
  forallb is_ascii_byte (map lower_byte l) = forallb is_ascii_byte l.
Proof.
  induction l as [|c l IH]; simpl; [done|]. by rewrite lower_byte_ascii, IH.
Qed.


Lemma lower_is_fold_eq U v word :
  unicode_lower_ok U -> word = "true"%string \/ word = "false"%string ->
  docker.lower_is U v word = spec.fold_eq v word.
Proof.
  intros HU Hword. unfold docker.lower_is, ToLower, spec.fold_eq.
  destruct (is_ascii v) eqn:Hv; [done|].
  destruct (HU v Hv) as [Ht Hf].
  assert (U v <> word) as Hne by (by destruct Hword as [-> | ->]).
  apply String.eqb_neq in Hne. rewrite Hne. symmetry.
  apply String.eqb_neq. intros Heq.
  assert (is_ascii (of_bytes (map lower_byte (bytes v))) = true) as Hasc.
  { rewrite Heq. by destruct Hword as [-> | ->]. }
  unfold is_ascii in Hasc, Hv. rewrite bytes_of_bytes, lower_bytes_ascii in Hasc.
  congruence.
Qed.

(** The appending loop keeps exactly the non-empty trimmed pieces. *)
Lemma trimmed_pieces_foldl (pieces : list string) : forall acc,
  foldl (fun acc piece =>
           let trimmed := TrimSpace piece in
           if String.eqb trimmed EmptyString then acc else acc ++ [trimmed])
        acc pieces
  = acc ++ List.filter spec.non_empty (TrimSpace <$> pieces).
Proof.
  induction pieces as [|p pieces IH]; intros acc; simpl.
  - by rewrite app_nil_r.
  - rewrite IH. unfold spec.non_empty at 2.
    destruct (String.eqb (TrimSpace p) EmptyString); simpl; [done|].
    by rewrite <- app_assoc.
Qed.

Lemma trimmed_pieces_spec acc value :
  docker.trimmed_pieces acc value = acc ++ spec.elements_of TrimSpace value.
Proof. apply trimmed_pieces_foldl. Qed.

Lemma elements_of_ascii value :
  is_ascii value = true ->
  spec.elements_of TrimSpace value = spec.elements_of spec.ascii_trim value.
Proof.
  intros H. unfold spec.elements_of. f_equal.
  apply Forall_fmap_ext_1. eapply Forall_impl; [by apply Split_ascii|].
  intros piece Hp. by apply TrimSpace_ascii.
Qed.
End strings.

(** ** Label parsing *)

Section labels.
Import GoString docker.

Lemma delay_of_parse value :
  match Atoi value with
  | Some delayInt => if 0 <? delayInt then delayInt else 0
  | None => 0
  end = spec.delay_of value.
Proof.
  unfold spec.delay_of. destruct (Atoi value) as [n|]; [|done].
  destruct (Z.ltb_spec 0 n); lia.
Qed.

Lemma dependencies_parse value :
  (if String.eqb value EmptyString then [] else trimmed_pieces [] value)
  = spec.elements_of TrimSpace value.
Proof.
  destruct (String.eqb_spec value EmptyString) as [-> | _]; [done|].
  apply trimmed_pieces_spec.
Qed.

Lemma delay_of_nonneg value : 0 <= spec.delay_of value.
Proof. unfold spec.delay_of. destruct (Atoi value); lia. Qed.
End labels.

(** C8 (as amended). For every string-to-string label map, [ParseLabels]
    returns (it is a total function) the record in which: a missing managed
    key yields false and a missing controller key yields true, and a
    controller value equal to "false" up to the case of its letters opts
    out; the dependencies value is split on commas, every element is
    trimmed of its leading and trailing white space as Unicode defines it
    ([strings.TrimSpace]; for a value of ASCII bytes that is exactly the
    ASCII white space) and the empty elements are dropped; the delay is a
    base-10 integer, invalid or negative strings yielding 0; the boolean
    values are compared up to the case of their letters. *)
Theorem ParseLabels_spec (U : string -> string) (labels : gmap string string) :
  unicode_lower_ok U ->
  let parsed := docker.ParseLabels U labels in
  parsed = spec.labels_with GoString.TrimSpace labels
  /\ (forall v, labels !! docker.LabelDependsOn = Some v ->
        GoString.is_ascii v = true ->
        docker.DependsOn parsed = spec.elements_of spec.ascii_trim v)
  /\ (labels !! docker.LabelManaged = None -> docker.Managed parsed = false)
  /\ (labels !! docker.LabelController = None -> docker.ControllerEnabled parsed = true)
  /\ 0 <= docker.DependsOnDelay parsed.
Proof.
  intros HU parsed.
  assert (parsed = spec.labels_with GoString.TrimSpace labels) as Heq.
  { unfold parsed, docker.ParseLabels, spec.labels_with. f_equal.
    - destruct (labels !! docker.LabelManaged); [|done].
      apply lower_is_fold_eq; auto.
    - destruct (labels !! docker.LabelDependsOn); [|done].
      apply dependencies_parse.
    - destruct (labels !! docker.LabelDelay); [|done].
      apply delay_of_parse.
    - destruct (labels !! docker.LabelHealthchecks); [|done].
      apply lower_is_fold_eq; auto.
    - destruct (labels !! docker.LabelController); [|done].
      f_equal. apply lower_is_fold_eq; auto. }
  split; [exact Heq|]. rewrite Heq. unfold spec.labels_with; simpl.
  repeat split.
  - intros v -> Hv. by apply elements_of_ascii.
  - by intros ->.
  - by intros ->.
  - destruct (labels !! docker.LabelDelay); [apply delay_of_nonneg | lia].
Qed.

Lemma no_unicode_lower_ok : unicode_lower_ok examples.no_unicode.
Proof.
  intros s Hs. unfold examples.no_unicode.
  split; intros ->; vm_compute in Hs; discriminate.
Qed.

(** The amended C8 at a map with a mixed-case flag and padded
    dependencies. *)
Lemma ParseLabels_spec_witness :
  let labels : gmap string string :=
    {[ docker.LabelManaged := "TRUE"%string;
       docker.LabelDependsOn := " traefik , redis ,, "%string;
       docker.LabelDelay := "-3"%string ]} in
  let parsed := docker.ParseLabels examples.no_unicode labels in
  parsed = spec.labels_with GoString.TrimSpace labels
  /\ (forall v, labels !! docker.LabelDependsOn = Some v ->
        GoString.is_ascii v = true ->
        docker.DependsOn parsed = spec.elements_of spec.ascii_trim v)
  /\ (labels !! docker.LabelManaged = None -> docker.Managed parsed = false)
  /\ (labels !! docker.LabelController = None -> docker.ControllerEnabled parsed = true)
  /\ 0 <= docker.DependsOnDelay parsed.
Proof.
  exact (ParseLabels_spec examples.no_unicode _ no_unicode_lower_ok).
Defined.

(** C8 as stated fails: a dependencies value that is a no-break space
    (U+00A0) is white space for [strings.TrimSpace] and is dropped, while
    trimming ASCII white space only would keep it as a dependency. *)
Lemma ParseLabels_trims_unicode_space :
  docker.DependsOn (docker.ParseLabels examples.no_unicode examples.labels_nbsp) = []
  /\ docker.DependsOn (spec.labels_with spec.ascii_trim examples.labels_nbsp)
     = [examples.nbsp].
Proof. split; vm_compute; reflexivity. Qed.

(** ** HTTP control plane *)

Section handlers.
Import GoString jobs api.

Lemma parse_timeout_spec q dflt : parse_timeout q dflt = spec.timeout_of q dflt.
Proof.
  unfold parse_timeout, spec.timeout_of, query_Get.
  destruct (q !! "timeout"%string) as [[|v vs]|]; try done.
  destruct (String.eqb_spec v EmptyString) as [-> | _]; [done|].
  by destruct (Atoi v).
Qed.

Lemma foldl_trimmed_pieces (values : list string) : forall acc,
  foldl docker.trimmed_pieces acc values
  = acc ++ concat (spec.elements_of TrimSpace <$> values).
Proof.
  induction values as [|v values IH]; intros acc; simpl.
  - by rewrite app_nil_r.
  - by rewrite IH, trimmed_pieces_spec, <- app_assoc.
Qed.

Lemma parse_ignore_spec q : parse_ignore q = spec.ignore_with TrimSpace q.
Proof.
  unfold parse_ignore, spec.ignore_with.
  destruct (q !! "ignore"%string) as [values|]; [|done].
  apply foldl_trimmed_pieces.
Qed.

Lemma submit_job_registers env job s :
  shuttingDown (jobManager s) = false ->
  jobs.jobs (jobManager (submit_job env job s).2) !! JobID job = Some job.
Proof.
  intros Hrun. unfold submit_job, Submit. rewrite Hrun.
  destruct (_ || _); simpl; apply lookup_insert_eq.
Qed.
End handlers.

(** C4 (as amended). When the request is not blocked, the POST /stop
    handler submits a stop job whose ignore list is the [ignore] query
    parameter parsed (repeated parameters, each possibly comma-separated,
    white space trimmed, empty entries dropped) and whose timeout is the
    [timeout] parameter, 300 by default; the POST /start handler submits a
    start job whose timeout is the [timeout] parameter, 600 by default, and
    whose ignore list is empty: it does not read the [ignore] parameter. *)
Theorem start_stop_handlers_parse (env : api.Env) (r : api.Request) (s : api.Server) :
  api.isBlocked s = false ->
  let stopJob :=
    jobs.NewJob (api.uuid env) (api.now env) jobs.JobTypeStop
                (spec.timeout_of (api.query r) 300)
                (spec.ignore_with GoString.TrimSpace (api.query r)) in
  let startJob :=
    jobs.NewJob (api.uuid env) (api.now env) jobs.JobTypeStart
                (spec.timeout_of (api.query r) 600) [] in
  api.HandleStopContainers env r s = api.submit_job env stopJob s
  /\ api.HandleStartContainers env r s = api.submit_job env startJob s
  /\ (jobs.shuttingDown (api.jobManager s) = false ->
      jobs.jobs (api.jobManager (api.HandleStopContainers env r s).2) !! api.uuid env
        = Some stopJob
      /\ jobs.jobs (api.jobManager (api.HandleStartContainers env r s).2) !! api.uuid env
        = Some startJob).
Proof.
  intros Hfree stopJob startJob.
  assert (api.HandleStopContainers env r s = api.submit_job env stopJob s) as Hstop.
  { unfold api.HandleStopContainers. rewrite Hfree.
    by rewrite parse_timeout_spec, parse_ignore_spec. }
  assert (api.HandleStartContainers env r s = api.submit_job env startJob s) as Hstart.
  { unfold api.HandleStartContainers. rewrite Hfree.
    by rewrite parse_timeout_spec. }
  repeat split; [done | done | |]; intros; [rewrite Hstop | rewrite Hstart].
  - by apply (submit_job_registers env stopJob s).
  - by apply (submit_job_registers env startJob s).
Qed.

(** The amended C4 at a stop request with repeated, comma-separated and
    empty ignore parameters. *)
Lemma start_stop_handlers_parse_witness :
  jobs.Ignore <$>
    (jobs.jobs (api.jobManager
        (api.HandleStopContainers examples.env0 examples.stop_with_ignore
                                  examples.server0).2)
       !! api.uuid examples.env0)
  = Some ["traefik"%string; "nginx"%string; "redis"%string].
Proof.
  pose proof (start_stop_handlers_parse examples.env0 examples.stop_with_ignore
                examples.server0 eq_refl) as (_ & _ & Hreg).
  destruct (Hreg eq_refl) as [Hstop _]. rewrite Hstop. reflexivity.
Defined.

(** C4 as stated fails for POST /start: the handler never reads [ignore];
    the job it submits for [?timeout=30&ignore=nginx] has an empty ignore
    list where the parsed parameter is [nginx]. *)
Lemma start_handler_drops_ignore :
  jobs.Ignore <$>
    (jobs.jobs (api.jobManager
        (api.HandleStartContainers examples.env0 examples.start_with_ignore
                                   examples.server0).2)
       !! api.uuid examples.env0)
  = Some []
  /\ spec.ignore_with GoString.TrimSpace (api.query examples.start_with_ignore)
     = ["nginx"%string].
Proof. split; vm_compute; reflexivity. Qed.

(** C6. In every state in which the blocked flag is set, POST /start and
    POST /stop answer 503 with the body [{error: Operation blocked}] and
    leave the server, hence the job registry and the queue, unchanged;
    GET /job_status answers 200 or 404 as the registry tells, POST /block
    and POST /unblock answer 200 and set and clear the flag, and GET /ping
    answers 200. *)
Theorem blocked_gates_start_stop (env : api.Env) (s : api.Server)
    (q : gmap string (list string)) (job_id duration : string) :
  api.isBlocked s = true ->
  let blocked :=
    {| api.status := 503; api.body := [("error"%string, "Operation blocked"%string)] |} in
  api.Router env (api.mkRequest "POST" ["start"%string] q) s = (blocked, s)
  /\ api.Router env (api.mkRequest "POST" ["stop"%string] q) s = (blocked, s)
  /\ api.Router env (api.mkRequest "GET" ["job_status"%string; job_id] q) s
     = (match jobs.jobs (api.jobManager s) !! job_id with
        | Some job =>
            {| api.status := 200;
               api.body := [("status"%string, jobs.status_string (jobs.Status job))] |}
        | None =>
            {| api.status := 404; api.body := [("status"%string, "not_found"%string)] |}
        end, s)
  /\ (let '(resp, s') := api.Router env (api.mkRequest "POST" ["block"%string; duration] q) s in
      api.status resp = 200 /\ api.isBlocked s' = true
      /\ api.jobManager s' = api.jobManager s)
  /\ (let '(resp, s') := api.Router env (api.mkRequest "POST" ["unblock"%string] q) s in
      api.status resp = 200 /\ api.isBlocked s' = false
      /\ api.jobManager s' = api.jobManager s)
  /\ api.Router env (api.mkRequest "GET" ["ping"%string] q) s
     = ({| api.status := 200; api.body := [("status"%string, "healthy"%string)] |}, s).
Proof.
  intros Hblocked blocked. unfold api.Router. simpl.
  unfold api.HandleStartContainers, api.HandleStopContainers. rewrite Hblocked.
  repeat split.
  unfold api.HandleGetJobStatus, jobs.Get.
  by destruct (jobs.jobs (api.jobManager s) !! job_id).
Qed.

(** C6 at the server blocked for one minute. *)
Lemma blocked_gates_start_stop_witness :
  api.Router examples.env0 examples.start_with_ignore examples.server_blocked
  = ({| api.status := 503;
        api.body := [("error"%string, "Operation blocked"%string)] |},
     examples.server_blocked).
Proof.
  exact (proj1 (blocked_gates_start_stop examples.env0 examples.server_blocked
                  (api.query examples.start_with_ignore) "none" "5" eq_refl)).
Defined.

(** ** Jobs *)

(** C5. A job whose executor call (StartContainers or StopContainers)
    returns without a top-level error ends Completed, with the per-node
    failures, empty or not, stored in its failed list; a job whose executor
    call returns a top-level error ends Failed with that error's text; and
    a processed start or stop job is Failed only in the second case. *)
Theorem job_status_follows_executor (U : string -> string) (order : graph.RangeOrder)
    (d : orchestrator.Daemon) (now : jobs.Time) (job : jobs.Job) :
  let startOpts :=
    {| orchestrator.StartTimeout := jobs.Timeout job;
       orchestrator.StartIgnore := jobs.Ignore job |} in
  let stopOpts :=
    {| orchestrator.StopTimeoutOpt := jobs.Timeout job;
       orchestrator.StopIgnore := jobs.Ignore job |} in
  (forall res trace,
      orchestrator.StartContainers U order d startOpts = Some (Ok res, trace) ->
      exists job', jobs.processStartJob U order d now job = Some job'
        /\ jobs.Status job' = jobs.JobStatusCompleted
        /\ jobs.JobFailed job' = orchestrator.StartFailed res
        /\ jobs.JobStarted job' = orchestrator.Started res)
  /\ (forall res trace,
      orchestrator.StopContainers U order d stopOpts = Some (Ok res, trace) ->
      exists job', jobs.processStopJob U order d now job = Some job'
        /\ jobs.Status job' = jobs.JobStatusCompleted
        /\ jobs.JobFailed job' = orchestrator.StopFailed res
        /\ jobs.JobStopped job' = orchestrator.Stopped res)
  /\ (forall err trace,
      orchestrator.StartContainers U order d startOpts = Some (Err err, trace) ->
      exists job', jobs.processStartJob U order d now job = Some job'
        /\ jobs.Status job' = jobs.JobStatusFailed
        /\ jobs.Error job' = error_string err)
  /\ (forall err trace,
      orchestrator.StopContainers U order d stopOpts = Some (Err err, trace) ->
      exists job', jobs.processStopJob U order d now job = Some job'
        /\ jobs.Status job' = jobs.JobStatusFailed
        /\ jobs.Error job' = error_string err)
  /\ (forall job', jobs.processStartJob U order d now job = Some job' ->
      (jobs.Status job' = jobs.JobStatusFailed <->
       exists err trace,
         orchestrator.StartContainers U order d startOpts = Some (Err err, trace)))
  /\ (forall job', jobs.processStopJob U order d now job = Some job' ->
      (jobs.Status job' = jobs.JobStatusFailed <->
       exists err trace,
         orchestrator.StopContainers U order d stopOpts = Some (Err err, trace))).
Proof.
  intros startOpts stopOpts.
  unfold jobs.processStartJob, jobs.processStopJob.
  fold startOpts. fold stopOpts.
  refine (conj _ (conj _ (conj _ (conj _ (conj _ _))))).
  - intros res trace ->. eexists; repeat split.
  - intros res trace ->. eexists; repeat split.
  - intros err trace ->. eexists; repeat split.
  - intros err trace ->. eexists; repeat split.
  - intros job'.
    destruct (orchestrator.StartContainers U order d startOpts)
      as [[[err|res] trace]|]; intros Hjob; [| | done]; injection Hjob as <-.
    + split; [eauto | done].
    + split; [discriminate | intros (err & trace' & [=])].
  - intros job'.
    destruct (orchestrator.StopContainers U order d stopOpts)
      as [[[err|res] trace]|]; intros Hjob; [| | done]; injection Hjob as <-.
    + split; [eauto | done].
    + split; [discriminate | intros (err & trace' & [=])].
Qed.

(** C5 at a start job whose only container fails to start: the job is
    Completed and lists the container as failed. *)
Lemma job_status_follows_executor_witness :
  exists job',
    jobs.processStartJob examples.no_unicode (examples.prefer [])
      (examples.daemon examples.one_container ["id-app"%string])
      (2000 * jobs.Second) (examples.job0 jobs.JobTypeStart) = Some job'
    /\ jobs.Status job' = jobs.JobStatusCompleted
    /\ jobs.JobFailed job' = ["app"%string].
Proof.
  destruct (proj1 (job_status_follows_executor examples.no_unicode (examples.prefer [])
                     (examples.daemon examples.one_container ["id-app"%string])
                     (2000 * jobs.Second) (examples.job0 jobs.JobTypeStart))
              {| orchestrator.Started := []; orchestrator.StartSkipped := [];
                 orchestrator.StartFailed := ["app"%string] |}
              [orchestrator.ActStart "id-app"])
    as (job' & Hjob & Hstatus & Hfailed & _).
  - vm_compute. reflexivity.
  - exists job'. repeat split; assumption.
Defined.

(** ** Retention: the sort of the eligible jobs *)

Section sort_by_age.
Import jobs.
Implicit Types l : list jobAge.

Lemma swap_if_older_length i j l : length (swap_if_older i j l) = length l.
Proof.
  unfold swap_if_older, swap.
  destruct (l !! i) as [ei|] eqn:Hi; [|done].
  destruct (l !! j) as [ej|] eqn:Hj; [|done].
  destruct (age ei <? age ej); [|done]. by rewrite !length_insert.
Qed.

Lemma swap_if_older_perm i j l : swap_if_older i j l ≡ₚ l.
Proof.
  unfold swap_if_older, swap.
  destruct (l !! i) as [ei|] eqn:Hi; [|done].
  destruct (l !! j) as [ej|] eqn:Hj; [|done].
  destruct (age ei <? age ej); [|done].
  by apply Permutation_insert_swap.
Qed.

Lemma swap_if_older_other i j l k :
  k <> i -> k <> j -> swap_if_older i j l !! k = l !! k.
Proof.
  intros Hi Hj. unfold swap_if_older, swap.
  destruct (l !! i) as [ei|]; [|done].
  destruct (l !! j) as [ej|]; [|done].
  destruct (age ei <? age ej); [|done].
  by rewrite !list_lookup_insert_ne.
Qed.

(** After the comparison the older of the two is at [i]. *)
Lemma swap_if_older_pair i j l ei ej :
  i <> j -> l !! i = Some ei -> l !! j = Some ej ->
  exists ei' ej',
    swap_if_older i j l !! i = Some ei' /\ swap_if_older i j l !! j = Some ej'
    /\ age ei <= age ei' /\ age ej' <= age ei'.
Proof.
  intros Hne Hi Hj. unfold swap_if_older, swap. rewrite Hi, Hj.
  destruct (Z.ltb_spec (age ei) (age ej)).
  - exists ej, ei. rewrite list_lookup_insert_eq
      by (rewrite length_insert; eauto using lookup_lt_Some).
    rewrite list_lookup_insert_ne, list_lookup_insert_eq
      by eauto using lookup_lt_Some. repeat split; lia.
  - exists ei, ej. repeat split; [done | done | lia | lia].
Qed.


Lemma inner_loop_length i js : forall l, length (spec.inner_loop i js l) = length l.
Proof.
  induction js as [|j js IH]; intros l; simpl; [done|].
  by rewrite IH, swap_if_older_length.
Qed.

Lemma inner_loop_perm i js : forall l, spec.inner_loop i js l ≡ₚ l.
Proof.
  induction js as [|j js IH]; intros l; simpl; [done|].
  by rewrite IH, swap_if_older_perm.
Qed.

Lemma inner_loop_other i js k : forall l,
  k <> i -> k ∉ js -> spec.inner_loop i js l !! k = l !! k.
Proof.
  induction js as [|j js IH]; intros l Hi Hjs; simpl; [done|].
  apply not_elem_of_cons in Hjs as [Hj Hjs].
  rewrite IH by done. by apply swap_if_older_other.
Qed.

(** The element at [i] only gets older. *)
Lemma inner_loop_head i js : forall l ei,
  Forall (fun j => i <> j) js -> l !! i = Some ei ->
  exists ei', spec.inner_loop i js l !! i = Some ei' /\ age ei <= age ei'.
Proof.
  induction js as [|j js IH]; intros l ei Hjs Hi; simpl.
  - exists ei. split; [done | lia].
  - apply Forall_cons in Hjs as [Hj Hjs].
    destruct (l !! j) as [ej|] eqn:Hlj.
    + destruct (swap_if_older_pair i j l ei ej Hj Hi Hlj)
        as (ei1 & ej1 & Hi1 & _ & Hle & _).
      destruct (IH _ ei1 Hjs Hi1) as (ei' & Hi' & Hle').
      exists ei'. split; [done | lia].
    + assert (swap_if_older i j l = l) as ->.
      { unfold swap_if_older. by rewrite Hi, Hlj. }
      by apply IH.
Qed.

(** After the inner loop the element at [i] is at least as old as the
    element at every index the loop compared it with. *)
Lemma inner_loop_oldest i js : forall l j ei' ej',
  Forall (fun j => i <> j) js -> NoDup js -> j ∈ js ->
  spec.inner_loop i js l !! i = Some ei' -> spec.inner_loop i js l !! j = Some ej' ->
  age ej' <= age ei'.
Proof.
  induction js as [|j0 js IH]; intros l j ei' ej' Hjs Hnd Hin Hi' Hj'.
  { by apply elem_of_nil in Hin. }
  simpl in Hi', Hj'.
  apply Forall_cons in Hjs as [Hj0 Hjs]. apply NoDup_cons in Hnd as [Hfresh Hnd].
  apply elem_of_cons in Hin as [-> | Hin]; [|by eapply IH].
  rewrite inner_loop_other in Hj' by (done || congruence).
  assert (is_Some (l !! i)) as [ei Hi].
  { apply lookup_lt_is_Some. rewrite <- (swap_if_older_length i j0),
      <- (inner_loop_length i js). eauto using lookup_lt_Some. }
  assert (is_Some (l !! j0)) as [ej Hj].
  { apply lookup_lt_is_Some. rewrite <- (swap_if_older_length i j0).
    eauto using lookup_lt_Some. }
  destruct (swap_if_older_pair i j0 l ei ej Hj0 Hi Hj)
    as (ei1 & ej1 & Hi1 & Hj1 & _ & Hle).
  destruct (inner_loop_head i js _ ei1 Hjs Hi1) as (ei2 & Hi2 & Hle2).
  simplify_eq. lia.
Qed.



Lemma outer_step_take n l i a :
  (a <= i)%nat -> take a (spec.outer_step n l i) = take a l.
Proof.
  intros Ha. apply list_eq. intros k.
  destruct (decide (k < a)%nat).
  - rewrite !lookup_take_lt by done.
    apply inner_loop_other; [lia|]. rewrite elem_of_seq. lia.
  - by rewrite !lookup_take_ge by lia.
Qed.

Lemma outer_step_drop n l i a :
  (a <= i)%nat -> drop a (spec.outer_step n l i) ≡ₚ drop a l.
Proof.
  intros Ha. apply (Permutation_app_inv_l (take a l)).
  rewrite <- (outer_step_take n l i a) at 1 by done.
  rewrite !take_drop. apply inner_loop_perm.
Qed.

Lemma outer_step_placed n l i :
  length l = n -> spec.placed i l -> spec.placed (S i) (spec.outer_step n l i).
Proof.
  intros Hlen Hplaced a x y Ha Hx Hy.
  destruct (decide (a < i)%nat) as [Hlt | Hge].
  - apply (Hplaced a x y Hlt).
    + unfold spec.outer_step in Hx. rewrite inner_loop_other in Hx; [done | lia |].
      rewrite elem_of_seq. lia.
    + by rewrite <- (outer_step_drop n l i (S a)) by lia.
  - assert (a = i) as -> by lia.
    apply list_elem_of_lookup in Hy as [k Hk]. rewrite lookup_drop in Hk.
    assert (S i + k < n)%nat as Hk'.
    { rewrite <- Hlen, <- (inner_loop_length i (seq (i + 1) (n - (i + 1))) l).
      eauto using lookup_lt_Some. }
    eapply (inner_loop_oldest i (seq (i + 1) (n - (i + 1))) l (S i + k));
      [| apply NoDup_seq | | exact Hx | exact Hk].
    + apply Forall_forall. intros j Hj%elem_of_seq. lia.
    + apply elem_of_seq. lia.
Qed.

Lemma outer_loop_placed n : forall c s l,
  length l = n -> (s + c = n)%nat -> spec.placed s l ->
  length (foldl (spec.outer_step n) l (seq s c)) = n
  /\ foldl (spec.outer_step n) l (seq s c) ≡ₚ l
  /\ spec.placed n (foldl (spec.outer_step n) l (seq s c)).
Proof.
  induction c as [|c IH]; intros s l Hlen Hsc Hplaced; simpl.
  - assert (s = n) as -> by lia. done.
  - destruct (IH (S s) (spec.outer_step n l s)) as (Hlen' & Hperm & Hfinal).
    + unfold spec.outer_step. by rewrite inner_loop_length.
    + lia.
    + by apply outer_step_placed.
    + split; [done|]. split; [|done].
      rewrite Hperm. apply inner_loop_perm.
Qed.

Lemma sort_by_age_perm l : sort_by_age l ≡ₚ l.
Proof.
  apply (outer_loop_placed (length l) (length l) 0 l); [done | lia |].
  intros a x y Ha. lia.
Qed.

(** The nested loops leave the slice sorted, oldest first. *)
Lemma sort_by_age_sorted l : spec.oldest_first (sort_by_age l).
Proof.
  destruct (outer_loop_placed (length l) (length l) 0 l) as (Hlen & _ & Hplaced);
    [done | lia | intros a x y Ha; lia |].
  intros a b x y Hab Hx Hy. apply (Hplaced a x y); [| done |].
  - rewrite <- Hlen. eauto using lookup_lt_Some.
  - apply list_elem_of_lookup. exists (b - S a)%nat.
    rewrite lookup_drop. by replace (S a + (b - S a))%nat with b by lia.
Qed.
End sort_by_age.

(** ** Retention: the cleanup pass *)

Section cleanup.
Import jobs.


Lemma filter_Permutation {A} (f : A -> bool) (l k : list A) :
  l ≡ₚ k -> List.filter f l ≡ₚ List.filter f k.
Proof.
  induction 1 as [|x l k _ IH|x y l|l k m _ IH1 _ IH2]; simpl.
  - done.
  - destruct (f x); by rewrite IH.
  - destruct (f x), (f y); (done || apply Permutation_swap).
  - by rewrite IH1.
Qed.

Lemma elem_of_filter {A} (f : A -> bool) (l : list A) x :
  x ∈ List.filter f l <-> x ∈ l /\ f x = true.
Proof. rewrite !list_elem_of_In. apply filter_In. Qed.

Lemma NoDup_fst_filter {A B} (f : A * B -> bool) (l : list (A * B)) :
  NoDup (l.*1) -> NoDup ((List.filter f l).*1).
Proof.
  induction l as [|x l IH]; simpl; [done|].
  intros [Hx Hl]%NoDup_cons. destruct (f x); [|by apply IH].
  simpl. apply NoDup_cons. split; [|by apply IH].
  intros (y & Hy & Hin)%list_elem_of_fmap. apply Hx.
  apply list_elem_of_fmap. exists y. split; [done|].
  by apply elem_of_filter in Hin as [].
Qed.

Lemma collect_eligible_foldl now entries : forall acc,
  foldl (fun eligible (entry : string * Job) =>
           let status := GetStatus entry.2 in
           if bool_decide (status = JobStatusCompleted)
              || bool_decide (status = JobStatusFailed)
           then
             let age := Sub now (CreatedAt entry.2) in
             if MinJobRetention <? age
             then eligible ++ [{| id := entry.1; age := age |}]
             else eligible
           else eligible) acc entries
  = acc ++ (spec.age_entry now <$> List.filter (fun e => spec.eligible now e.2) entries).
Proof.
  induction entries as [|e entries IH]; intros acc; simpl.
  - by rewrite app_nil_r.
  - rewrite IH. unfold spec.eligible at 2, spec.terminal, spec.job_age, GetStatus.
    destruct (bool_decide _ || bool_decide _); simpl; [|done].
    destruct (MinJobRetention <? _); simpl; [|done].
    by rewrite <- app_assoc.
Qed.

(** The collecting loop keeps the entries that are eligible, in order. *)
Lemma collect_eligible_spec now entries :
  collect_eligible now entries
  = spec.age_entry now <$> List.filter (fun e => spec.eligible now e.2) entries.
Proof. apply collect_eligible_foldl. Qed.

Lemma delete_all_lookup ids : forall (reg : gmap string Job) k,
  delete_all ids reg !! k = if decide (k ∈ ids) then None else reg !! k.
Proof.
  induction ids as [|i ids IH]; intros reg k.
  - destruct (decide (k ∈ [])) as [Hin | _]; [|done].
    by apply elem_of_nil in Hin.
  - change (delete_all (i :: ids) reg) with (delete_all ids (delete i reg)).
    rewrite IH.
    destruct (decide (k ∈ ids)) as [Hin | Hnin];
      destruct (decide (k ∈ i :: ids)) as [Hin' | Hnin']; try done.
    + exfalso. apply Hnin'. by right.
    + apply elem_of_cons in Hin' as [-> | ?]; [|done]. apply lookup_delete_eq.
    + apply lookup_delete_ne. intros ->. apply Hnin'. by left.
Qed.

Lemma delete_all_size ids : forall (reg : gmap string Job),
  NoDup ids -> (forall i, i ∈ ids -> is_Some (reg !! i)) ->
  size (delete_all ids reg) = (size reg - length ids)%nat.
Proof.
  induction ids as [|i ids IH]; intros reg Hnd Hin.
  - simpl. lia.
  - apply NoDup_cons in Hnd as [Hi Hnd].
    change (delete_all (i :: ids) reg) with (delete_all ids (delete i reg)).
    rewrite IH; [|done|].
    + rewrite map_size_delete_Some by (apply Hin; by left).
      simpl. lia.
    + intros k Hk. rewrite lookup_delete_ne by (intros ->; done).
      apply Hin. by right.
Qed.

Section pass.
Variables (now : Time) (reg : gmap string Job) (entries : list (string * Job)).
Hypothesis Hentries : entries ≡ₚ map_to_list reg.

Local Abbreviation candidates := (collect_eligible now entries).

Lemma elem_of_candidates x :
  x ∈ candidates <->
  exists i j, reg !! i = Some j /\ spec.eligible now j = true
              /\ x = {| id := i; age := spec.job_age now j |}.
Proof.
  rewrite collect_eligible_spec, list_elem_of_fmap. split.
  - intros ([i j] & -> & [Hin Hel]%elem_of_filter).
    rewrite Hentries in Hin. apply elem_of_map_to_list in Hin. by exists i, j.
  - intros (i & j & Hij & Hel & ->). exists (i, j). split; [done|].
    apply elem_of_filter. split; [|done].
    rewrite Hentries. by apply elem_of_map_to_list.
Qed.

Lemma candidates_length : length candidates = spec.eligible_count now reg.
Proof.
  unfold spec.eligible_count.
  rewrite collect_eligible_spec, length_fmap.
  apply Permutation_length. by apply filter_Permutation.
Qed.

Lemma candidates_NoDup : NoDup (id <$> candidates).
Proof.
  rewrite collect_eligible_spec, <- list_fmap_compose.
  apply (NoDup_fst_filter (fun e => spec.eligible now e.2)).
  rewrite Hentries. apply NoDup_fst_map_to_list.
Qed.

Lemma candidates_registered cs i :
  cs ⊆ candidates -> i ∈ id <$> cs ->
  exists j, reg !! i = Some j /\ spec.eligible now j = true.
Proof.
  intros Hsub (x & -> & Hx)%list_elem_of_fmap.
  apply Hsub, elem_of_candidates in Hx as (i & j & Hij & Hel & ->). eauto.
Qed.

Lemma eligible_count_le : (spec.eligible_count now reg <= size reg)%nat.
Proof.
  unfold spec.eligible_count. rewrite <- length_map_to_list.
  apply List.filter_length_le.
Qed.

(** What a pass deletes: a duplicate-free list of IDs of eligible
    jobs, of the length the two cases of [cleanup] fix, in which no
    job is younger than an eligible job that stays. *)
Lemma cleanup_registry_deletes :
  exists ids,
    cleanup_registry now entries reg = delete_all ids reg
    /\ NoDup ids
    /\ length ids =
        (if (MaxJobCount <? size reg)%nat
         then Nat.min (size reg - MaxJobCount) (spec.eligible_count now reg)
         else spec.eligible_count now reg)
    /\ (forall i, i ∈ ids ->
          exists j, reg !! i = Some j /\ spec.eligible now j = true)
    /\ (forall i1 j1 i2 j2, i1 ∈ ids -> i2 ∉ ids ->
          reg !! i1 = Some j1 -> reg !! i2 = Some j2 ->
          spec.eligible now j2 = true ->
          spec.job_age now j2 <= spec.job_age now j1).
Proof.
  pose proof candidates_length as Hlen. pose proof candidates_NoDup as Hnd.
  pose proof eligible_count_le as Hle.
  unfold cleanup_registry. cbv zeta.
  destruct (Nat.eqb_spec (size reg) 0) as [Hz | Hnz].
  { exists []. rewrite Hz in *. simpl.
    assert (spec.eligible_count now reg = 0%nat) as -> by lia.
    repeat split; [constructor | | ]; intros; by (exfalso; eapply not_elem_of_nil). }
  destruct (Nat.ltb_spec MaxJobCount (size reg)) as [Hover | Hunder].
  - replace ((length candidates =? 0)%nat && (size reg <=? MaxJobCount)%nat)
      with false
      by (symmetry; apply andb_false_intro2; apply Nat.leb_gt; lia).
    set (sorted := sort_by_age candidates).
    set (k := if (length sorted <? size reg - MaxJobCount)%nat
              then length sorted else (size reg - MaxJobCount)%nat).
    assert (sorted ≡ₚ candidates) as Hperm by apply sort_by_age_perm.
    assert (k = Nat.min (size reg - MaxJobCount) (spec.eligible_count now reg)) as Hk.
    { unfold k. rewrite (Permutation_length Hperm), Hlen.
      destruct (Nat.ltb_spec (spec.eligible_count now reg) (size reg - MaxJobCount)); lia. }
    exists (id <$> take k sorted). split; [done|].
    assert (NoDup (id <$> sorted)) as Hnds by (by rewrite Hperm).
    split; [|split; [|split]].
    + rewrite <- (take_drop k sorted), fmap_app in Hnds.
      by apply NoDup_app in Hnds as [].
    + rewrite length_fmap, length_take, (Permutation_length Hperm), Hlen. lia.
    + intros i Hi. apply (candidates_registered (take k sorted)); [|done].
      intros x Hx%elem_of_take. destruct Hx as (a & Ha & _).
      rewrite <- Hperm. by eapply list_elem_of_lookup_2.
    + intros i1 j1 i2 j2 (x & -> & Hx)%list_elem_of_fmap Hout H1 H2 Hel.
      apply elem_of_take in Hx as (a & Ha & Hak).
      assert (x ∈ candidates) as Hxc
        by (rewrite <- Hperm; by eapply list_elem_of_lookup_2).
      apply elem_of_candidates in Hxc as (i1 & j1' & H1' & _ & ->).
      simpl in H1. rewrite H1' in H1. injection H1 as <-. simpl.
      assert ({| id := i2; age := spec.job_age now j2 |} ∈ sorted) as Hy.
      { rewrite Hperm. apply elem_of_candidates. eauto. }
      apply list_elem_of_lookup in Hy as [b Hb].
      destruct (decide (b < k)%nat) as [Hbk | Hbk].
      { exfalso. apply Hout. apply list_elem_of_fmap.
        exists {| id := i2; age := spec.job_age now j2 |}. split; [done|].
        apply elem_of_take. eauto. }
      apply (sort_by_age_sorted candidates a b _ _ ltac:(lia) Ha Hb).
  - destruct (Nat.eqb_spec (length candidates) 0) as [Hnone | Hsome].
    + replace (size reg <=? MaxJobCount)%nat with true
        by (symmetry; by apply Nat.leb_le).
      simpl. exists []. rewrite <- Hlen, Hnone.
      repeat split; [constructor | | ]; intros; by (exfalso; eapply not_elem_of_nil).
    + simpl. replace (0 <? length candidates)%nat with true
        by (symmetry; apply Nat.ltb_lt; lia).
      exists (id <$> candidates).
      split; [done|]. split; [done|]. split; [by rewrite length_fmap|].
      split; [intros i Hi; by apply (candidates_registered candidates)|].
      intros i1 j1 i2 j2 _ Hout _ H2 Hel. exfalso. apply Hout.
      apply list_elem_of_fmap.
      exists {| id := i2; age := spec.job_age now j2 |}. split; [done|].
      apply elem_of_candidates. eauto.
Qed.
End pass.
End cleanup.

(** C3 (as amended). A cleanup pass over a registry of [n] jobs, [e] of
    them eligible (Completed or Failed, and older than one hour), leaves
    [n - e] jobs when [n] is at most 1000 and [n - min (n - 1000) e] jobs
    when [n] exceeds 1000: whenever the count exceeds 1000 the pass evicts
    the oldest eligible jobs until the count is 1000 or no eligible job is
    left. So the registry holds at most 1000 jobs afterwards whenever at
    least [n - 1000] jobs were eligible, and every evicted job is eligible
    and at least as old as every eligible job that stays. *)
Theorem cleanup_bound (jorder : jobs.JobOrder) (now : jobs.Time) (m : jobs.Manager) :
  jobs.job_order_ok jorder ->
  let n := size (jobs.jobs m) in
  let e := spec.eligible_count now (jobs.jobs m) in
  let m' := jobs.cleanup jorder now m in
  size (jobs.jobs m') =
    (if (jobs.MaxJobCount <? n)%nat then n - Nat.min (n - jobs.MaxJobCount) e else n - e)%nat
  /\ ((n - jobs.MaxJobCount <= e)%nat -> (size (jobs.jobs m') <= jobs.MaxJobCount)%nat)
  /\ (forall i1 j1 i2 j2,
        jobs.jobs m !! i1 = Some j1 -> jobs.jobs m !! i2 = Some j2 ->
        jobs.jobs m' !! i1 = None -> jobs.jobs m' !! i2 = Some j2 ->
        spec.eligible now j1 = true
        /\ (spec.eligible now j2 = true ->
            spec.job_age now j2 <= spec.job_age now j1)).
Proof.
  intros Horder n e m'.
  destruct (cleanup_registry_deletes now (jobs.jobs m) (jorder (jobs.jobs m))
              (Horder _)) as (ids & Heq & Hnd & Hlen & Hel & Hold).
  assert (jobs.jobs m' = jobs.delete_all ids (jobs.jobs m)) as Hm' by exact Heq.
  assert (size (jobs.jobs m') = (n - length ids)%nat) as Hsize.
  { rewrite Hm'. apply delete_all_size; [done|].
    intros i Hi. destruct (Hel i Hi) as (j & Hj & _). eauto. }
  fold n e in Hlen.
  assert (size (jobs.jobs m') =
    (if (jobs.MaxJobCount <? n)%nat then n - Nat.min (n - jobs.MaxJobCount) e else n - e)%nat)
    as Hcount.
  { rewrite Hsize, Hlen. by destruct (jobs.MaxJobCount <? n)%nat. }
  split; [exact Hcount|]. split.
  - intros He. rewrite Hcount.
    destruct (Nat.ltb_spec jobs.MaxJobCount n); lia.
  - intros i1 j1 i2 j2 H1 H2 Hgone Hkept.
    rewrite Hm', delete_all_lookup in Hgone, Hkept.
    destruct (decide (i1 ∈ ids)) as [Hin1 | _]; [|congruence].
    destruct (decide (i2 ∈ ids)) as [_ | Hout2]; [done|].
    split.
    + destruct (Hel i1 Hin1) as (j & Hj & Helj). congruence.
    + intros Hel2. by apply (Hold i1 j1 i2 j2).
Qed.

Lemma in_map_order_ok : jobs.job_order_ok examples.in_map_order.
Proof. intros reg. reflexivity. Qed.

(** The amended C3 at a registry of three jobs, one of them eligible. *)
Lemma cleanup_bound_witness :
  size (jobs.jobs (jobs.cleanup examples.in_map_order (3 * jobs.Hour)
                                examples.small_manager)) = 2%nat.
Proof.
  exact (proj1 (cleanup_bound examples.in_map_order (3 * jobs.Hour)
                  examples.small_manager in_map_order_ok)).
Defined.

(** C3 as stated fails: a registry of 1001 running jobs has no eligible
    job, and the cleanup pass leaves all 1001 of them. *)
Lemma cleanup_can_leave_more_than_max :
  (jobs.MaxJobCount <
   size (jobs.jobs (jobs.cleanup examples.in_map_order (2000 * jobs.Hour)%Z
                                 examples.busy_manager)))%nat.
Proof. vm_compute. lia. Qed.

(** C9. The cleanup never deletes a non-terminal job: every job that is
    Pending or Running before a pass is in the registry, unchanged, after
    it; a job that a pass removes is Completed or Failed and was created
    more than one hour before; and a pass neither adds nor changes a
    job. *)
Theorem cleanup_keeps_active_jobs (jorder : jobs.JobOrder) (now : jobs.Time)
    (m : jobs.Manager) :
  jobs.job_order_ok jorder ->
  let m' := jobs.cleanup jorder now m in
  (forall i j, jobs.jobs m !! i = Some j ->
     jobs.Status j = jobs.JobStatusPending \/ jobs.Status j = jobs.JobStatusRunning ->
     jobs.jobs m' !! i = Some j)
  /\ (forall i j, jobs.jobs m !! i = Some j -> jobs.jobs m' !! i = None ->
       (jobs.Status j = jobs.JobStatusCompleted \/ jobs.Status j = jobs.JobStatusFailed)
       /\ jobs.MinJobRetention < jobs.Sub now (jobs.CreatedAt j))
  /\ (forall i j, jobs.jobs m' !! i = Some j -> jobs.jobs m !! i = Some j).
Proof.
  intros Horder m'.
  destruct (cleanup_registry_deletes now (jobs.jobs m) (jorder (jobs.jobs m))
              (Horder _)) as (ids & Heq & _ & _ & Hel & _).
  assert (jobs.jobs m' = jobs.delete_all ids (jobs.jobs m)) as Hm' by exact Heq.
  assert (forall i j, jobs.jobs m !! i = Some j -> jobs.jobs m' !! i = None ->
            spec.eligible now j = true) as Hgone.
  { intros i j Hj Hnone. rewrite Hm', delete_all_lookup in Hnone.
    destruct (decide (i ∈ ids)) as [Hin | _]; [|congruence].
    destruct (Hel i Hin) as (j' & Hj' & Helj). congruence. }
  split; [|split].
  - intros i j Hj Hactive.
    destruct (jobs.jobs m' !! i) as [j'|] eqn:Hi.
    + rewrite Hm', delete_all_lookup in Hi.
      destruct (decide (i ∈ ids)); congruence.
    + specialize (Hgone i j Hj Hi). unfold spec.eligible, spec.terminal in Hgone.
      apply andb_prop in Hgone as [Hterm _].
      destruct Hactive as [Hs | Hs]; rewrite Hs in Hterm; discriminate.
  - intros i j Hj Hnone. specialize (Hgone i j Hj Hnone).
    unfold spec.eligible, spec.terminal, spec.job_age in Hgone.
    apply andb_prop in Hgone as [Hterm Hage].
    split; [|by apply Z.ltb_lt].
    apply orb_prop in Hterm as [Hs%bool_decide_eq_true | Hs%bool_decide_eq_true]; auto.
  - intros i j Hi. rewrite Hm', delete_all_lookup in Hi.
    destruct (decide (i ∈ ids)); congruence.
Qed.

(** C9 at a registry with a running job as old as the finished job that
    the pass removes. *)
Lemma cleanup_keeps_active_jobs_witness :
  jobs.jobs (jobs.cleanup examples.in_map_order (3 * jobs.Hour) examples.small_manager)
    !! "busy"%string
  = Some (examples.running_job (1 * jobs.Hour) 3).
Proof.
  apply (proj1 (cleanup_keeps_active_jobs examples.in_map_order (3 * jobs.Hour)
                  examples.small_manager in_map_order_ok)).
  - reflexivity.
  - right. reflexivity.
Defined.

(** ** Graph walks: termination *)

Section walks.
Import graph.
Variable h : Heap.

Lemma unvisited_mono fl fl' :
  visited fl ⊆ visited fl' -> (spec.unvisited h fl' <= spec.unvisited h fl)%nat.
Proof. intros Hsub. apply subseteq_size. set_solver. Qed.

Lemma unvisited_mark n fl :
  is_Some (h !! n) -> n ∉ visited fl ->
  (spec.unvisited h (set_visited n fl) < spec.unvisited h fl)%nat.
Proof.
  intros Hn%elem_of_dom Hfresh. apply subset_size.
  unfold set_visited; simpl. set_solver.
Qed.

Lemma unvisited_bound fl : (spec.unvisited h fl < depth_bound h)%nat.
Proof.
  unfold depth_bound, spec.unvisited. rewrite <- (size_dom (D := gset string)).
  apply Nat.lt_succ_r, subseteq_size. set_solver.
Qed.

Lemma children_of_dangling n : h !! n = None -> children_of h n = [].
Proof. unfold children_of. by intros ->. Qed.

Lemma parents_of_dangling n : h !! n = None -> parents_of h n = [].
Proof. unfold parents_of. by intros ->. Qed.

(** *** [dfs] *)

Lemma dfs_children_post (rec : string -> Flags -> list string -> option dfs_result)
    (node : string) (children : list string) :
  (forall c fl cycle r, rec c fl cycle = Some r -> spec.dfs_post c fl cycle r) ->
  forall fl cycle found fl' cycle',
    dfs_children rec node children fl cycle = Some (found, fl', cycle') ->
    visited fl ⊆ visited fl'
    /\ (found = false -> inStack fl' = inStack fl ∖ {[node]} /\ cycle' = cycle).
Proof.
  intros Hrec. induction children as [|c children IH];
    intros fl cycle found fl' cycle' Hrun; simpl in Hrun.
  - injection Hrun as <- <- <-. done.
  - destruct (rec c fl cycle) as [[[found1 fl1] cycle1]|] eqn:Hc; [|done].
    apply Hrec in Hc as [Hsub Hpost]. destruct found1.
    + injection Hrun as <- <- <-. done.
    + destruct (Hpost eq_refl) as (Hstack & -> & _).
      apply IH in Hrun as [Hsub' Hpost']. split; [set_solver|].
      intros Hf. destruct (Hpost' Hf) as [-> ->]. by rewrite Hstack.
Qed.

Lemma dfs_post_holds fuel : forall n fl cycle r,
  dfs fuel h n fl cycle = Some r -> spec.dfs_post n fl cycle r.
Proof.
  induction fuel as [|fuel IH]; intros n fl cycle [[found fl'] cycle'] Hrun; [done|].
  simpl in Hrun.
  destruct (decide (n ∈ inStack fl)) as [Hin | Hout].
  { injection Hrun as <- <- <-. done. }
  destruct (decide (n ∈ visited fl)) as [Hseen | Hfresh].
  { injection Hrun as <- <- <-. done. }
  apply (dfs_children_post (dfs fuel h) n _ (IH)) in Hrun as [Hsub Hpost].
  simpl in Hsub. split; [set_solver|].
  intros Hf. destruct (Hpost Hf) as [Hstack ->].
  split; [|split; [done | set_solver]].
  rewrite Hstack. simpl. set_solver.
Qed.

Lemma dfs_children_total (rec : string -> Flags -> list string -> option dfs_result)
    (bound : nat) (node : string) (children : list string) :
  (forall c fl cycle r, rec c fl cycle = Some r -> spec.dfs_post c fl cycle r) ->
  (forall c fl cycle, (spec.unvisited h fl <= bound)%nat -> is_Some (rec c fl cycle)) ->
  forall fl cycle, (spec.unvisited h fl <= bound)%nat ->
    is_Some (dfs_children rec node children fl cycle).
Proof.
  intros Hpost Hrec. induction children as [|c children IH]; intros fl cycle Hfl; simpl.
  - done.
  - destruct (Hrec c fl cycle Hfl) as [[[found fl1] cycle1] Hc]. rewrite Hc.
    destruct found; [done|]. apply IH.
    apply Hpost in Hc as [Hsub _].
    pose proof (unvisited_mono fl fl1 Hsub). lia.
Qed.

(** With one frame per unvisited node object left, and one more, [dfs]
    returns. *)
Lemma dfs_total fuel : forall n fl cycle,
  (spec.unvisited h fl < fuel)%nat -> is_Some (dfs fuel h n fl cycle).
Proof.
  induction fuel as [|fuel IH]; intros n fl cycle Hfuel; [lia|]. simpl.
  destruct (decide (n ∈ inStack fl)) as [Hin | Hout]; [done|].
  destruct (decide (n ∈ visited fl)) as [Hseen | Hfresh]; [done|].
  destruct (h !! n) as [nd|] eqn:Hn.
  - pose proof (unvisited_mark n fl (mk_is_Some _ _ Hn) Hfresh) as Hlt.
    apply (dfs_children_total (dfs fuel h) (fuel - 1)).
    + apply dfs_post_holds.
    + intros c fl0 cycle0 Hfl0. apply IH. lia.
    + change (spec.unvisited h (set_inStack n true (set_visited n fl)))
        with (spec.unvisited h (set_visited n fl)). lia.
  - by rewrite (children_of_dangling n Hn).
Qed.

(** In a graph without a cycle along the children, a [dfs] entered with
    every node on the stack leading to its argument finds nothing. *)
Lemma dfs_acyclic fuel :
  (forall m, ~ tc (spec.child_edge h) m m) ->
  forall n fl cycle found fl' cycle',
    dfs fuel h n fl cycle = Some (found, fl', cycle') ->
    (forall s, s ∈ inStack fl -> tc (spec.child_edge h) s n) ->
    found = false.
Proof.
  intros Hacyclic. induction fuel as [|fuel IH];
    intros n fl cycle found fl' cycle' Hrun Hstack; [done|].
  simpl in Hrun.
  destruct (decide (n ∈ inStack fl)) as [Hin | Hout].
  { exfalso. by apply (Hacyclic n), Hstack. }
  destruct (decide (n ∈ visited fl)) as [Hseen | Hfresh].
  { by injection Hrun as <- <- <-. }
  assert (forall children fl1, children ⊆ children_of h n ->
            inStack fl1 = {[n]} ∪ inStack fl ->
            dfs_children (dfs fuel h) n children fl1 cycle = Some (found, fl', cycle') ->
            found = false) as Hloop.
  { clear Hrun. induction children as [|c children IHc]; intros fl1 Hsub Hfl1 Hrun;
      simpl in Hrun.
    - by injection Hrun as <- <- <-.
    - destruct (dfs fuel h c fl1 cycle) as [[[found1 fl2] cycle2]|] eqn:Hc; [|done].
      assert (found1 = false) as ->.
      { apply (IH _ _ _ _ _ _ Hc). intros s. rewrite Hfl1.
        assert (spec.child_edge h n c) as Hedge by (apply Hsub; by left).
        intros [->%elem_of_singleton | Hs]%elem_of_union.
        - by apply tc_once.
        - eapply tc_r; [by apply Hstack | done]. }
      apply dfs_post_holds in Hc as [_ Hpost].
      destruct (Hpost eq_refl) as (Hsame & -> & _).
      apply (IHc fl2); [set_solver | congruence | done]. }
  by apply (Hloop (children_of h n) (set_inStack n true (set_visited n fl))).
Qed.

(** *** The loop of [HasCycles] *)

Lemma HasCycles_loop_total nodes : forall fl cycle,
  is_Some (HasCycles_loop h nodes fl cycle).
Proof.
  induction nodes as [|n nodes IH]; intros fl cycle; cbn [HasCycles_loop]; [done|].
  destruct (decide (n ∈ visited fl)); [apply IH|].
  destruct (dfs_total (depth_bound h) n fl cycle (unvisited_bound fl))
    as [[[found fl'] cycle'] ->].
  destruct found; [done | apply IH].
Qed.

Lemma HasCycles_loop_acyclic nodes :
  (forall m, ~ tc (spec.child_edge h) m m) ->
  forall fl cycle, inStack fl = ∅ ->
    exists fl', HasCycles_loop h nodes fl cycle = Some (false, fl', [])
      /\ inStack fl' = ∅ /\ visited fl ⊆ visited fl'.
Proof.
  intros Hacyclic. induction nodes as [|n nodes IH]; intros fl cycle Hclean;
    cbn [HasCycles_loop].
  - by exists fl.
  - destruct (decide (n ∈ visited fl)); [by apply IH|].
    destruct (dfs_total (depth_bound h) n fl cycle (unvisited_bound fl))
      as [[[found fl1] cycle1] Hrun]. rewrite Hrun.
    assert (found = false) as ->.
    { apply (dfs_acyclic _ Hacyclic _ _ _ _ _ _ Hrun). intros s. rewrite Hclean.
      intros []%elem_of_empty. }
    apply dfs_post_holds in Hrun as [Hsub Hpost].
    destruct (Hpost eq_refl) as (Hsame & -> & _).
    destruct (IH fl1 cycle) as (fl' & -> & Hclean' & Hsub'); [congruence|].
    exists fl'. split; [done|]. split; [done | set_solver].
Qed.
End walks.

Section visits.
Import graph.
Variable h : Heap.

(** *** [visit] *)

Lemma visit_frame_refl fl sorted : spec.visit_frame h fl sorted (fl, sorted).
Proof.
  split; [done|]. split; [done|]. exists []. rewrite app_nil_r.
  split; [done|]. split; [constructor|].
  intros x. split; [by intros ?%elem_of_nil | intros (? & ? & _); done].
Qed.

Lemma visit_frame_trans fl sorted fl1 sorted1 r :
  spec.visit_frame h fl sorted (fl1, sorted1) ->
  spec.visit_frame h fl1 sorted1 r ->
  spec.visit_frame h fl sorted r.
Proof.
  destruct r as [fl2 sorted2].
  intros (Hsub1 & Hst1 & added1 & -> & Hnd1 & Hin1)
         (Hsub2 & Hst2 & added2 & -> & Hnd2 & Hin2).
  split; [set_solver|]. split; [congruence|].
  exists (added1 ++ added2). split; [by rewrite app_assoc|]. split.
  - apply NoDup_app. split; [done|]. split; [|done].
    intros x Hx1%Hin1 Hx2%Hin2. tauto.
  - intros x. rewrite elem_of_app, Hin1, Hin2. split.
    + intros [(? & ? & ?) | (? & ? & ?)]; (split; [set_solver|]); split; set_solver.
    + intros (Hx2 & Hx & Hreal).
      destruct (decide (x ∈ visited fl1)); [left | right]; done.
Qed.

Lemma visit_parents_post (rec : string -> Flags -> list string -> option (Flags * list string))
    (parents : list string) :
  (forall p fl sorted r, rec p fl sorted = Some r -> spec.visit_post h p fl sorted r) ->
  forall fl sorted r,
    visit_parents rec parents fl sorted = Some r ->
    spec.visit_frame h fl sorted r /\ (forall p, p ∈ parents -> p ∈ visited r.1).
Proof.
  intros Hrec. induction parents as [|p parents IH]; intros fl sorted r Hrun;
    simpl in Hrun.
  - injection Hrun as <-. split; [apply visit_frame_refl|].
    by intros p ?%elem_of_nil.
  - destruct (rec p fl sorted) as [[fl1 sorted1]|] eqn:Hp; [|done].
    apply Hrec in Hp as [Hframe1 Hp1]. apply IH in Hrun as [Hframe2 Hall].
    split; [by eapply visit_frame_trans|].
    intros q [-> | Hq]%elem_of_cons; [|by apply Hall].
    destruct r as [fl2 sorted2]. destruct Hframe2 as [Hsub _]. set_solver.
Qed.

Lemma visit_post_holds fuel : forall n fl sorted r,
  visit fuel h n fl sorted = Some r -> spec.visit_post h n fl sorted r.
Proof.
  induction fuel as [|fuel IH]; intros n fl sorted r Hrun; [done|]. simpl in Hrun.
  destruct (decide (n ∈ visited fl)) as [Hseen | Hfresh].
  { injection Hrun as <-. split; [apply visit_frame_refl | done]. }
  destruct (visit_parents (visit fuel h) (parents_of h n) (set_visited n fl) sorted)
    as [[fl1 sorted1]|] eqn:Hloop; [|done].
  apply (visit_parents_post _ _ IH) in Hloop
    as [(Hsub & Hst & added & -> & Hnd & Hin) _]. simpl in Hsub, Hst.
  assert (n ∈ visited fl1) as Hn by set_solver.
  destruct (is_placeholder h n) eqn:Hph; injection Hrun as <-.
  - split; [|done]. split; [set_solver|]. split; [done|].
    exists added. split; [done|]. split; [done|].
    intros x. rewrite Hin. simpl. split.
    + intros (? & ? & ?). set_solver.
    + intros (? & ? & ?). split; [done|]. split; [|done].
      intros [->%elem_of_singleton | ?]%elem_of_union; [congruence | done].
  - split; [|done]. split; [set_solver|]. split; [done|].
    exists (added ++ [n]). split; [by rewrite app_assoc|]. split.
    + apply NoDup_app. split; [done|]. split; [|apply NoDup_singleton].
      intros x Hx%Hin ->%list_elem_of_singleton. simpl in Hx. set_solver.
    + intros x. rewrite elem_of_app, Hin, list_elem_of_singleton. simpl. split.
      * intros [(? & ? & ?) | ->]; [set_solver | done].
      * intros (? & ? & ?). destruct (decide (x = n)); [by right | left].
        split; [done|]. split; [set_solver | done].
Qed.

Lemma visit_parents_total (rec : string -> Flags -> list string -> option (Flags * list string))
    (bound : nat) (parents : list string) :
  (forall p fl sorted r, rec p fl sorted = Some r -> spec.visit_post h p fl sorted r) ->
  (forall p fl sorted, (spec.unvisited h fl <= bound)%nat -> is_Some (rec p fl sorted)) ->
  forall fl sorted, (spec.unvisited h fl <= bound)%nat ->
    is_Some (visit_parents rec parents fl sorted).
Proof.
  intros Hpost Hrec. induction parents as [|p parents IH]; intros fl sorted Hfl; simpl.
  - done.
  - destruct (Hrec p fl sorted Hfl) as [[fl1 sorted1] Hp]. rewrite Hp.
    apply IH. apply Hpost in Hp as [[Hsub _] _].
    pose proof (unvisited_mono h fl fl1 Hsub). lia.
Qed.

Lemma visit_total fuel : forall n fl sorted,
  (spec.unvisited h fl < fuel)%nat -> is_Some (visit fuel h n fl sorted).
Proof.
  induction fuel as [|fuel IH]; intros n fl sorted Hfuel; [lia|]. simpl.
  destruct (decide (n ∈ visited fl)) as [Hseen | Hfresh]; [done|].
  assert (is_Some (visit_parents (visit fuel h) (parents_of h n)
                                 (set_visited n fl) sorted)) as [[fl1 sorted1] ->].
  { destruct (h !! n) as [nd|] eqn:Hn.
    - pose proof (unvisited_mark h n fl (mk_is_Some _ _ Hn) Hfresh) as Hlt.
      apply (visit_parents_total (visit fuel h) (fuel - 1)).
      + apply visit_post_holds.
      + intros p fl0 sorted0 Hfl0. apply IH. lia.
      + lia.
    - by rewrite (parents_of_dangling h n Hn). }
  by destruct (is_placeholder h n).
Qed.

(** *** The loop of [TopologicalSort] *)

Lemma visit_all_post nodes : forall fl sorted,
  exists r, visit_all h nodes fl sorted = Some r
    /\ spec.visit_frame h fl sorted r
    /\ (forall n, n ∈ nodes -> is_placeholder h n = false -> n ∈ visited r.1).
Proof.
  induction nodes as [|n nodes IH]; intros fl sorted; cbn [visit_all].
  - exists (fl, sorted). split; [done|]. split; [apply visit_frame_refl|].
    by intros n ?%elem_of_nil.
  - destruct (bool_decide (n ∈ visited fl) || is_placeholder h n) eqn:Hskip.
    + destruct (IH fl sorted) as ([fl' sorted'] & -> & Hframe & Hall).
      exists (fl', sorted'). split; [done|]. split; [done|].
      intros m [-> | Hm]%elem_of_cons Hreal; [|by apply Hall].
      rewrite Hreal, orb_false_r in Hskip. apply bool_decide_eq_true in Hskip.
      destruct Hframe as [Hsub _]. set_solver.
    + destruct (visit_total (depth_bound h) n fl sorted (unvisited_bound h fl))
        as [[fl1 sorted1] Hrun]. rewrite Hrun.
      apply visit_post_holds in Hrun as [Hframe1 Hn1].
      destruct (IH fl1 sorted1) as ([fl' sorted'] & -> & Hframe & Hall).
      exists (fl', sorted'). split; [done|].
      split; [by eapply visit_frame_trans|].
      intros m [-> | Hm]%elem_of_cons Hreal; [|by apply Hall].
      destruct Hframe as [Hsub _]. simpl in *. set_solver.
Qed.
End visits.

Section depths.
Import graph.
Variable h : Heap.

(** *** [calculateDepth] *)

Lemma depth_parents_None (rec : string -> gmap string Z -> option (Z * gmap string Z))
    (parents : list string) : forall maxd depths,
  depth_parents rec h parents maxd depths = None ->
  exists p depths', p ∈ parents /\ rec p depths' = None.
Proof.
  induction parents as [|p parents IH]; intros maxd depths Hrun; simpl in Hrun; [done|].
  destruct (is_placeholder h p).
  - destruct (IH _ _ Hrun) as (q & depths' & Hq & Hnone).
    exists q, depths'. split; [by right | done].
  - destruct (rec p depths) as [[pd depths1]|] eqn:Hp.
    + destruct (IH _ _ Hrun) as (q & depths' & Hq & Hnone).
      exists q, depths'. split; [by right | done].
    + exists p, depths. split; [by left | done].
Qed.

(** A [calculateDepth] that exhausts its frames has descended along a
    chain of parents, one node per frame. *)
Lemma calculateDepth_None fuel : forall n depths,
  calculateDepth fuel h n depths = None ->
  exists l, length l = fuel /\ spec.parent_chain h n l.
Proof.
  induction fuel as [|fuel IH]; intros n depths Hrun.
  { by exists []. }
  simpl in Hrun. destruct (depths !! n); [done|].
  destruct (negb (HasParents h n)); [done|].
  destruct (depth_parents (calculateDepth fuel h) h (parents_of h n) (-1) depths)
    as [[maxd depths1]|] eqn:Hloop; [done|].
  apply depth_parents_None in Hloop as (p & depths' & Hp & Hnone).
  apply IH in Hnone as (l & Hlen & Hchain).
  exists (n :: l). split; [by rewrite <- Hlen|].
  split; [done|]. exists p. done.
Qed.

Lemma parent_chain_dom l : forall n x,
  spec.parent_chain h n l -> x ∈ l -> x ∈ dom h.
Proof.
  induction l as [|y l IH]; intros n x Hchain Hx; [by apply elem_of_nil in Hx|].
  destruct Hchain as (-> & p & Hp & Hrest).
  apply elem_of_cons in Hx as [-> | Hx]; [|by eapply IH].
  unfold spec.parent_edge, parents_of in Hp. apply elem_of_dom.
  destruct (h !! n); [done | by apply elem_of_nil in Hp].
Qed.

Lemma parent_chain_reach l : forall n x,
  spec.parent_chain h n l -> x ∈ l -> rtc (spec.parent_edge h) n x.
Proof.
  induction l as [|y l IH]; intros n x Hchain Hx; [by apply elem_of_nil in Hx|].
  destruct Hchain as (-> & p & Hp & Hrest).
  apply elem_of_cons in Hx as [-> | Hx]; [done|].
  eapply rtc_l; [exact Hp | by eapply IH].
Qed.

Lemma parent_chain_repeat l : forall n,
  spec.parent_chain h n l -> ~ NoDup l -> exists m, tc (spec.parent_edge h) m m.
Proof.
  induction l as [|y l IH]; intros n Hchain Hdup.
  { destruct Hdup. constructor. }
  destruct Hchain as (-> & p & Hp & Hrest).
  destruct (decide (n ∈ l)) as [Hin | Hout].
  - exists n. eapply tc_rtc_r; [by apply tc_once | by eapply parent_chain_reach].
  - apply (IH p Hrest). intros Hnd. apply Hdup. by constructor.
Qed.

(** A chain of parents longer than the heap runs through a cycle. *)
Lemma parent_chain_long l n :
  spec.parent_chain h n l -> (size h < length l)%nat ->
  exists m, tc (spec.parent_edge h) m m.
Proof.
  intros Hchain Hlong. apply (parent_chain_repeat l n Hchain). intros Hnd.
  assert (list_to_set l ⊆ dom h) as Hsub.
  { intros x Hx%elem_of_list_to_set. by eapply parent_chain_dom. }
  apply subseteq_size in Hsub.
  rewrite size_list_to_set, size_dom in Hsub by done. lia.
Qed.

Lemma calculateDepth_total n depths :
  (forall m, ~ tc (spec.parent_edge h) m m) ->
  is_Some (calculateDepth (depth_bound h) h n depths).
Proof.
  intros Hacyclic.
  destruct (calculateDepth (depth_bound h) h n depths) eqn:Hrun; [done|].
  apply calculateDepth_None in Hrun as (l & Hlen & Hchain).
  destruct (parent_chain_long l n Hchain) as [m Hm].
  - rewrite Hlen. unfold depth_bound. lia.
  - by destruct (Hacyclic m).
Qed.

Lemma all_depths_total nodes :
  (forall m, ~ tc (spec.parent_edge h) m m) ->
  forall maxDepth depths, is_Some (all_depths h nodes maxDepth depths).
Proof.
  intros Hacyclic. induction nodes as [|n nodes IH]; intros maxDepth depths;
    cbn [all_depths]; [done|].
  destruct (calculateDepth_total n depths Hacyclic) as [[depth depths'] ->].
  apply IH.
Qed.

(** *** [findComponent] *)

Lemma push_connected_length fl nodes : forall stack,
  (length (push_connected h fl nodes stack) <= length stack + length nodes)%nat.
Proof.
  unfold push_connected.
  induction nodes as [|x nodes IH]; intros stack; simpl; [lia|].
  destruct (_ && _); etrans; [apply IH | simpl; lia | apply IH | lia].
Qed.

Lemma pending_mark n nd fl :
  h !! n = Some nd -> n ∉ visited fl ->
  (spec.pending h (set_visited n fl) + spec.degree nd)%nat = spec.pending h fl.
Proof.
  intros Hn Hfresh. unfold spec.pending.
  rewrite <- !(map_to_list_delete h n nd Hn). simpl.
  rewrite bool_decide_eq_true_2 by set_solver.
  rewrite bool_decide_eq_false_2 by done.
  assert (sum_list_with
            (fun kv : string * Node =>
               if bool_decide (kv.1 ∈ {[n]} ∪ visited fl) then 0%nat else spec.degree kv.2)
            (map_to_list (delete n h))
          = sum_list_with
            (fun kv : string * Node =>
               if bool_decide (kv.1 ∈ visited fl) then 0%nat else spec.degree kv.2)
            (map_to_list (delete n h))) as ->; [|lia].
  assert (Forall (fun kv : string * Node => kv.1 <> n) (map_to_list (delete n h))) as Hne.
  { apply Forall_forall. intros [k v] Hkv%elem_of_map_to_list. simpl.
    intros ->. by rewrite lookup_delete_eq in Hkv. }
  induction Hne as [|[k v] l Hk _ IH]; simpl; [done|].
  rewrite IH. f_equal. simpl in Hk.
  rewrite (bool_decide_ext (k ∈ {[n]} ∪ visited fl) (k ∈ visited fl)); [done|].
  set_solver.
Qed.

Lemma pending_visit n fl :
  n ∉ visited fl ->
  (length (parents_of h n) + length (children_of h n)
   + spec.pending h (set_visited n fl) <= spec.pending h fl)%nat.
Proof.
  intros Hfresh. destruct (h !! n) as [nd|] eqn:Hn.
  - pose proof (pending_mark n nd fl Hn Hfresh) as Hp.
    unfold children_of, parents_of. rewrite Hn.
    unfold spec.degree in Hp. lia.
  - rewrite (children_of_dangling h n Hn), (parents_of_dangling h n Hn). simpl.
    unfold spec.pending, set_visited. simpl.
    induction (map_to_list h) as [|[k v] l IHl]; simpl; [done|].
    destruct (bool_decide (k ∈ visited fl)) eqn:Hk.
    + rewrite bool_decide_eq_true_2; [lia|].
      apply bool_decide_eq_true in Hk. set_solver.
    + destruct (bool_decide (k ∈ {[n]} ∪ visited fl)); lia.
Qed.

Lemma pending_le_edges fl : (spec.pending h fl <= edge_count h)%nat.
Proof.
  unfold spec.pending, edge_count.
  induction (map_to_list h) as [|[k v] l IH]; simpl; [done|].
  destruct (bool_decide _); unfold spec.degree in *; simpl; lia.
Qed.

(** What [findComponent] leaves behind: the nodes it collected are the
    nodes it marked, none of them a placeholder. *)
Lemma findComponent_loop_total fuel : forall stack fl component,
  (length stack + spec.pending h fl < fuel)%nat ->
  exists added fl',
    findComponent_loop fuel h stack fl component = Some (component ++ added, fl')
    /\ visited fl ⊆ visited fl' /\ inStack fl' = inStack fl
    /\ (forall x, x ∈ added ->
          is_placeholder h x = false /\ (x ∉ visited fl) /\ x ∈ visited fl').
Proof.
  induction fuel as [|fuel IH]; intros stack fl component Hfuel; [lia|].
  destruct stack as [|node stack]; cbn [findComponent_loop].
  { exists [], fl. rewrite app_nil_r. repeat split; try done.
    all: by apply elem_of_nil in H. }
  destruct (bool_decide (node ∈ visited fl) || is_placeholder h node) eqn:Hskip.
  { apply IH. simpl in Hfuel. lia. }
  apply orb_false_elim in Hskip as [Hfresh%bool_decide_eq_false Hreal].
  set (fl1 := set_visited node fl).
  set (stack1 := push_connected h fl1 (children_of h node)
                   (push_connected h fl1 (parents_of h node) stack)).
  assert (length stack1 + spec.pending h fl1 < fuel)%nat as Hfuel1.
  { pose proof (push_connected_length fl1 (children_of h node)
                  (push_connected h fl1 (parents_of h node) stack)) as H1.
    pose proof (push_connected_length fl1 (parents_of h node) stack) as H2.
    pose proof (pending_visit node fl Hfresh) as H3.
    fold fl1 in H3. fold stack1 in H1. simpl in Hfuel. lia. }
  destruct (IH stack1 fl1 (component ++ [node]) Hfuel1)
    as (added & fl' & Hrun & Hsub & Hst & Hadded).
  exists (node :: added), fl'. rewrite Hrun, <- app_assoc. split; [done|].
  simpl in Hsub. split; [set_solver|]. split; [done|].
  intros x [-> | Hx]%elem_of_cons.
  - split; [done|]. split; [done | set_solver].
  - destruct (Hadded x Hx) as (? & ? & ?). split; [done|]. split; [set_solver | done].
Qed.

Lemma findComponent_total n fl :
  exists component fl',
    findComponent h n fl = Some (component, fl')
    /\ visited fl ⊆ visited fl' /\ inStack fl' = inStack fl
    /\ (forall x, x ∈ component ->
          is_placeholder h x = false /\ (x ∉ visited fl) /\ x ∈ visited fl').
Proof.
  destruct (findComponent_loop_total (2 + edge_count h) [n] fl [])
    as (added & fl' & Hrun & Hrest).
  - pose proof (pending_le_edges fl). simpl. lia.
  - exists added, fl'. by split.
Qed.
End depths.

(** ** Sorting and batching return *)

Section sorting.
Import graph.
Variable order : RangeOrder.

Lemma Validate_total g fl : is_Some (Validate order g fl).
Proof.
  unfold Validate, HasCycles.
  destruct (HasCycles_loop_total (heap g) (order RangeHasCycles (Nodes g))
              (reset_cycle_flags (Nodes g) fl) []) as [[[found fl'] cycle] ->].
  by destruct found.
Qed.

Lemma Validate_acyclic g fl :
  (forall m, ~ tc (spec.child_edge (heap g)) m m) -> inStack fl ⊆ Nodes g ->
  exists fl', Validate order g fl = Some (Ok tt, fl') /\ inStack fl' = ∅.
Proof.
  intros Hacyclic Hstack. unfold Validate, HasCycles.
  destruct (HasCycles_loop_acyclic (heap g) (order RangeHasCycles (Nodes g)) Hacyclic
              (reset_cycle_flags (Nodes g) fl) []) as (fl' & -> & Hclean & _).
  - simpl. set_solver.
  - by exists fl'.
Qed.

Lemma visit_all_skip (h : Heap) nodes fl sorted :
  (forall n, n ∈ nodes -> is_placeholder h n = true) ->
  visit_all h nodes fl sorted = Some (fl, sorted).
Proof.
  induction nodes as [|n nodes IH]; intros Hall; cbn [visit_all]; [done|].
  rewrite (Hall n) by (by left). rewrite orb_true_r.
  apply IH. intros m Hm. apply Hall. by right.
Qed.

Hypothesis Horder : range_ok order.

Lemma range_elem site (keys : gset string) n : n ∈ order site keys <-> n ∈ keys.
Proof. by rewrite (Horder site keys), elem_of_elements. Qed.

(** A graph with a non-placeholder node and no cycle along the children
    is sorted. *)
Lemma TopologicalSort_acyclic g fl n :
  (forall m, ~ tc (spec.child_edge (heap g)) m m) -> inStack fl ⊆ Nodes g ->
  n ∈ Nodes g -> is_placeholder (heap g) n = false ->
  exists sorted fl',
    TopologicalSort order g fl = Some (Ok sorted, fl') /\ inStack fl' = ∅.
Proof.
  intros Hacyclic Hstack Hn Hreal. unfold TopologicalSort.
  destruct (Validate_acyclic g fl Hacyclic Hstack) as (fl1 & -> & Hclean).
  destruct (visit_all_post (heap g) (order RangeTopologicalSort (Nodes g))
              (reset_visited (Nodes g) fl1) [])
    as ([fl2 sorted] & -> & (Hsub & Hst & added & -> & Hnd & Hadded) & Hall).
  assert (n ∈ added) as Hin.
  { apply Hadded. split; [|split; [|done]].
    - apply Hall; [by apply range_elem | done].
    - simpl. set_solver. }
  destruct added as [|x added]; [by apply elem_of_nil in Hin|].
  simpl. eexists _, _. split; [done|]. simpl in Hst. congruence.
Qed.

(** A graph without cycles that has a non-placeholder node is batched. *)
Lemma GetStartupBatches_acyclic g fl n :
  spec.cycle_free (heap g) -> inStack fl ⊆ Nodes g ->
  n ∈ Nodes g -> is_placeholder (heap g) n = false ->
  exists batches fl',
    GetStartupBatches order g fl = Some (Ok batches, fl') /\ inStack fl' = ∅.
Proof.
  intros [Hchildren Hparents] Hstack Hn Hreal. unfold GetStartupBatches.
  destruct (TopologicalSort_acyclic g fl n Hchildren Hstack Hn Hreal)
    as (sorted & fl' & -> & Hclean).
  destruct (all_depths_total (heap g) (StartupOrder sorted) Hparents 0 ∅)
    as [[maxDepth depths] ->].
  eexists _, _. split; done.
Qed.

Lemma components_loop_acyclic (h : Heap) nodes :
  spec.cycle_free h ->
  forall fl components, inStack fl = ∅ ->
    exists components' fl',
      components_loop order h nodes fl components = Some (Ok components', fl')
      /\ inStack fl' = ∅.
Proof.
  intros Hfree. induction nodes as [|n nodes IH]; intros fl components Hclean;
    cbn [components_loop].
  { by eexists _, _. }
  destruct (bool_decide (n ∈ visited fl) || is_placeholder h n); [by apply IH|].
  destruct (findComponent_total h n fl) as (component & fl1 & -> & _ & Hst & Hcomp).
  destruct component as [|x component]; simpl; [apply IH; congruence|].
  unfold getBatchesForComponent.
  destruct (GetStartupBatches_acyclic
              {| heap := h; Nodes := list_to_set (x :: component) |} fl1 x)
    as (batches & fl2 & -> & Hclean2); simpl.
  - done.
  - rewrite Hst, Hclean. set_solver.
  - set_solver.
  - apply Hcomp. by left.
  - by apply IH.
Qed.

(** Every graph without cycles is split into components, whatever the
    order of iteration. *)
Lemma GetConnectedComponents_acyclic g fl :
  spec.cycle_free (heap g) -> inStack fl = ∅ ->
  exists components fl',
    GetConnectedComponents order g fl = Some (Ok components, fl').
Proof.
  intros Hfree Hclean. unfold GetConnectedComponents.
  destruct (components_loop_acyclic (heap g) (order RangeComponents (Nodes g)) Hfree
              (reset_visited (Nodes g) fl) []) as (components & fl' & -> & _); [done|].
  by eexists _, _.
Qed.
End sorting.

(** ** Shutdown order *)

Lemma GetShutdownBatches_rev order g fl :
  graph.GetShutdownBatches order g fl
  = spec.on_value (@rev (list string)) (graph.GetStartupBatches order g fl).
Proof.
  unfold graph.GetShutdownBatches, spec.on_value.
  destruct (graph.GetStartupBatches order g fl) as [[[e|batches] fl']|]; try done.
  by rewrite reverse_by_index_rev.
Qed.

Lemma GetConnectedComponentsForShutdown_rev order g fl :
  graph.GetConnectedComponentsForShutdown order g fl
  = spec.on_value (fmap spec.reversed) (graph.GetConnectedComponents order g fl).
Proof.
  unfold graph.GetConnectedComponentsForShutdown, spec.on_value.
  destruct (graph.GetConnectedComponents order g fl) as [[[e|components] fl']|];
    try done.
  do 3 f_equal. apply list_fmap_ext. intros i comp _.
  unfold spec.reversed. by rewrite reverse_by_index_rev.
Qed.

(** C7. For every cycle-free graph the components are computed, and the
    shutdown components are the startup components in the same order, each
    with its sequence of batches reversed: batch [k] of a component is,
    unchanged, batch [len - 1 - k] of its shutdown sequence. The same holds
    for [GetShutdownBatches] against [GetStartupBatches]. *)
Theorem shutdown_batches_reverse_startup (order : graph.RangeOrder) (g : graph.Graph)
    (fl : graph.Flags) :
  graph.range_ok order -> spec.cycle_free (graph.heap g) -> graph.inStack fl = ∅ ->
  exists components fl',
    graph.GetConnectedComponents order g fl = Some (Ok components, fl')
    /\ graph.GetConnectedComponentsForShutdown order g fl
       = Some (Ok (spec.reversed <$> components), fl')
    /\ (forall i comp k batch,
          components !! i = Some comp -> graph.Batches comp !! k = Some batch ->
          exists comp',
            (spec.reversed <$> components) !! i = Some comp'
            /\ graph.Batches comp' = rev (graph.Batches comp)
            /\ graph.Batches comp' !! (length (graph.Batches comp) - 1 - k)%nat
               = Some batch)
    /\ graph.GetShutdownBatches order g fl
       = spec.on_value (@rev (list string)) (graph.GetStartupBatches order g fl).
Proof.
  intros Horder Hfree Hclean.
  destruct (GetConnectedComponents_acyclic order Horder g fl Hfree Hclean)
    as (components & fl' & Hrun).
  exists components, fl'. split; [done|]. split; [|split].
  - by rewrite GetConnectedComponentsForShutdown_rev, Hrun.
  - intros i comp k batch Hi Hk. exists (spec.reversed comp).
    split; [by rewrite list_lookup_fmap, Hi|]. split; [done|]. simpl.
    pose proof (lookup_lt_Some _ _ _ Hk) as Hlt.
    rewrite rev_alt. fold (reverse (graph.Batches comp)).
    rewrite reverse_lookup by lia. rewrite <- Hk. f_equal. lia.
  - apply GetShutdownBatches_rev.
Qed.

(** ** Graphs without cycles, by rank *)

Lemma ranked_tc (R : relation string) (rank : string -> nat) :
  (forall x y, R x y -> (rank x < rank y)%nat) ->
  forall x y, tc R x y -> (rank x < rank y)%nat.
Proof.
  intros Hrank x y Htc. induction Htc as [x y Hxy | x y z Hxy _ IH].
  - by apply Hrank.
  - specialize (Hrank x y Hxy). lia.
Qed.

Lemma ranked_tc_down (R : relation string) (rank : string -> nat) :
  (forall x y, R x y -> (rank y < rank x)%nat) ->
  forall x y, tc R x y -> (rank y < rank x)%nat.
Proof.
  intros Hrank x y Htc. induction Htc as [x y Hxy | x y z Hxy _ IH].
  - by apply Hrank.
  - specialize (Hrank x y Hxy). lia.
Qed.

Lemma ranked_cycle_free rank h : examples.ranked rank h -> spec.cycle_free h.
Proof.
  intros Hranked. split; intros m Hm.
  - apply (ranked_tc (spec.child_edge h) rank) in Hm; [lia|].
    intros x y. unfold spec.child_edge, graph.children_of.
    destruct (h !! x) as [nd|] eqn:Hx; [|by intros ?%elem_of_nil].
    destruct (Hranked x nd Hx) as [_ Hc]. rewrite Forall_forall in Hc. apply Hc.
  - apply (ranked_tc_down (spec.parent_edge h) rank) in Hm; [lia|].
    intros x y. unfold spec.parent_edge, graph.parents_of.
    destruct (h !! x) as [nd|] eqn:Hx; [|by intros ?%elem_of_nil].
    destruct (Hranked x nd Hx) as [Hp _]. rewrite Forall_forall in Hp. apply Hp.
Qed.

Lemma in_key_order_ok : graph.range_ok examples.in_key_order.
Proof. intros site keys. reflexivity. Qed.

Lemma chain_cycle_free : spec.cycle_free (graph.heap (examples.build examples.chain)).
Proof.
  apply (ranked_cycle_free
           (examples.rank_of [("a"%string, 0%nat); ("b"%string, 1%nat); ("c"%string, 2%nat)])).
  apply (bool_decide_unpack _). vm_compute. reflexivity.
Qed.

(** C7 at the chain [a], [b], [c]. *)
Lemma shutdown_batches_reverse_startup_witness :
  exists components fl',
    graph.GetConnectedComponents examples.in_key_order
      (examples.build examples.chain) graph.no_flags = Some (Ok components, fl')
    /\ graph.GetConnectedComponentsForShutdown examples.in_key_order
         (examples.build examples.chain) graph.no_flags
       = Some (Ok (spec.reversed <$> components), fl').
Proof.
  destruct (shutdown_batches_reverse_startup examples.in_key_order
              (examples.build examples.chain) graph.no_flags
              in_key_order_ok chain_cycle_free eq_refl)
    as (components & fl' & Hstart & Hstop & _).
  exists components, fl'. split; assumption.
Defined.

(** ** Graphs without containers *)

(** C10. For every graph whose node set contains no non-placeholder node
    (the empty graph, a graph of placeholders), [TopologicalSort], and
    with it [GetStartupBatches] and [GetShutdownBatches], returns an
    error, never an ordering. The error is that of the cycle check when the
    check finds a cycle among the placeholders; when the graph has no
    cycle it is [no containers to sort]. *)
Theorem no_containers_is_an_error (order : graph.RangeOrder) (g : graph.Graph)
    (fl : graph.Flags) :
  graph.range_ok order ->
  (forall n, n ∈ graph.Nodes g -> graph.is_placeholder (graph.heap g) n = true) ->
  exists e fl',
    graph.TopologicalSort order g fl = Some (Err e, fl')
    /\ graph.GetStartupBatches order g fl = Some (Err e, fl')
    /\ graph.GetShutdownBatches order g fl = Some (Err e, fl')
    /\ (e = ErrNoContainers \/ exists cycle, e = ErrCircularDependency cycle)
    /\ ((forall m, ~ tc (spec.child_edge (graph.heap g)) m m) ->
        graph.inStack fl ⊆ graph.Nodes g ->
        e = ErrNoContainers
        /\ error_string e = "no containers to sort"%string).
Proof.
  intros Horder Hall.
  assert (exists e fl',
    graph.TopologicalSort order g fl = Some (Err e, fl')
    /\ (e = ErrNoContainers \/ exists cycle, e = ErrCircularDependency cycle)
    /\ ((forall m, ~ tc (spec.child_edge (graph.heap g)) m m) ->
        graph.inStack fl ⊆ graph.Nodes g -> e = ErrNoContainers))
    as (e & fl' & Hsort & Hkind & Hacyclic).
  { unfold graph.TopologicalSort.
    assert (forall fl1,
      graph.visit_all (graph.heap g) (order graph.RangeTopologicalSort (graph.Nodes g))
        (graph.reset_visited (graph.Nodes g) fl1) []
      = Some (graph.reset_visited (graph.Nodes g) fl1, [])) as Hskip.
    { intros fl1. apply visit_all_skip. intros n Hn%(range_elem order Horder).
      by apply Hall. }
    destruct (Validate_total order g fl) as [[[e|[]] fl1] Hv].
    - rewrite Hv. exists e, fl1. split; [done|]. split.
      + unfold graph.Validate in Hv.
        destruct (graph.HasCycles order g fl) as [[[[] fl2] cycle]|]; [| done | done].
        injection Hv as <- <-. right. by eexists.
      + intros Hfree Hstack.
        destruct (Validate_acyclic order g fl Hfree Hstack) as (fl3 & Hv' & _).
        congruence.
    - rewrite Hv, Hskip. simpl. eexists _, _. split; [done|]. split; [by left | done]. }
  exists e, fl'. split; [done|].
  assert (graph.GetStartupBatches order g fl = Some (Err e, fl')) as Hstart.
  { unfold graph.GetStartupBatches. by rewrite Hsort. }
  split; [done|]. split.
  { unfold graph.GetShutdownBatches. by rewrite Hstart. }
  split; [done|]. intros Hfree Hstack.
  rewrite (Hacyclic Hfree Hstack). done.
Qed.

(** C10 at the graph of one placeholder. *)
Lemma no_containers_is_an_error_witness :
  exists e fl',
    graph.TopologicalSort examples.in_key_order examples.lone_placeholder graph.no_flags
      = Some (Err e, fl')
    /\ error_string e = "no containers to sort"%string.
Proof.
  destruct (no_containers_is_an_error examples.in_key_order examples.lone_placeholder
              graph.no_flags in_key_order_ok)
    as (e & fl' & Hsort & _ & _ & _ & Hmsg).
  - intros n Hn. unfold examples.lone_placeholder in Hn. simpl in Hn.
    apply elem_of_singleton in Hn as ->. reflexivity.
  - exists e, fl'. split; [exact Hsort|].
    apply Hmsg; [|done].
    apply (ranked_cycle_free (fun _ => 0%nat)).
    apply (bool_decide_unpack _). vm_compute. reflexivity.
Defined.

(** ** Placeholders with parents *)

Lemma NoDup_list_filter {A} (f : A -> bool) (l : list A) :
  NoDup l -> NoDup (List.filter f l).
Proof.
  induction 1 as [|x l Hx _ IH]; simpl; [constructor|].
  destruct (f x); [|done]. constructor; [|done].
  by intros [? _]%elem_of_filter.
Qed.

Lemma prefer_ok first : NoDup first -> graph.range_ok (examples.prefer first).
Proof.
  intros Hnd site keys. unfold examples.prefer.
  apply NoDup_Permutation.
  - apply NoDup_app. split; [|split].
    + by apply NoDup_list_filter.
    + intros x [Hx _]%elem_of_filter [_ Hout]%elem_of_filter.
      apply negb_true_iff, bool_decide_eq_false in Hout. done.
    + apply NoDup_list_filter, NoDup_elements.
  - apply NoDup_elements.
  - intros x. rewrite elem_of_app, !elem_of_filter, elem_of_elements.
    rewrite negb_true_iff, bool_decide_eq_false, bool_decide_eq_true.
    destruct (decide (x ∈ first)); tauto.
Qed.

(** C1, failing input. [Build] hangs the dependencies of a listed but
    opted-out container on the placeholder that an earlier container made
    for it, and the sort of one component marks, through such a
    placeholder, nodes of components that are yet to be found. With [app]
    walked first, [base] lands in the batches of [app]'s component and
    [web], which needs [base], is alone in batch 1 of a component whose
    batch 0 is empty: the graph has no cycle, and the non-placeholder
    parent [base] of [web] is in no earlier batch of [web]'s component. *)
Theorem batch_order_broken_by_opted_out_dependency :
  let g := examples.build examples.opted_out_middle in
  let order := examples.prefer ["app"%string; "web"%string] in
  graph.range_ok order
  /\ spec.cycle_free (graph.heap g)
  /\ fst <$> graph.GetConnectedComponents order g graph.no_flags
     = Some (Ok [ {| graph.Batches := [["base"%string; "app"%string]] |};
                  {| graph.Batches := [[]; ["web"%string]] |} ])
  /\ ~ spec.batch_order (graph.heap g) [[]; ["web"%string]].
Proof.
  intros g order. split; [|split; [|split]].
  - apply prefer_ok. apply (bool_decide_unpack _). vm_compute. reflexivity.
  - apply (ranked_cycle_free
             (examples.rank_of [("base"%string, 0%nat); ("db"%string, 1%nat);
                                ("web"%string, 1%nat); ("app"%string, 2%nat)])).
    apply (bool_decide_unpack _). vm_compute. reflexivity.
  - vm_compute. reflexivity.
  - intros Horder.
    destruct (Horder 1%nat ["web"%string] "web"%string "base"%string)
      as (j & batch' & Hj & Hbatch & Hin).
    + reflexivity.
    + by left.
    + vm_compute. reflexivity.
    + unfold spec.parent_edge. vm_compute. by left.
    + vm_compute. reflexivity.
    + assert (j = 0%nat) as -> by lia. injection Hbatch as <-.
      by apply elem_of_nil in Hin.
Qed.

(** C2, failing input. [a] needs [b] and the opted-out [b] names [a]: the
    graph that [Build] makes has the cycle [a], [b], [a], and
    [TopologicalSort] rejects it. With [x] walked first,
    [GetConnectedComponents] reports no error: the cycle check of [x]'s
    component does not reach the cycle, its sort marks [a] through the
    placeholder [b], and [a] is never checked. [StartContainers] then
    starts [a] and [x], [StopContainers] stops them, and the job ends
    Completed with an empty error string. *)
Theorem cycle_through_opted_out_dependency_missed :
  let g := examples.build examples.opted_out_cycle in
  let order := examples.prefer ["x"%string] in
  graph.range_ok order
  /\ tc (spec.parent_edge (graph.heap g)) "a"%string "a"%string
  /\ fst <$> graph.TopologicalSort order g graph.no_flags
     = Some (Err (ErrCircularDependency ["a"%string; "b"%string; "a"%string]))
  /\ fst <$> graph.GetConnectedComponents order g graph.no_flags
     = Some (Ok [ {| graph.Batches := [["a"%string; "x"%string]] |} ])
  /\ orchestrator.StartContainers examples.no_unicode order
       (examples.daemon examples.opted_out_cycle [])
       {| orchestrator.StartTimeout := 600; orchestrator.StartIgnore := [] |}
     = Some (Ok {| orchestrator.Started := ["a"%string; "x"%string];
                   orchestrator.StartSkipped := [];
                   orchestrator.StartFailed := [] |},
             [orchestrator.ActStart "id-a"; orchestrator.ActStart "id-x"])
  /\ orchestrator.StopContainers examples.no_unicode order
       (examples.daemon_running examples.opted_out_cycle)
       {| orchestrator.StopTimeoutOpt := 300; orchestrator.StopIgnore := [] |}
     = Some (Ok {| orchestrator.Stopped := ["a"%string; "x"%string];
                   orchestrator.StopSkipped := [];
                   orchestrator.StopFailed := [] |},
             [orchestrator.ActStop "id-a" 10; orchestrator.ActStop "id-x" 10])
  /\ (jobs.Status <$>
        jobs.processJob examples.no_unicode order
          (examples.daemon examples.opted_out_cycle [])
          (1001 * jobs.Second) (1002 * jobs.Second)
          (examples.job0 jobs.JobTypeStart))
     = Some jobs.JobStatusCompleted.
Proof.
  intros g order. split; [|split; [|split; [|split; [|split; [|split]]]]].
  - apply prefer_ok. apply (bool_decide_unpack _). vm_compute. reflexivity.
  - apply (tc_l _ _ "b"%string).
    + unfold spec.parent_edge. vm_compute. by left.
    + apply tc_once. unfold spec.parent_edge. vm_compute. by left.
  - vm_compute. reflexivity.
  - vm_compute. reflexivity.
  - vm_compute. reflexivity.
  - vm_compute. reflexivity.
  - vm_compute. reflexivity.
Qed.

(** ** The cycle check finds every cycle *)

Section cycle_check.
Import graph.
Variable h : Heap.

Lemma finished_reach fl u v :
  spec.finished_closed h fl -> u ∈ spec.finished fl ->
  rtc (spec.child_edge h) u v -> v ∈ spec.finished fl.
Proof.
  intros (_ & Hclosed & _) Hu Hreach.
  induction Hreach as [|u w v Huw _ IH]; [done|]. apply IH. by eapply Hclosed.
Qed.

Lemma tc_first_step (R : relation string) x z :
  tc R x z -> exists y, R x y /\ rtc R y z.
Proof.
  intros Htc. destruct Htc as [x z Hxz | x y z Hxy Hyz].
  - exists z. split; [done | reflexivity].
  - exists y. split; [done | by apply tc_rtc].
Qed.

Lemma dfs_children_finished (rec : string -> Flags -> list string -> option dfs_result)
    (node : string) (children : list string) :
  (forall c fl cycle r, rec c fl cycle = Some r -> spec.dfs_post c fl cycle r) ->
  (forall c fl cycle fl' cycle',
     rec c fl cycle = Some (false, fl', cycle') ->
     spec.finished_closed h fl ->
     spec.finished_closed h fl' /\ c ∈ spec.finished fl') ->
  forall fl cycle fl' cycle',
    dfs_children rec node children fl cycle = Some (false, fl', cycle') ->
    spec.finished_closed h fl ->
    exists flk, fl' = set_inStack node false flk
      /\ spec.finished_closed h flk /\ inStack flk = inStack fl
      /\ visited fl ⊆ visited flk
      /\ (forall c, c ∈ children -> c ∈ spec.finished flk).
Proof.
  intros Hpost Hrec. induction children as [|c children IH];
    intros fl cycle fl' cycle' Hrun Hinv; simpl in Hrun.
  - injection Hrun as <- <-. exists fl. repeat split; try done; try apply Hinv.
    by intros c ?%elem_of_nil.
  - destruct (rec c fl cycle) as [[[[] fl1] cycle1]|] eqn:Hc; [done | | done].
    pose proof (Hpost _ _ _ _ Hc) as [Hsub Hfalse].
    destruct (Hfalse eq_refl) as (Hst & -> & _).
    destruct (Hrec _ _ _ _ _ Hc Hinv) as [Hinv1 Hc1].
    destruct (IH _ _ _ _ Hrun Hinv1) as (flk & -> & Hinvk & Hstk & Hsubk & Hall).
    exists flk. split; [done|]. split; [done|]. split; [congruence|].
    split; [set_solver|].
    intros c' [-> | Hc']%elem_of_cons; [|by apply Hall].
    unfold spec.finished in *. set_solver.
Qed.

(** A [dfs] that finds no cycle finishes its node and keeps the finished
    nodes closed and free of cycles. *)
Lemma dfs_finished fuel : forall n fl cycle fl' cycle',
  dfs fuel h n fl cycle = Some (false, fl', cycle') ->
  spec.finished_closed h fl ->
  spec.finished_closed h fl' /\ n ∈ spec.finished fl'.
Proof.
  induction fuel as [|fuel IH]; intros n fl cycle fl' cycle' Hrun Hinv; [done|].
  simpl in Hrun.
  destruct (decide (n ∈ inStack fl)) as [Hin | Hout]; [done|].
  destruct (decide (n ∈ visited fl)) as [Hseen | Hfresh].
  { injection Hrun as <- <-. split; [done|]. unfold spec.finished. set_solver. }
  set (fl1 := set_inStack n true (set_visited n fl)) in *.
  assert (spec.finished fl1 = spec.finished fl) as Hsame.
  { unfold spec.finished, fl1. simpl. set_solver. }
  assert (spec.finished_closed h fl1) as Hinv1.
  { destruct Hinv as (Hsub & Hclosed & Hfree). unfold spec.finished_closed.
    rewrite Hsame. split; [|done]. unfold fl1. simpl. set_solver. }
  destruct (dfs_children_finished (dfs fuel h) n (children_of h n)
              (dfs_post_holds h fuel) IH _ _ _ _ Hrun Hinv1)
    as (flk & -> & (Hsubk & Hclosedk & Hfreek) & Hstk & Hvis & Hall).
  assert (n ∈ inStack flk) as Hnk by (rewrite Hstk; unfold fl1; simpl; set_solver).
  assert (spec.finished (set_inStack n false flk) = {[n]} ∪ spec.finished flk) as Hfin.
  { unfold spec.finished. simpl. apply set_eq. intros x.
    rewrite !elem_of_union, !elem_of_difference, elem_of_singleton.
    destruct (decide (x = n)) as [-> | Hne]; [|set_solver].
    split; [by left|]. intros _. split; [set_solver | set_solver]. }
  assert (n ∉ spec.finished flk) as Hnot by (unfold spec.finished; set_solver).
  split; [|rewrite Hfin; set_solver].
  unfold spec.finished_closed. rewrite Hfin. split; [simpl; set_solver|]. split.
  - intros u c [->%elem_of_singleton | Hu]%elem_of_union Hedge.
    + apply elem_of_union_r. by apply Hall.
    + apply elem_of_union_r. by eapply Hclosedk.
  - intros u [->%elem_of_singleton | Hu]%elem_of_union; [|by apply Hfreek].
    intros (c & Hedge & Hback)%tc_first_step. apply Hnot.
    apply (finished_reach flk c n); [done | by apply Hall | done].
Qed.

Lemma HasCycles_loop_finished nodes : forall fl cycle fl' cycle',
  HasCycles_loop h nodes fl cycle = Some (false, fl', cycle') ->
  spec.finished_closed h fl -> inStack fl = ∅ ->
  spec.finished_closed h fl' /\ inStack fl' = ∅
  /\ (forall n, n ∈ nodes -> n ∈ spec.finished fl').
Proof.
  induction nodes as [|n nodes IH]; intros fl cycle fl' cycle' Hrun Hinv Hclean;
    cbn [HasCycles_loop] in Hrun.
  - injection Hrun as <- <-. split; [done|]. split; [done|].
    by intros n ?%elem_of_nil.
  - assert (forall fl1, visited fl ⊆ visited fl1 -> inStack fl1 = ∅ ->
              n ∈ visited fl1 ->
              HasCycles_loop h nodes fl1 cycle = Some (false, fl', cycle') ->
              spec.finished_closed h fl1 ->
              spec.finished_closed h fl' /\ inStack fl' = ∅
              /\ (forall m, m ∈ n :: nodes -> m ∈ spec.finished fl')) as Hrest.
    { intros fl1 Hsub Hclean1 Hn Hrun1 Hinv1.
      destruct (IH _ _ _ _ Hrun1 Hinv1 Hclean1) as (Hinv' & Hclean' & Hall).
      split; [done|]. split; [done|].
      intros m [-> | Hm]%elem_of_cons; [|by apply Hall].
      assert (visited fl1 ⊆ visited fl') as Hsub'.
      { clear -Hrun1. revert fl1 Hrun1.
        induction nodes as [|k nodes IHn]; intros fl1 Hrun1; cbn [HasCycles_loop] in Hrun1.
        - by injection Hrun1 as <- <-.
        - destruct (decide (k ∈ visited fl1)); [by apply IHn|].
          destruct (dfs (depth_bound h) h k fl1 cycle) as [[[[] fl2] cycle2]|] eqn:Hk;
            [done | | done].
          apply dfs_post_holds in Hk as [Hsub Hfalse].
          destruct (Hfalse eq_refl) as (_ & -> & _).
          apply IHn in Hrun1. set_solver. }
      unfold spec.finished. rewrite Hclean'. set_solver. }
    destruct (decide (n ∈ visited fl)) as [Hseen | Hfresh]; [by apply (Hrest fl)|].
    destruct (dfs (depth_bound h) h n fl cycle) as [[[[] fl1] cycle1]|] eqn:Hn;
      [done | | done].
    destruct (dfs_finished _ _ _ _ _ _ Hn Hinv) as [Hinv1 Hn1].
    apply dfs_post_holds in Hn as [Hsub Hfalse].
    destruct (Hfalse eq_refl) as (Hst & -> & Hvis).
    apply (Hrest fl1); [done | congruence | done | done | done].
Qed.
End cycle_check.

(** ** Reversal in place *)

Section in_place.
Context {A : Type}.

Lemma rev_is_reverse (l : list A) : rev l = reverse l.
Proof. unfold reverse. apply rev_alt. Qed.

Lemma swap_length (i j : nat) (l : list A) : length (swap i j l) = length l.
Proof.
  unfold swap. destruct (l !! i), (l !! j); try done.
  by rewrite !length_insert.
Qed.

Lemma swap_lookup (i j k : nat) (l : list A) :
  (i < length l)%nat -> (j < length l)%nat ->
  swap i j l !! k =
    if decide (k = i) then l !! j else if decide (k = j) then l !! i else l !! k.
Proof.
  intros Hi Hj. unfold swap.
  destruct (lookup_lt_is_Some_2 l i Hi) as [a Ha].
  destruct (lookup_lt_is_Some_2 l j Hj) as [b Hb]. rewrite Ha, Hb.
  destruct (decide (k = i)) as [-> | Hki].
  - by rewrite list_lookup_insert_eq by (rewrite length_insert; lia).
  - rewrite list_lookup_insert_ne by done.
    destruct (decide (k = j)) as [-> | Hkj].
    + by rewrite list_lookup_insert_eq by lia.
    + by rewrite list_lookup_insert_ne by done.
Qed.

Lemma reverse_swaps (l0 : list A) (count : nat) : forall (start : nat) (l : list A),
  length l = length l0 -> (2 * (start + count) <= length l0)%nat ->
  (forall j, (j < length l0)%nat ->
     l !! j = if bool_decide (j < start \/ length l0 - start <= j)%nat
              then l0 !! (length l0 - 1 - j)%nat else l0 !! j) ->
  let out := foldl (fun l i => swap i (length l - 1 - i)%nat l) l (seq start count) in
  length out = length l0
  /\ forall j, (j < length l0)%nat ->
       out !! j = if bool_decide (j < start + count \/ length l0 - (start + count) <= j)%nat
                  then l0 !! (length l0 - 1 - j)%nat else l0 !! j.
Proof.
  induction count as [|count IH]; intros start l Hlen Hhalf Hinv; cbn [seq foldl].
  - split; [done|]. intros j Hj. rewrite Hinv by done.
    by replace (start + 0)%nat with start by lia.
  - replace (start + S count)%nat with (S start + count)%nat in * by lia.
    apply IH; [by rewrite swap_length | done |].
    intros j Hj. rewrite swap_lookup by lia. rewrite Hlen.
    destruct (decide (j = start)) as [-> | Hne1].
    { rewrite Hinv by lia. rewrite bool_decide_false by lia.
      by rewrite bool_decide_true by lia. }
    destruct (decide (j = length l0 - 1 - start)%nat) as [-> | Hne2].
    { rewrite Hinv by lia. rewrite bool_decide_false by lia.
      rewrite bool_decide_true by lia. f_equal. lia. }
    rewrite Hinv by done.
    destruct (decide (j < start \/ length l0 - start <= j)%nat).
    + rewrite bool_decide_true by done. by rewrite bool_decide_true by lia.
    + rewrite bool_decide_false by done. by rewrite bool_decide_false by lia.
Qed.

(** Swapping the mirrored pairs up to the middle reverses the slice. *)
Lemma reverse_in_place_rev (l : list A) : reverse_in_place l = rev l.
Proof.
  unfold reverse_in_place.
  pose proof (Nat.Div0.mul_div_le (length l) 2) as Hdown.
  pose proof (Nat.mul_succ_div_gt (length l) 2) as Hup.
  destruct (reverse_swaps l (length l / 2) 0 l) as [Hlen Hout]; [done | lia | |].
  { intros j Hj. by rewrite bool_decide_false by lia. }
  rewrite rev_is_reverse. apply list_eq. intros j.
  destruct (decide (j < length l)%nat) as [Hj | Hj].
  - rewrite Hout by done. rewrite reverse_lookup by done.
    destruct (decide (j < 0 + length l / 2 \/ length l - (0 + length l / 2) <= j)%nat).
    + rewrite bool_decide_true by done. f_equal. lia.
    + rewrite bool_decide_false by done. f_equal. lia.
  - rewrite !lookup_ge_None_2; [done | rewrite length_reverse; lia | lia].
Qed.
End in_place.

(** ** The cycle that the check reports *)

Section reported_cycle.
Import graph.
Variable h : Heap.

Lemma back_path_snoc l c n :
  spec.back_path h l -> last l = Some c -> spec.child_edge h n c ->
  spec.back_path h (l ++ [n]).
Proof.
  intros Hpath Hlast Hedge i x y Hx Hy.
  destruct (decide (S i < length l)%nat) as [Hin | Hout].
  - rewrite lookup_app_l in Hx by lia. rewrite lookup_app_l in Hy by lia.
    by eapply Hpath.
  - assert (length l <> 0)%nat by (destruct l; [done | simpl; lia]).
    assert (S i = length l) as Hi.
    { apply lookup_lt_Some in Hy. rewrite length_app in Hy. simpl in Hy. lia. }
    rewrite lookup_app_l in Hx by lia.
    rewrite lookup_app_r in Hy by lia.
    rewrite Hi, Nat.sub_diag in Hy. injection Hy as <-.
    rewrite last_lookup in Hlast. rewrite <- Hi in Hlast. simpl in Hlast.
    congruence.
Qed.

Lemma dfs_children_found (rec : string -> Flags -> list string -> option dfs_result)
    (node : string) (stack : gset string) (children : list string) :
  (forall c fl cycle r, rec c fl cycle = Some r -> spec.dfs_post c fl cycle r) ->
  (forall c fl cycle fl' cycle',
     rec c fl cycle = Some (true, fl', cycle') -> inStack fl = {[node]} ∪ stack ->
     exists l, cycle' = cycle ++ l /\ spec.found_path h c ({[node]} ∪ stack) l) ->
  (forall c, c ∈ children -> spec.child_edge h node c) ->
  forall fl cycle fl' cycle',
    dfs_children rec node children fl cycle = Some (true, fl', cycle') ->
    inStack fl = {[node]} ∪ stack ->
    exists l, cycle' = cycle ++ l /\ spec.found_path h node stack l.
Proof.
  intros Hpost Hrec. induction children as [|c children IH];
    intros Hedges fl cycle fl' cycle' Hrun Hstack; simpl in Hrun; [done|].
  destruct (rec c fl cycle) as [[[[] fl1] cycle1]|] eqn:Hc; [| | done].
  - injection Hrun as <- <-.
    destruct (Hrec _ _ _ _ _ Hc Hstack)
      as (l & -> & Hpath & Hlast & t & rest & -> & Ht).
    exists ((t :: rest) ++ [node]). split; [by rewrite app_assoc|].
    split; [|split].
    + apply (back_path_snoc _ c); [done | done |]. apply Hedges. by left.
    + by rewrite last_snoc.
    + exists t, (rest ++ [node]). split; [done|].
      destruct Ht as [[->%elem_of_singleton | Ht]%elem_of_union | Ht].
      * right. apply elem_of_app. right. by left.
      * by left.
      * right. apply elem_of_app. by left.
  - pose proof (Hpost _ _ _ _ Hc) as [_ Hfalse].
    destruct (Hfalse eq_refl) as (Hst & -> & _).
    apply (IH (fun c' Hc' => Hedges c' (proj2 (elem_of_cons _ _ _) (or_intror Hc')))
              _ _ _ _ Hrun). congruence.
Qed.

(** A [dfs] that finds a cycle appends to the cycle under construction a
    path back from a node on the stack, or on the path itself, to its
    node. *)
Lemma dfs_found fuel : forall n fl cycle fl' cycle',
  dfs fuel h n fl cycle = Some (true, fl', cycle') ->
  exists l, cycle' = cycle ++ l /\ spec.found_path h n (inStack fl) l.
Proof.
  induction fuel as [|fuel IH]; intros n fl cycle fl' cycle' Hrun; [done|].
  simpl in Hrun.
  destruct (decide (n ∈ inStack fl)) as [Hin | Hout].
  { injection Hrun as <- <-. exists [n]. split; [done|]. split; [|split].
    - intros i x y Hx Hy. by destruct i.
    - done.
    - exists n, []. split; [done | by left]. }
  destruct (decide (n ∈ visited fl)) as [Hseen | Hfresh]; [done|].
  apply (dfs_children_found (dfs fuel h) n (inStack fl) (children_of h n)
           (dfs_post_holds h fuel)) in Hrun; [done | | done | done].
  intros c fl0 cycle0 fl0' cycle0' Hc Hst.
  destruct (IH _ _ _ _ _ Hc) as (l & -> & Hfound). exists l. split; [done|].
  by rewrite <- Hst.
Qed.

Lemma found_path_names_cycle n l :
  spec.found_path h n ∅ l -> spec.names_cycle h (rev l).
Proof.
  intros (Hpath & _ & t & rest & -> & [[]%elem_of_empty | Ht]).
  split.
  - intros i x y Hx Hy. rewrite rev_is_reverse in Hx, Hy.
    pose proof (lookup_lt_Some _ _ _ Hy) as Hlt. rewrite length_reverse in Hlt.
    rewrite reverse_lookup in Hx by lia. rewrite reverse_lookup in Hy by lia.
    apply (Hpath (length (t :: rest) - S (S i))%nat); [done|].
    by replace (S (length (t :: rest) - S (S i)))
         with (length (t :: rest) - S i)%nat by lia.
  - apply list_elem_of_split in Ht as (after & before & ->).
    exists (rev before), t, (rev after). simpl.
    rewrite rev_app_distr. simpl. by rewrite <- !app_assoc.
Qed.

(** A list that names a cycle does name one: its last node reaches
    itself along the children. *)
Lemma names_cycle_tc cycle :
  spec.names_cycle h cycle -> exists t, last cycle = Some t /\ tc (spec.child_edge h) t t.
Proof.
  intros (Hpath & lead & t & loop & ->). exists t. split.
  { by rewrite app_comm_cons, app_assoc, last_snoc. }
  assert (forall l x, (forall i a b, (x :: l ++ [t]) !! i = Some a ->
            (x :: l ++ [t]) !! S i = Some b -> spec.child_edge h a b) ->
          tc (spec.child_edge h) x t) as Hwalk.
  { induction l as [|y l IHl]; intros x Hedges.
    - apply tc_once. by apply (Hedges 0%nat).
    - eapply tc_l; [by apply (Hedges 0%nat)|].
      apply IHl. intros i a b Ha Hb. by apply (Hedges (S i)). }
  apply (Hwalk loop). intros i a b Ha Hb.
  apply (Hpath (length lead + i)%nat).
  - by rewrite lookup_app_r, Nat.add_comm, Nat.add_sub by lia.
  - replace (S (length lead + i)) with (length lead + S i)%nat by lia.
    by rewrite lookup_app_r, Nat.add_comm, Nat.add_sub by lia.
Qed.

Lemma HasCycles_loop_found nodes : forall fl fl' cycle,
  HasCycles_loop h nodes fl [] = Some (true, fl', cycle) -> inStack fl = ∅ ->
  spec.names_cycle h cycle.
Proof.
  induction nodes as [|n nodes IH]; intros fl fl' cycle Hrun Hclean;
    cbn [HasCycles_loop] in Hrun; [done|].
  destruct (decide (n ∈ visited fl)); [by eapply IH|].
  destruct (dfs (depth_bound h) h n fl []) as [[[[] fl1] cycle1]|] eqn:Hn; [| | done].
  - injection Hrun as <- <-.
    apply dfs_found in Hn as (l & -> & Hfound). rewrite Hclean in Hfound.
    simpl. rewrite reverse_in_place_rev. by eapply found_path_names_cycle.
  - apply dfs_post_holds in Hn as [_ Hfalse].
    destruct (Hfalse eq_refl) as (Hst & -> & _).
    apply (IH _ _ _ Hrun). congruence.
Qed.
End reported_cycle.

(** ** A cycle is always an error on a fresh graph *)

Section cyclic.
Import graph.
Variable order : RangeOrder.
Hypothesis Horder : range_ok order.

(** When the flags of no node outside the graph are set, a cycle through
    one of its nodes makes [HasCycles] answer true and report a list that
    names a cycle. *)
Lemma HasCycles_cyclic g fl n :
  visited fl ⊆ Nodes g -> inStack fl ⊆ Nodes g ->
  n ∈ Nodes g -> tc (spec.child_edge (heap g)) n n ->
  exists fl' cycle,
    HasCycles order g fl = Some (true, fl', cycle)
    /\ spec.names_cycle (heap g) cycle.
Proof.
  intros Hvis Hst Hn Hcycle. unfold HasCycles.
  set (fl0 := reset_cycle_flags (Nodes g) fl).
  assert (visited fl0 = ∅) as Hvis0 by (unfold fl0; simpl; set_solver).
  assert (inStack fl0 = ∅) as Hst0 by (unfold fl0; simpl; set_solver).
  destruct (HasCycles_loop_total (heap g) (order RangeHasCycles (Nodes g)) fl0 [])
    as [[[found fl'] cycle] Hrun].
  destruct found.
  - exists fl', cycle. split; [done|]. by eapply HasCycles_loop_found.
  - exfalso.
    destruct (HasCycles_loop_finished (heap g) _ _ _ _ _ Hrun) as (Hinv & _ & Hall).
    + unfold spec.finished_closed, spec.finished. rewrite Hvis0, Hst0.
      split; [done|]. split; intros u; set_solver.
    + done.
    + destruct Hinv as (_ & _ & Hfree). apply (Hfree n); [|done].
      apply Hall. rewrite (Horder RangeHasCycles (Nodes g)). by apply elem_of_elements.
Qed.

(** X1. On a graph none of whose flags is set outside its nodes (a graph
    fresh from [Build], or one that only whole-graph calls have walked),
    a cycle along the children through one of its nodes is always an
    error: [Validate], [TopologicalSort], [GetStartupBatches] and
    [GetShutdownBatches] all return [ErrCircularDependency] with the same
    list of names, whatever the order of iteration, and the list names a
    cycle: it is a path along the children whose last node occurs earlier
    on it. *)
Theorem cycle_in_whole_graph_is_an_error g fl n :
  visited fl ⊆ Nodes g -> inStack fl ⊆ Nodes g ->
  n ∈ Nodes g -> tc (spec.child_edge (heap g)) n n ->
  exists fl' cycle,
    spec.names_cycle (heap g) cycle
    /\ Validate order g fl = Some (Err (ErrCircularDependency cycle), fl')
    /\ TopologicalSort order g fl = Some (Err (ErrCircularDependency cycle), fl')
    /\ GetStartupBatches order g fl = Some (Err (ErrCircularDependency cycle), fl')
    /\ GetShutdownBatches order g fl = Some (Err (ErrCircularDependency cycle), fl').
Proof.
  intros Hvis Hst Hn Hcycle.
  destruct (HasCycles_cyclic g fl n Hvis Hst Hn Hcycle) as (fl' & cycle & Hrun & Hnames).
  exists fl', cycle. split; [done|].
  assert (Validate order g fl = Some (Err (ErrCircularDependency cycle), fl')) as Hval.
  { unfold Validate. by rewrite Hrun. }
  assert (TopologicalSort order g fl = Some (Err (ErrCircularDependency cycle), fl')) as Hsort.
  { unfold TopologicalSort. by rewrite Hval. }
  assert (GetStartupBatches order g fl = Some (Err (ErrCircularDependency cycle), fl')) as Hup.
  { unfold GetStartupBatches. by rewrite Hsort. }
  repeat split; try done. unfold GetShutdownBatches. by rewrite Hup.
Qed.
End cyclic.

(** ** Batches of a whole graph are in dependency order *)

Section visit_reach.
Import graph.
Variable h : Heap.

Lemma visit_closed_refl starts fl : spec.visit_closed h starts fl fl.
Proof. by intros x Hx Hnot. Qed.

Lemma visit_closed_trans starts1 starts2 starts fl fl1 fl2 :
  (forall s, s ∈ starts1 -> s ∈ starts) -> (forall s, s ∈ starts2 -> s ∈ starts) ->
  visited fl1 ⊆ visited fl2 ->
  spec.visit_closed h starts1 fl fl1 -> spec.visit_closed h starts2 fl1 fl2 ->
  spec.visit_closed h starts fl fl2.
Proof.
  intros Hin1 Hin2 Hsub H1 H2 x Hx Hnot.
  destruct (decide (x ∈ visited fl1)) as [Hx1 | Hx1].
  - destruct (H1 x Hx1 Hnot) as [(s & Hs & Hreach) Hparents].
    split; [exists s; split; [by apply Hin1 | done]|].
    intros p Hp. apply Hsub. by apply Hparents.
  - destruct (H2 x Hx Hx1) as [(s & Hs & Hreach) Hparents].
    split; [exists s; split; [by apply Hin2 | done] | done].
Qed.

Lemma visit_parents_closed (rec : string -> Flags -> list string -> option (Flags * list string))
    (parents : list string) :
  (forall p fl sorted r, rec p fl sorted = Some r ->
     spec.visit_post h p fl sorted r /\ spec.visit_closed h [p] fl r.1) ->
  forall fl sorted r,
    visit_parents rec parents fl sorted = Some r ->
    spec.visit_closed h parents fl r.1.
Proof.
  intros Hrec. induction parents as [|p parents IH]; intros fl sorted r Hrun;
    simpl in Hrun.
  - injection Hrun as <-. apply visit_closed_refl.
  - destruct (rec p fl sorted) as [[fl1 sorted1]|] eqn:Hp; [|done].
    apply Hrec in Hp as [_ Hclosed1].
    pose proof Hrun as Hframe.
    apply (visit_parents_post h rec parents) in Hframe as [Hframe _];
      [|intros q fl0 sorted0 r0 Hq; by apply Hrec in Hq as [? _]].
    destruct r as [fl2 sorted2]. destruct Hframe as [Hsub _].
    apply IH in Hrun.
    apply (visit_closed_trans [p] parents _ fl fl1 fl2); try done.
    + intros s ->%list_elem_of_singleton. by left.
    + intros s Hs. by right.
Qed.

Lemma visit_closed_holds fuel : forall n fl sorted r,
  visit fuel h n fl sorted = Some r -> spec.visit_closed h [n] fl r.1.
Proof.
  induction fuel as [|fuel IH]; intros n fl sorted r Hrun; [done|]. simpl in Hrun.
  destruct (decide (n ∈ visited fl)) as [Hseen | Hfresh].
  { injection Hrun as <-. apply visit_closed_refl. }
  destruct (visit_parents (visit fuel h) (parents_of h n) (set_visited n fl) sorted)
    as [[fl1 sorted1]|] eqn:Hloop; [|done].
  assert (forall p fl0 sorted0 r0, visit fuel h p fl0 sorted0 = Some r0 ->
            spec.visit_post h p fl0 sorted0 r0 /\ spec.visit_closed h [p] fl0 r0.1)
    as Hrec.
  { intros p fl0 sorted0 r0 Hp. split; [by eapply visit_post_holds | by eapply IH]. }
  pose proof (visit_parents_closed _ _ Hrec _ _ _ Hloop) as Hclosed.
  apply (visit_parents_post h _ _ (fun p fl0 sorted0 r0 Hp => proj1 (Hrec p fl0 sorted0 r0 Hp)))
    in Hloop as [(Hsub & _) Hall]. simpl in Hsub, Hall, Hclosed.
  assert (r.1 = fl1) as -> by (destruct (is_placeholder h n); by injection Hrun as <-).
  intros x Hx Hnot. destruct (decide (x = n)) as [-> | Hne].
  - split; [exists n; split; [by left | done]|]. intros p Hp. by apply Hall.
  - destruct (Hclosed x Hx) as [(p & Hp & Hreach) Hparents]; [simpl; set_solver|].
    split; [|done]. exists n. split; [by left|]. by eapply rtc_l.
Qed.

Lemma visit_all_closed nodes : forall fl sorted r,
  visit_all h nodes fl sorted = Some r -> spec.visit_closed h nodes fl r.1.
Proof.
  induction nodes as [|n nodes IH]; intros fl sorted r Hrun; cbn [visit_all] in Hrun.
  - injection Hrun as <-. apply visit_closed_refl.
  - destruct (bool_decide (n ∈ visited fl) || is_placeholder h n).
    + apply IH in Hrun. intros x Hx Hnot.
      destruct (Hrun x Hx Hnot) as [(s & Hs & Hreach) Hparents].
      split; [|done]. exists s. split; [by right | done].
    + destruct (visit (depth_bound h) h n fl sorted) as [[fl1 sorted1]|] eqn:Hn; [|done].
      pose proof (visit_closed_holds _ _ _ _ _ Hn) as Hclosed1.
      destruct (visit_all_post h nodes fl1 sorted1)
        as ([fl2 sorted2] & Hrun' & (Hsub & _) & _).
      rewrite Hrun in Hrun'. injection Hrun' as ->.
      apply IH in Hrun.
      apply (visit_closed_trans [n] nodes _ fl fl1 fl2); try done.
      * intros s ->%list_elem_of_singleton. by left.
      * intros s Hs. by right.
Qed.
End visit_reach.

Section depth_memo.
Import graph.
Variable h : Heap.
Hypothesis Hacyclic : forall m, ~ tc (spec.parent_edge h) m m.

Lemma depths_frame_refl starts depths :
  spec.depths_ok h depths -> spec.depths_frame h starts depths depths.
Proof. intros Hok. split; [done|]. split; [done|]. intros x Hx. by left. Qed.

Lemma depths_frame_trans starts1 starts2 starts d0 d1 d2 :
  (forall s, s ∈ starts1 -> s ∈ starts) -> (forall s, s ∈ starts2 -> s ∈ starts) ->
  spec.depths_frame h starts1 d0 d1 -> spec.depths_frame h starts2 d1 d2 ->
  spec.depths_frame h starts d0 d2.
Proof.
  intros Hin1 Hin2 (Hsub1 & _ & Hnew1) (Hsub2 & Hok2 & Hnew2).
  split; [by etrans|]. split; [done|].
  intros x Hx. destruct (Hnew2 x Hx) as [Hx1 | (s & Hs & Hreach)].
  - destruct (Hnew1 x Hx1) as [Hx0 | (s & Hs & Hreach)]; [by left|].
    right. exists s. split; [by apply Hin1 | done].
  - right. exists s. split; [by apply Hin2 | done].
Qed.

Lemma depths_ok_insert depths n d :
  spec.depths_ok h depths -> depths !! n = None -> 0 <= d ->
  (forall p, spec.parent_edge h n p -> is_placeholder h p = false ->
     exists d', depths !! p = Some d' /\ d' < d) ->
  spec.depths_ok h (<[n := d]> depths).
Proof.
  intros Hok Hfresh Hd Hparents m dm Hm.
  destruct (decide (m = n)) as [-> | Hne].
  - rewrite lookup_insert_eq in Hm. injection Hm as <-. split; [done|].
    intros p Hp Hreal. destruct (Hparents p Hp Hreal) as (d' & Hd' & Hlt).
    exists d'. split; [|done]. rewrite lookup_insert_ne; [done | congruence].
  - rewrite lookup_insert_ne in Hm by done.
    destruct (Hok m dm Hm) as [Hdm Hpm]. split; [done|].
    intros p Hp Hreal. destruct (Hpm p Hp Hreal) as (d' & Hd' & Hlt).
    exists d'. split; [|done]. rewrite lookup_insert_ne; [done | congruence].
Qed.

Lemma depth_parents_spec (rec : string -> gmap string Z -> option (Z * gmap string Z))
    (parents : list string) :
  (forall p depths d depths', rec p depths = Some (d, depths') ->
     spec.depths_ok h depths ->
     spec.depths_frame h [p] depths depths' /\ depths' !! p = Some d) ->
  forall maxd depths maxd' depths',
    depth_parents rec h parents maxd depths = Some (maxd', depths') ->
    spec.depths_ok h depths ->
    spec.depths_frame h parents depths depths' /\ maxd <= maxd'
    /\ (forall p, p ∈ parents -> is_placeholder h p = false ->
          exists d, depths' !! p = Some d /\ d <= maxd').
Proof.
  intros Hrec. induction parents as [|p parents IH];
    intros maxd depths maxd' depths' Hrun Hok; simpl in Hrun.
  - injection Hrun as <- <-. split; [by apply depths_frame_refl|].
    split; [lia|]. by intros p ?%elem_of_nil.
  - destruct (is_placeholder h p) eqn:Hph.
    + destruct (IH _ _ _ _ Hrun Hok) as (Hframe & Hle & Hall).
      split; [|split; [done|]].
      * apply (depths_frame_trans [] parents _ depths depths depths'); try done.
        -- by intros s ?%elem_of_nil.
        -- intros s Hs. by right.
        -- by apply depths_frame_refl.
      * intros q [-> | Hq]%elem_of_cons Hreal; [congruence | by apply Hall].
    + destruct (rec p depths) as [[pd depths1]|] eqn:Hp; [|done].
      destruct (Hrec _ _ _ _ Hp Hok) as [Hframe1 Hpd].
      pose proof Hframe1 as (_ & Hok1 & _).
      destruct (IH _ _ _ _ Hrun Hok1) as (Hframe2 & Hle & Hall).
      split; [|split].
      * apply (depths_frame_trans [p] parents _ depths depths1 depths'); try done.
        -- intros s ->%list_elem_of_singleton. by left.
        -- intros s Hs. by right.
      * destruct (maxd <? pd) eqn:Hcmp; [apply Z.ltb_lt in Hcmp | ]; lia.
      * intros q [-> | Hq]%elem_of_cons Hreal; [|by apply Hall].
        exists pd. split.
        -- destruct Hframe2 as (Hsub2 & _). by eapply lookup_weaken.
        -- destruct (maxd <? pd) eqn:Hcmp; [lia | apply Z.ltb_ge in Hcmp; lia].
Qed.

Lemma HasParents_false n : HasParents h n = false -> parents_of h n = [].
Proof.
  unfold HasParents. destruct (parents_of h n); [done|]. simpl. done.
Qed.

(** A [calculateDepth] that returns has recorded, for its node, a depth
    above that of all its non-placeholder parents. *)
Lemma calculateDepth_spec fuel : forall n depths d depths',
  calculateDepth fuel h n depths = Some (d, depths') ->
  spec.depths_ok h depths ->
  spec.depths_frame h [n] depths depths' /\ depths' !! n = Some d.
Proof.
  induction fuel as [|fuel IH]; intros n depths d depths' Hrun Hok; [done|].
  simpl in Hrun. destruct (depths !! n) as [dn|] eqn:Hn.
  { injection Hrun as <- <-. split; [by apply depths_frame_refl | done]. }
  assert (forall (m : gmap string Z) d0, m !! n = None -> depths ⊆ m ->
            (forall x, is_Some (m !! x) ->
               is_Some (depths !! x) \/ exists s, s ∈ [n] /\ rtc (spec.parent_edge h) s x) ->
            spec.depths_ok h (<[n := d0]> m) ->
            spec.depths_frame h [n] depths (<[n := d0]> m)) as Hframe.
  { intros m d0 Hfresh Hsub Hnew Hok'. split; [|split; [done|]].
    - etrans; [exact Hsub|]. by apply insert_subseteq.
    - intros x Hx. destruct (decide (x = n)) as [-> | Hne].
      + right. exists n. split; [by left | done].
      + rewrite lookup_insert_ne in Hx by done. by apply Hnew. }
  destruct (negb (HasParents h n)) eqn:Hhas.
  - injection Hrun as <- <-. apply negb_true_iff, HasParents_false in Hhas.
    split; [|by rewrite lookup_insert_eq].
    apply Hframe; [done | done | by intros x Hx; left |].
    apply depths_ok_insert; [done | done | lia |].
    intros p Hp. unfold spec.parent_edge in Hp. rewrite Hhas in Hp.
    by apply elem_of_nil in Hp.
  - destruct (depth_parents (calculateDepth fuel h) h (parents_of h n) (-1) depths)
      as [[maxd depths1]|] eqn:Hloop; [|done].
    injection Hrun as <- <-.
    destruct (depth_parents_spec _ _ IH _ _ _ _ Hloop Hok)
      as ((Hsub & Hok1 & Hnew) & Hle & Hall).
    assert (depths1 !! n = None) as Hfresh.
    { destruct (depths1 !! n) as [dn|] eqn:Hn1; [|done]. exfalso.
      destruct (Hnew n (mk_is_Some _ _ Hn1)) as [[? Hold] | (p & Hp & Hreach)];
        [congruence|].
      apply (Hacyclic n). eapply tc_rtc_r; [|exact Hreach]. by apply tc_once. }
    split; [|by rewrite lookup_insert_eq].
    apply Hframe; [done | done | |].
    + intros x Hx. destruct (Hnew x Hx) as [Hold | (p & Hp & Hreach)]; [by left|].
      right. exists n. split; [by left|]. by eapply rtc_l.
    + apply depths_ok_insert; [done | done | lia |].
      intros p Hp Hreal. destruct (Hall p Hp Hreal) as (dp & Hdp & Hdle).
      exists dp. split; [done | lia].
Qed.

Lemma all_depths_spec nodes : forall maxd depths maxd' depths',
  all_depths h nodes maxd depths = Some (maxd', depths') ->
  spec.depths_ok h depths ->
  depths ⊆ depths' /\ spec.depths_ok h depths' /\ maxd <= maxd'
  /\ (forall n, n ∈ nodes -> exists d, depths' !! n = Some d /\ d <= maxd').
Proof.
  induction nodes as [|n nodes IH]; intros maxd depths maxd' depths' Hrun Hok;
    cbn [all_depths] in Hrun.
  - injection Hrun as <- <-. split; [done|]. split; [done|]. split; [lia|].
    by intros n ?%elem_of_nil.
  - destruct (calculateDepth (depth_bound h) h n depths) as [[d depths1]|] eqn:Hn;
      [|done].
    destruct (calculateDepth_spec _ _ _ _ _ Hn Hok) as [(Hsub1 & Hok1 & _) Hd].
    destruct (IH _ _ _ _ Hrun Hok1) as (Hsub2 & Hok2 & Hle & Hall).
    split; [by etrans|]. split; [done|]. split.
    { destruct (Z.ltb_spec maxd d); lia. }
    intros m [-> | Hm]%elem_of_cons; [|by apply Hall].
    exists d. split; [by eapply lookup_weaken|].
    destruct (maxd <? d) eqn:Hcmp; [lia | apply Z.ltb_ge in Hcmp; lia].
Qed.
End depth_memo.

(** The second loop of [GetStartupBatches] puts every node into the batch
    of its depth, and nothing else. *)
Lemma group_by_depth_loop (depths : gmap string Z) (nodes : list string) :
  forall (batches : list (list string)) i batch x,
    foldl (fun batches node =>
             alter (fun batch => batch ++ [node])
                   (Z.to_nat (default 0 (depths !! node))) batches)
          batches nodes !! i = Some batch ->
    exists batch0, batches !! i = Some batch0
      /\ (x ∈ batch <->
          x ∈ batch0 \/ (x ∈ nodes /\ Z.to_nat (default 0 (depths !! x)) = i)).
Proof.
  induction nodes as [|n nodes IH]; intros batches i batch x Hrun; simpl in Hrun.
  - exists batch. split; [done|]. split; [by left|].
    intros [? | [?%elem_of_nil _]]; done.
  - apply (IH _ _ _ x) in Hrun as (batch1 & Hlook & Hiff).
    destruct (decide (Z.to_nat (default 0 (depths !! n)) = i)) as [Heq | Hne].
    + rewrite Heq, list_lookup_alter_eq in Hlook.
      destruct (batches !! i) as [batch0|] eqn:Hi; [|done].
      simpl in Hlook. injection Hlook as <-. exists batch0. split; [done|].
      rewrite Hiff, elem_of_app, list_elem_of_singleton, elem_of_cons. split.
      * intros [[? | ->] | [? ?]]; [by left | right | right]; split; auto.
      * intros [? | [[-> | ?] ?]]; [by left; left | by left; right | right]; done.
    + rewrite list_lookup_alter_ne in Hlook by done. exists batch1.
      split; [done|]. rewrite Hiff, elem_of_cons. split.
      * intros [? | [? ?]]; [by left | right]; split; auto.
      * intros [? | [[-> | ?] ?]]; [by left | done | right]; done.
Qed.

Lemma group_by_depth_elem depths maxDepth nodes i batch x :
  graph.group_by_depth depths maxDepth nodes !! i = Some batch ->
  x ∈ batch <-> x ∈ nodes /\ Z.to_nat (default 0 (depths !! x)) = i.
Proof.
  unfold graph.group_by_depth. intros Hrun.
  apply (group_by_depth_loop _ _ _ _ _ x) in Hrun as (batch0 & Hlook & Hiff).
  apply lookup_replicate in Hlook as [-> _]. rewrite Hiff. split.
  - intros [?%elem_of_nil | ?]; done.
  - by right.
Qed.

Section whole_graph.
Import graph.
Variable order : RangeOrder.
Hypothesis Horder : range_ok order.

(** On a graph that holds the parents of its nodes and has no cycle along
    the parents, the batches that [GetStartupBatches] returns are in
    dependency order. *)
Lemma GetStartupBatches_batch_order g fl batches fl' :
  (forall m, ~ tc (spec.parent_edge (heap g)) m m) ->
  spec.parents_closed g ->
  GetStartupBatches order g fl = Some (Ok batches, fl') ->
  spec.batch_order (heap g) batches.
Proof.
  intros Hacyclic Hclosed Hrun. unfold GetStartupBatches in Hrun.
  destruct (TopologicalSort order g fl) as [[[e|sorted] fl2]|] eqn:Hsort; try done.
  destruct (all_depths (heap g) (StartupOrder sorted) 0 ∅)
    as [[maxDepth depths]|] eqn:Hdepths; [|done].
  injection Hrun as <- <-.
  unfold TopologicalSort in Hsort.
  destruct (Validate order g fl) as [[[e|[]] fl1]|]; try done.
  destruct (visit_all (heap g) (order RangeTopologicalSort (Nodes g))
              (reset_visited (Nodes g) fl1) []) as [[fl3 sortedNodes]|] eqn:Hvisit;
    [|done].
  destruct (length sortedNodes =? 0)%nat; [done|]. injection Hsort as <- <-.
  simpl in Hdepths.
  pose proof (visit_all_closed _ _ _ _ _ Hvisit) as Hreach. simpl in Hreach.
  destruct (visit_all_post (heap g) (order RangeTopologicalSort (Nodes g))
              (reset_visited (Nodes g) fl1) [])
    as ([fl3' sorted'] & Hvisit' & (Hsub & _ & added & Hsorted & _ & Hadded) & _).
  rewrite Hvisit in Hvisit'. injection Hvisit' as <- <-. simpl in Hsorted.
  subst sortedNodes.
  destruct (all_depths_spec (heap g) Hacyclic _ _ _ _ _ Hdepths)
    as (_ & Hok & _ & Hall); [by intros n d ?|].
  assert (forall x, x ∈ Nodes g ->
            forall y, rtc (spec.parent_edge (heap g)) x y -> y ∈ Nodes g) as Hstay.
  { intros x Hx y Hxy. induction Hxy as [|x y z Hstep _ IH]; [done|].
    apply IH. by eapply Hclosed. }
  intros i batch n p Hi Hn Hreal Hp Hpreal. cbn [StartupOrder] in Hi.
  apply (group_by_depth_elem _ _ _ _ _ n) in Hi as Hn'. apply Hn' in Hn as [Hn Hdn].
  apply Hadded in Hn as (Hn3 & Hn0 & _).
  destruct (Hreach n Hn3 Hn0) as [(s & Hs & Hsn) Hparents].
  assert (n ∈ Nodes g) as HnG.
  { apply (Hstay s); [|done]. rewrite (Horder RangeTopologicalSort (Nodes g)) in Hs.
    by apply elem_of_elements in Hs. }
  assert (p ∈ added) as Hpin.
  { apply Hadded. split; [by apply Hparents|]. split; [|done].
    simpl. pose proof (Hclosed n p HnG Hp). set_solver. }
  destruct (Hall n) as (dn & Hdn' & _); [by apply Hadded|].
  destruct (Hok n dn Hdn') as [Hdn0 Hlt].
  destruct (Hlt p Hp Hpreal) as (dp & Hdp & Hdplt).
  destruct (Hok p dp Hdp) as [Hdp0 _].
  rewrite Hdn' in Hdn. simpl in Hdn.
  assert (Z.to_nat dp < i)%nat as Hj by lia.
  destruct (lookup_lt_is_Some_2 (group_by_depth depths maxDepth added) (Z.to_nat dp))
    as [batch' Hbatch'].
  { apply lookup_lt_Some in Hi. lia. }
  exists (Z.to_nat dp), batch'. split; [done|]. split; [done|].
  apply (group_by_depth_elem _ _ _ _ _ p Hbatch'). split; [done|]. by rewrite Hdp.
Qed.
End whole_graph.

(** ** The graphs that [Build] makes *)

Lemma foldl_invariant {A B} (P : A -> Prop) (f : A -> B -> A) (l : list B) :
  (forall a x, P a -> P (f a x)) -> forall a, P a -> P (foldl f a l).
Proof.
  intros Hstep. induction l as [|x l IH]; intros a Ha; simpl; [done|].
  apply IH. by apply Hstep.
Qed.

Section built.
Import graph.
Variable MapUnicodeToLower : string -> string.
Variable InspectStopTimeout : string -> option Z.

Lemma parents_linked_insert h n nd :
  spec.parents_linked h -> Parents nd = [] -> spec.parents_linked (<[n := nd]> h).
Proof.
  intros Hlinked Hnone m md p Hm Hp. apply lookup_insert_is_Some'. right.
  destruct (decide (n = m)) as [-> | Hne].
  - rewrite lookup_insert_eq in Hm. injection Hm as <-. rewrite Hnone in Hp.
    by apply elem_of_nil in Hp.
  - rewrite lookup_insert_ne in Hm by done. by eapply Hlinked.
Qed.

Lemma parents_linked_AddParent h n parent :
  spec.parents_linked h -> is_Some (h !! parent) ->
  spec.parents_linked (AddParent n parent h).
Proof.
  intros Hlinked Hparent m md p Hm Hp. unfold AddParent in *.
  rewrite !lookup_alter_is_Some.
  assert (exists md0, h !! m = Some md0
            /\ (Parents md = Parents md0
                \/ Parents md = Parents md0 ++ [parent])) as (md0 & Hm0 & Hps).
  { rewrite lookup_alter in Hm. destruct (decide (parent = m)) as [-> | Hne1].
    - rewrite lookup_alter in Hm. destruct (decide (n = m)) as [-> | Hne2].
      + destruct (h !! m) as [md0|]; [|done]. injection Hm as <-.
        exists md0. split; [done | by right].
      + destruct (h !! m) as [md0|]; [|done]. injection Hm as <-.
        exists md0. split; [done | by left].
    - rewrite lookup_alter in Hm. destruct (decide (n = m)) as [-> | Hne2].
      + destruct (h !! m) as [md0|]; [|done]. injection Hm as <-.
        exists md0. split; [done | by right].
      + exists md. split; [done | by left]. }
  destruct Hps as [Hps | Hps]; rewrite Hps in Hp.
  - by eapply Hlinked.
  - apply elem_of_app in Hp as [Hp | ->%list_elem_of_singleton]; [|done].
    by eapply Hlinked.
Qed.

Lemma build_nodes_linked containers :
  spec.parents_linked (build_nodes MapUnicodeToLower InspectStopTimeout containers).
Proof.
  unfold build_nodes. apply foldl_invariant.
  - intros h c Hlinked. cbv zeta.
    destruct (negb (docker.IsManaged _)); [done|].
    by apply parents_linked_insert.
  - by intros n nd p Hn.
Qed.

Lemma build_edges_of_linked name dependencies h :
  spec.parents_linked h -> spec.parents_linked (build_edges_of name dependencies h).
Proof.
  unfold build_edges_of. apply foldl_invariant.
  intros h0 dep Hlinked. cbv zeta. apply parents_linked_AddParent.
  - destruct (h0 !! dep); [done|]. by apply parents_linked_insert.
  - destruct (h0 !! dep) eqn:Hdep; [by rewrite Hdep|]. by rewrite lookup_insert_eq.
Qed.

Lemma build_edges_linked containers h :
  spec.parents_linked h ->
  spec.parents_linked (build_edges MapUnicodeToLower containers h).
Proof.
  unfold build_edges. apply foldl_invariant.
  intros h0 c Hlinked. cbv zeta. destruct (h0 !! container_name c); [|done].
  by apply build_edges_of_linked.
Qed.

(** The graph that [Build] makes holds the parents of all its nodes. *)
Lemma Build_parents_closed containers :
  spec.parents_closed (Build MapUnicodeToLower InspectStopTimeout containers).
Proof.
  intros n p Hn Hp. unfold Build in *. cbn [heap Nodes] in *.
  apply elem_of_dom in Hn as [nd Hnd]. apply elem_of_dom.
  unfold spec.parent_edge, parents_of in Hp. rewrite Hnd in Hp.
  eapply build_edges_linked; [apply build_nodes_linked | exact Hnd | exact Hp].
Qed.
End built.

(** X1 at the graph of [x], [a] and the opted-out [b], walked as a whole. *)
Lemma cycle_in_whole_graph_is_an_error_witness :
  exists fl' cycle,
    spec.names_cycle (graph.heap (examples.build examples.opted_out_cycle)) cycle
    /\ graph.GetShutdownBatches (examples.prefer ["x"%string])
         (examples.build examples.opted_out_cycle) graph.no_flags
       = Some (Err (ErrCircularDependency cycle), fl').
Proof.
  destruct (cycle_in_whole_graph_is_an_error (examples.prefer ["x"%string])
              (prefer_ok ["x"%string] (NoDup_singleton _))
              (examples.build examples.opted_out_cycle) graph.no_flags "a"%string)
    as (fl' & cycle & Hnames & _ & _ & _ & Hstop).
  - done.
  - done.
  - apply (bool_decide_unpack _). vm_compute. reflexivity.
  - apply (tc_l _ _ "b"%string).
    + unfold spec.child_edge. vm_compute. by left.
    + apply tc_once. unfold spec.child_edge. vm_compute. right. by left.
  - exists fl', cycle. split; assumption.
Defined.

(** ** Batches of a whole graph *)

(** X2. On a graph that holds the parents of its nodes (every graph that
    [Build] makes does), has no cycle and has a non-placeholder node,
    [GetStartupBatches] returns batches, whatever the order of iteration
    and whatever flags earlier walks left, and the batches are in
    dependency order: every non-placeholder parent of a non-placeholder
    node of batch [i] is in a batch [j < i]. *)
Theorem whole_graph_batches_in_dependency_order (order : graph.RangeOrder)
    (g : graph.Graph) (fl : graph.Flags) (n : string) :
  graph.range_ok order ->
  spec.cycle_free (graph.heap g) -> spec.parents_closed g ->
  graph.inStack fl ⊆ graph.Nodes g ->
  n ∈ graph.Nodes g -> graph.is_placeholder (graph.heap g) n = false ->
  exists batches fl',
    graph.GetStartupBatches order g fl = Some (Ok batches, fl')
    /\ spec.batch_order (graph.heap g) batches.
Proof.
  intros Horder Hfree Hclosed Hstack Hn Hreal.
  destruct (GetStartupBatches_acyclic order Horder g fl n Hfree Hstack Hn Hreal)
    as (batches & fl' & Hrun & _).
  exists batches, fl'. split; [done|].
  eapply GetStartupBatches_batch_order; [done | apply Hfree | done | exact Hrun].
Qed.

(** X2 at the opted-out middle, walked as a whole with [app] first. *)
Lemma whole_graph_batches_in_dependency_order_witness :
  exists batches fl',
    graph.GetStartupBatches (examples.prefer ["app"%string; "web"%string])
      (examples.build examples.opted_out_middle) graph.no_flags
    = Some (Ok batches, fl')
    /\ spec.batch_order (graph.heap (examples.build examples.opted_out_middle)) batches.
Proof.
  apply (whole_graph_batches_in_dependency_order
           (examples.prefer ["app"%string; "web"%string])
           (examples.build examples.opted_out_middle) graph.no_flags "app"%string).
  - apply prefer_ok. apply (bool_decide_unpack _). vm_compute. reflexivity.
  - apply (ranked_cycle_free
             (examples.rank_of [("base"%string, 0%nat); ("db"%string, 1%nat);
                                ("web"%string, 1%nat); ("app"%string, 2%nat)])).
    apply (bool_decide_unpack _). vm_compute. reflexivity.
  - apply Build_parents_closed.
  - done.
  - apply (bool_decide_unpack _). vm_compute. reflexivity.
  - vm_compute. reflexivity.
Defined.

(** ** What [Build] puts into the graph *)

Lemma foldl_invariant_in {A B} (P : A -> Prop) (f : A -> B -> A) (l : list B) :
  (forall a x, x ∈ l -> P a -> P (f a x)) -> forall a, P a -> P (foldl f a l).
Proof.
  induction l as [|x l IH]; intros Hstep a Ha; simpl; [done|].
  apply IH.
  - intros a' y Hy. apply Hstep. by right.
  - apply Hstep; [by left | done].
Qed.

Lemma foldl_invariant_prefix {A B} (P : list B -> A -> Prop) (f : A -> B -> A)
    (l : list B) (a : A) :
  P [] a -> (forall pre x a', P pre a' -> P (pre ++ [x]) (f a' x)) ->
  P l (foldl f a l).
Proof.
  intros Hnil Hstep. induction l as [|x l IH] using rev_ind; [done|].
  rewrite foldl_snoc. by apply Hstep.
Qed.

Section edges.
Import graph.

Lemma parents_of_add_child c k h m :
  parents_of (alter (add_child_field c) k h) m = parents_of h m.
Proof.
  unfold parents_of. rewrite lookup_alter.
  destruct (decide (k = m)) as [-> | Hne]; [|done]. by destruct (h !! m).
Qed.

Lemma parents_of_add_parent p k h m :
  parents_of (alter (add_parent_field p) k h) m
  = if decide (m = k) then
      match h !! k with Some nd => Parents nd ++ [p] | None => [] end
    else parents_of h m.
Proof.
  unfold parents_of. rewrite lookup_alter.
  destruct (decide (k = m)) as [-> | Hne].
  - rewrite decide_True by done. by destruct (h !! m).
  - by rewrite decide_False by congruence.
Qed.

Lemma children_of_add_parent p k h m :
  children_of (alter (add_parent_field p) k h) m = children_of h m.
Proof.
  unfold children_of. rewrite lookup_alter.
  destruct (decide (k = m)) as [-> | Hne]; [|done]. by destruct (h !! m).
Qed.

Lemma children_of_add_child c k h m :
  children_of (alter (add_child_field c) k h) m
  = if decide (m = k) then
      match h !! k with Some nd => Children nd ++ [c] | None => [] end
    else children_of h m.
Proof.
  unfold children_of. rewrite lookup_alter.
  destruct (decide (k = m)) as [-> | Hne].
  - rewrite decide_True by done. by destruct (h !! m).
  - by rewrite decide_False by congruence.
Qed.

(** [n.AddParent(parent)] on two node objects appends [parent] to the
    parents of [n], [n] to the children of [parent], and nothing else. *)
Lemma AddParent_parents h n parent m :
  is_Some (h !! n) ->
  parents_of (AddParent n parent h) m
  = if decide (m = n) then parents_of h n ++ [parent] else parents_of h m.
Proof.
  intros [nd Hn]. unfold AddParent.
  rewrite parents_of_add_child, parents_of_add_parent.
  destruct (decide (m = n)) as [-> | Hne]; [|done].
  unfold parents_of. by rewrite Hn.
Qed.

Lemma AddParent_children h n parent m :
  is_Some (h !! parent) ->
  children_of (AddParent n parent h) m
  = if decide (m = parent) then children_of h parent ++ [n] else children_of h m.
Proof.
  intros [nd Hp]. unfold AddParent.
  rewrite children_of_add_child.
  destruct (decide (m = parent)) as [-> | Hne].
  - rewrite lookup_alter. unfold children_of.
    destruct (decide (n = parent)) as [-> | Hne]; by rewrite Hp.
  - apply children_of_add_parent.
Qed.

Lemma AddParent_data h n parent m nd' :
  AddParent n parent h !! m = Some nd' ->
  exists nd, h !! m = Some nd /\ spec.node_data nd' = spec.node_data nd.
Proof.
  unfold AddParent. rewrite lookup_alter.
  destruct (decide (parent = m)) as [-> | Hne1].
  - rewrite lookup_alter. destruct (decide (n = m)) as [-> | Hne2].
    + destruct (h !! m) as [nd|]; [|done]. intros [= <-]. by exists nd.
    + destruct (h !! m) as [nd|]; [|done]. intros [= <-]. by exists nd.
  - rewrite lookup_alter. destruct (decide (n = m)) as [-> | Hne2].
    + destruct (h !! m) as [nd|]; [|done]. intros [= <-]. by exists nd.
    + intros Hm. by exists nd'.
Qed.

Lemma AddParent_lookup_is_Some h n parent m :
  is_Some (AddParent n parent h !! m) <-> is_Some (h !! m).
Proof. unfold AddParent. by rewrite !lookup_alter_is_Some. Qed.

Lemma AddParent_data_kept h n parent m nd :
  h !! m = Some nd ->
  exists nd', AddParent n parent h !! m = Some nd'
    /\ spec.node_data nd' = spec.node_data nd.
Proof.
  intros Hm.
  destruct (proj2 (AddParent_lookup_is_Some h n parent m) (mk_is_Some _ _ Hm))
    as [nd' Hnd'].
  exists nd'. split; [done|].
  destruct (AddParent_data _ _ _ _ _ Hnd') as (nd0 & Hnd0 & Hdata). congruence.
Qed.

Lemma edges_mirrored_AddParent h n parent :
  is_Some (h !! n) -> is_Some (h !! parent) ->
  spec.edges_mirrored h -> spec.edges_mirrored (AddParent n parent h).
Proof.
  intros Hn Hp Hsym m p.
  rewrite AddParent_parents, AddParent_children by done.
  destruct (decide (m = n)) as [-> | Hne1]; destruct (decide (p = parent)) as [-> | Hne2];
    rewrite ?elem_of_app, ?list_elem_of_singleton, (Hsym _ _); naive_solver.
Qed.

Lemma parents_of_placeholder h dep m :
  h !! dep = None -> parents_of (<[dep := NewPlaceholderNode]> h) m = parents_of h m.
Proof.
  intros Hfresh. unfold parents_of. destruct (decide (m = dep)) as [-> | Hne].
  - by rewrite lookup_insert_eq, Hfresh.
  - by rewrite lookup_insert_ne by done.
Qed.

Lemma children_of_placeholder h dep m :
  h !! dep = None -> children_of (<[dep := NewPlaceholderNode]> h) m = children_of h m.
Proof.
  intros Hfresh. unfold children_of. destruct (decide (m = dep)) as [-> | Hne].
  - by rewrite lookup_insert_eq, Hfresh.
  - by rewrite lookup_insert_ne by done.
Qed.

Lemma edges_mirrored_placeholder h dep :
  h !! dep = None -> spec.edges_mirrored h ->
  spec.edges_mirrored (<[dep := NewPlaceholderNode]> h).
Proof.
  intros Hfresh Hsym m p.
  rewrite parents_of_placeholder, children_of_placeholder by done. apply Hsym.
Qed.

(** The heap with the node object that a dependency name needs. *)
Lemma with_dependency_is_Some (h : Heap) dep m :
  is_Some (h !! m) \/ m = dep ->
  is_Some (match h !! dep with
           | Some _ => h
           | None => <[dep := NewPlaceholderNode]> h
           end !! m).
Proof.
  intros Hm. destruct (h !! dep) eqn:Hdep.
  - destruct Hm as [Hm | ->]; [done | by rewrite Hdep].
  - apply lookup_insert_is_Some'. destruct Hm as [Hm | ->]; [by right | by left].
Qed.

Lemma build_edges_of_is_Some name dependencies h m :
  is_Some (h !! m) -> is_Some (build_edges_of name dependencies h !! m).
Proof.
  unfold build_edges_of. revert h.
  induction dependencies as [|dep deps IH]; intros h Hm; simpl; [done|].
  apply IH. apply AddParent_lookup_is_Some. apply with_dependency_is_Some. by left.
Qed.

Lemma build_edges_of_mirrored name dependencies h :
  is_Some (h !! name) -> spec.edges_mirrored h ->
  spec.edges_mirrored (build_edges_of name dependencies h).
Proof.
  unfold build_edges_of. revert h.
  induction dependencies as [|dep deps IH]; intros h Hname Hsym; simpl; [done|].
  apply IH.
  - apply AddParent_lookup_is_Some, with_dependency_is_Some. by left.
  - apply edges_mirrored_AddParent.
    + apply with_dependency_is_Some. by left.
    + apply with_dependency_is_Some. by right.
    + destruct (h !! dep) eqn:Hdep; [done | by apply edges_mirrored_placeholder].
Qed.

(** The edges of one container: its dependencies, in order, after the
    parents that its node had. *)
Lemma build_edges_of_parents name dependencies : forall h m,
  is_Some (h !! name) ->
  parents_of (build_edges_of name dependencies h) m
  = if decide (m = name) then parents_of h name ++ dependencies else parents_of h m.
Proof.
  unfold build_edges_of.
  induction dependencies as [|dep deps IH]; intros h m Hname; simpl.
  { destruct (decide (m = name)) as [-> | Hne]; [by rewrite app_nil_r | done]. }
  assert (forall x, parents_of (match h !! dep with
                                | Some _ => h
                                | None => <[dep := NewPlaceholderNode]> h
                                end) x = parents_of h x) as Hsame.
  { intros x. destruct (h !! dep) eqn:Hdep; [done | by apply parents_of_placeholder]. }
  rewrite IH by (apply AddParent_lookup_is_Some, with_dependency_is_Some; by left).
  destruct (decide (m = name)) as [-> | Hne].
  - rewrite AddParent_parents by (apply with_dependency_is_Some; by left).
    rewrite decide_True by done. by rewrite Hsame, <- app_assoc.
  - rewrite AddParent_parents by (apply with_dependency_is_Some; by left).
    rewrite decide_False by done. apply Hsame.
Qed.
End edges.

Section built_graph.
Import graph.
Variable U : string -> string.
Variable inspect : string -> option Z.

Lemma node_of_container_data c nd nd' :
  spec.node_data nd' = spec.node_data nd ->
  spec.node_of_container U inspect c nd -> spec.node_of_container U inspect c nd'.
Proof.
  unfold spec.node_data, spec.node_of_container. intros [= -> -> -> -> -> -> ->]. done.
Qed.

(** The first pass: one bare node per orchestrated container, under the
    container's name. *)
Lemma build_nodes_spec containers :
  let h0 := build_nodes U inspect containers in
  (forall n nd, h0 !! n = Some nd ->
     Parents nd = [] /\ Children nd = []
     /\ exists c, c ∈ containers /\ container_name c = n
          /\ spec.orchestrated U c /\ spec.node_of_container U inspect c nd)
  /\ (forall c, c ∈ containers -> spec.orchestrated U c ->
        is_Some (h0 !! container_name c)).
Proof.
  unfold build_nodes.
  apply (foldl_invariant_prefix (fun pre (h0 : Heap) =>
    (forall n nd, h0 !! n = Some nd ->
       Parents nd = [] /\ Children nd = []
       /\ exists c, c ∈ pre /\ container_name c = n
            /\ spec.orchestrated U c /\ spec.node_of_container U inspect c nd)
    /\ (forall c, c ∈ pre -> spec.orchestrated U c ->
          is_Some (h0 !! container_name c)))).
  { split; [by intros n nd ? | by intros c ?%elem_of_nil]. }
  intros pre c h0 [Hnodes Hall]. cbv zeta.
  destruct (docker.IsManaged (docker.ParseLabels U (docker.Labels c))) eqn:Hmanaged;
    simpl.
  - split.
    + intros n nd Hn. destruct (decide (container_name c = n)) as [<- | Hne].
      * rewrite lookup_insert_eq in Hn. injection Hn as <-.
        split; [done|]. split; [done|]. exists c.
        split; [apply elem_of_app; right; by left|]. split; [done|].
        split; [exact Hmanaged|]. by repeat split.
      * rewrite lookup_insert_ne in Hn by done.
        destruct (Hnodes n nd Hn) as (? & ? & c' & Hc' & ?).
        split; [done|]. split; [done|]. exists c'.
        split; [apply elem_of_app; by left | done].
    + intros c' [Hc' | ->%list_elem_of_singleton]%elem_of_app Hm.
      * apply lookup_insert_is_Some'. right. by apply Hall.
      * apply lookup_insert_is_Some'. by left.
  - split.
    + intros n nd Hn. destruct (Hnodes n nd Hn) as (? & ? & c' & Hc' & ?).
      split; [done|]. split; [done|]. exists c'.
      split; [apply elem_of_app; by left | done].
    + intros c' [Hc' | ->%list_elem_of_singleton]%elem_of_app Hm.
      * by apply Hall.
      * unfold spec.orchestrated in Hm. congruence.
Qed.

(** What the second pass keeps of a heap [h0]: the data of its nodes;
    the nodes that it adds are placeholders, each named by a container
    as a dependency. *)
Lemma build_edges_grown containers h0 :
  let h := build_edges U containers h0 in
  (forall n nd0, h0 !! n = Some nd0 ->
     exists nd, h !! n = Some nd /\ spec.node_data nd = spec.node_data nd0)
  /\ (forall n nd, h !! n = Some nd -> h0 !! n = None ->
        spec.node_data nd = spec.node_data NewPlaceholderNode
        /\ exists c, c ∈ containers /\ n ∈ spec.dependencies_of U c).
Proof.
  unfold build_edges.
  apply (foldl_invariant_in (fun h : Heap =>
    (forall n nd0, h0 !! n = Some nd0 ->
       exists nd, h !! n = Some nd /\ spec.node_data nd = spec.node_data nd0)
    /\ (forall n nd, h !! n = Some nd -> h0 !! n = None ->
          spec.node_data nd = spec.node_data NewPlaceholderNode
          /\ exists c, c ∈ containers /\ n ∈ spec.dependencies_of U c))).
  2: { split; [by eauto | intros n nd ??; congruence]. }
  intros h c Hc Hinv. cbv zeta. destruct (h !! container_name c) as [_|]; [|done].
  unfold build_edges_of.
  apply (foldl_invariant_in (fun h : Heap =>
    (forall n nd0, h0 !! n = Some nd0 ->
       exists nd, h !! n = Some nd /\ spec.node_data nd = spec.node_data nd0)
    /\ (forall n nd, h !! n = Some nd -> h0 !! n = None ->
          spec.node_data nd = spec.node_data NewPlaceholderNode
          /\ exists c, c ∈ containers /\ n ∈ spec.dependencies_of U c))); [|done].
  clear h Hinv. intros h dep Hdep [Hkept Hnew]. cbv zeta. split.
  - intros n nd0 Hn0. destruct (Hkept n nd0 Hn0) as (nd & Hn & Hdata).
    assert (match h !! dep with
            | Some _ => h
            | None => <[dep := NewPlaceholderNode]> h
            end !! n = Some nd) as Hn'.
    { destruct (h !! dep) eqn:Hd; [done|].
      rewrite lookup_insert_ne; [done | congruence]. }
    destruct (AddParent_data_kept _ (container_name c) dep _ _ Hn') as (nd' & ? & ?).
    exists nd'. split; [done | congruence].
  - intros n nd Hn Hn0.
    apply AddParent_data in Hn as (nd1 & Hn1 & Hdata). rewrite Hdata.
    destruct (h !! dep) eqn:Hd; [by apply Hnew|].
    destruct (decide (dep = n)) as [-> | Hne].
    + rewrite lookup_insert_eq in Hn1. injection Hn1 as <-. split; [done|].
      exists c. split; [done | exact Hdep].
    + rewrite lookup_insert_ne in Hn1 by done. by apply Hnew.
Qed.

Lemma build_edges_mirrored containers h0 :
  spec.edges_mirrored h0 -> spec.edges_mirrored (build_edges U containers h0).
Proof.
  unfold build_edges. apply foldl_invariant.
  intros h c Hsym. cbv zeta. destruct (h !! container_name c) eqn:Hname; [|done].
  apply build_edges_of_mirrored; [by rewrite Hname | done].
Qed.
End built_graph.

Section built_theorems.
Import graph.
Variable U : string -> string.
Variable inspect : string -> option Z.

Lemma build_edges_is_Some containers h m :
  is_Some (h !! m) -> is_Some (build_edges U containers h !! m).
Proof.
  intros Hm. unfold build_edges.
  apply (foldl_invariant (fun h' : Heap => is_Some (h' !! m))); [|done].
  intros h' c Hm'. cbv zeta. destruct (h' !! container_name c); [|done].
  by apply build_edges_of_is_Some.
Qed.

Lemma build_edges_app l k h :
  build_edges U (l ++ k) h = build_edges U k (build_edges U l h).
Proof. unfold build_edges. apply foldl_app. Qed.

Lemma build_edges_cons c l h :
  build_edges U (c :: l) h
  = build_edges U l
      match h !! container_name c with
      | Some _ =>
          build_edges_of (container_name c)
            (docker.GetDependencies (docker.ParseLabels U (docker.Labels c))) h
      | None => h
      end.
Proof. reflexivity. Qed.

Lemma build_edges_other_parents containers h m :
  m ∉ container_name <$> containers ->
  parents_of (build_edges U containers h) m = parents_of h m.
Proof.
  unfold build_edges. revert h.
  induction containers as [|c containers IH]; intros h Hm; simpl; [done|].
  rewrite fmap_cons, not_elem_of_cons in Hm. destruct Hm as [Hne Hm].
  rewrite IH by done.
  destruct (h !! container_name c) eqn:Hname; [|done].
  rewrite build_edges_of_parents by (by rewrite Hname).
  by rewrite decide_False by done.
Qed.

(** X3. The graph that [Build] makes has a node, not a placeholder, for
    every container it was given that is orchestrated (managed and not
    opted out), under the container's name; every node that is not a
    placeholder carries the ID, labels, running state, startup delay,
    health-check flag and stop timeout of one such container of that
    name; and every placeholder has the name that some container gives as
    a dependency, a name that no orchestrated container bears, and the
    empty data of [NewPlaceholderNode]. *)
Theorem Build_nodes_are_containers (containers : list docker.Summary) :
  let g := Build U inspect containers in
  Nodes g = dom (heap g)
  /\ (forall c, c ∈ containers -> spec.orchestrated U c ->
        exists nd, heap g !! container_name c = Some nd /\ IsPlaceholder nd = false)
  /\ (forall n nd, heap g !! n = Some nd -> IsPlaceholder nd = false ->
        exists c, c ∈ containers /\ container_name c = n
          /\ spec.orchestrated U c /\ spec.node_of_container U inspect c nd)
  /\ (forall n nd, heap g !! n = Some nd -> IsPlaceholder nd = true ->
        spec.node_data nd = spec.node_data NewPlaceholderNode
        /\ (exists c, c ∈ containers /\ n ∈ spec.dependencies_of U c)
        /\ (forall c, c ∈ containers -> spec.orchestrated U c -> container_name c <> n)).
Proof.
  intros g. unfold g, Build. cbn [heap Nodes].
  destruct (build_nodes_spec U inspect containers) as [Hnodes Hall].
  destruct (build_edges_grown U containers (build_nodes U inspect containers))
    as [Hkept Hnew].
  set (h0 := build_nodes U inspect containers) in *.
  set (h := build_edges U containers h0) in *.
  split; [done|]. split; [|split].
  - intros c Hc Hm. destruct (Hall c Hc Hm) as [nd0 Hn0].
    destruct (Hkept _ _ Hn0) as (nd & Hn & Hdata). exists nd. split; [done|].
    destruct (Hnodes _ _ Hn0) as (_ & _ & c' & _ & _ & _ & Hof).
    apply (node_of_container_data U inspect c' _ _ Hdata) in Hof.
    by destruct Hof as (_ & _ & _ & ? & _).
  - intros n nd Hn Hreal. destruct (h0 !! n) as [nd0|] eqn:Hn0.
    + destruct (Hkept _ _ Hn0) as (nd' & Hn' & Hdata).
      assert (nd' = nd) as -> by congruence.
      destruct (Hnodes _ _ Hn0) as (_ & _ & c & Hc & Hname & Hm & Hof).
      exists c. split; [done|]. split; [done|]. split; [done|].
      by apply (node_of_container_data U inspect c _ _ Hdata).
    + destruct (Hnew _ _ Hn Hn0) as [Hdata _].
      unfold spec.node_data in Hdata. injection Hdata as _ _ _ Hph _ _ _.
      simpl in Hph. congruence.
  - intros n nd Hn Hph. destruct (h0 !! n) as [nd0|] eqn:Hn0.
    + destruct (Hkept _ _ Hn0) as (nd' & Hn' & Hdata).
      assert (nd' = nd) as -> by congruence.
      destruct (Hnodes _ _ Hn0) as (_ & _ & c & _ & _ & _ & Hof).
      apply (node_of_container_data U inspect c _ _ Hdata) in Hof.
      destruct Hof as (_ & _ & _ & ? & _). congruence.
    + destruct (Hnew _ _ Hn Hn0) as [Hdata Hdep].
      split; [done|]. split; [done|].
      intros c Hc Hm <-. destruct (Hall c Hc Hm) as [? ?]. congruence.
Qed.

(** X4. In the graph that [Build] makes the parent and the child lists
    mirror each other: [p] is among the parents of [n] exactly when [n] is
    among the children of [p], and both ends of every edge are nodes of
    the graph. *)
Theorem Build_edges_mirror_each_other (containers : list docker.Summary)
    (n p : string) :
  let g := Build U inspect containers in
  (p ∈ parents_of (heap g) n <-> n ∈ children_of (heap g) p)
  /\ (p ∈ parents_of (heap g) n -> n ∈ Nodes g /\ p ∈ Nodes g).
Proof.
  intros g. split.
  - unfold g, Build. cbn [heap]. apply build_edges_mirrored.
    intros m q. destruct (build_nodes_spec U inspect containers) as [Hnodes _].
    unfold parents_of, children_of.
    destruct (build_nodes U inspect containers !! m) as [nd|] eqn:Hm;
      destruct (build_nodes U inspect containers !! q) as [nd'|] eqn:Hq;
      try (destruct (Hnodes _ _ Hm) as (-> & _));
      try (destruct (Hnodes _ _ Hq) as (_ & -> & _)); by rewrite !elem_of_nil.
  - intros Hp.
    assert (n ∈ Nodes g) as Hn.
    { unfold g, Build in *. cbn [heap Nodes] in *. apply elem_of_dom.
      unfold parents_of in Hp.
      destruct (build_edges U containers (build_nodes U inspect containers) !! n);
        [done | by apply elem_of_nil in Hp]. }
    split; [done|]. by apply (Build_parents_closed U inspect containers n p).
Qed.

(** X5. When the containers given to [Build] have distinct names, the
    parents of the node of an orchestrated container are the names of its
    [depends_on] label, in the order of the label. *)
Theorem Build_parents_are_dependencies (containers : list docker.Summary)
    (c : docker.Summary) :
  NoDup (container_name <$> containers) ->
  c ∈ containers -> spec.orchestrated U c ->
  parents_of (heap (Build U inspect containers)) (container_name c)
  = spec.dependencies_of U c.
Proof.
  intros Hnd Hc Hm. unfold Build. cbn [heap].
  destruct (build_nodes_spec U inspect containers) as [Hnodes Hall].
  set (h0 := build_nodes U inspect containers) in *.
  apply list_elem_of_split in Hc as Hsplit. destruct Hsplit as (pre & post & Hsplit).
  rewrite Hsplit in Hnd. rewrite fmap_app, fmap_cons in Hnd.
  apply NoDup_app in Hnd as (_ & Hpre & Hpost).
  apply NoDup_cons in Hpost as [Hpost _].
  rewrite Hsplit at 1. rewrite build_edges_app, build_edges_cons.
  assert (is_Some (build_edges U pre h0 !! container_name c)) as [nd Hname].
  { apply build_edges_is_Some. by apply Hall. }
  rewrite Hname.
  rewrite build_edges_other_parents by done.
  rewrite build_edges_of_parents by (by rewrite Hname).
  rewrite decide_True by done.
  rewrite build_edges_other_parents.
  - assert (parents_of h0 (container_name c) = []) as ->; [|done].
    unfold parents_of. destruct (h0 !! container_name c) as [nd0|] eqn:Hn0; [|done].
    by destruct (Hnodes _ _ Hn0) as (-> & _).
  - intros Hin. apply (Hpre _ Hin). by left.
Qed.
End built_theorems.

(** X5 at the chain [a], [b], [c]: the parents of [c]. *)
Lemma Build_parents_are_dependencies_witness :
  graph.parents_of (graph.heap (examples.build examples.chain)) "c"%string
  = ["b"%string].
Proof.
  apply (Build_parents_are_dependencies examples.no_unicode (fun _ => None)
           examples.chain
           (examples.container "c" [(docker.LabelManaged, "true"%string);
                                    (docker.LabelDependsOn, "b"%string)])).
  - apply (bool_decide_unpack _). vm_compute. reflexivity.
  - right. right. by left.
  - vm_compute. reflexivity.
Defined.

(** ** The order that [TopologicalSort] returns *)

Lemma before_app_l l k p x : spec.before l p x -> spec.before (l ++ k) p x.
Proof.
  intros (i & j & Hi & Hj & Hlt). exists i, j.
  split; [by apply lookup_app_l_Some|]. split; [by apply lookup_app_l_Some | done].
Qed.

Lemma before_app_r l k p x : spec.before k p x -> spec.before (l ++ k) p x.
Proof.
  intros (i & j & Hi & Hj & Hlt). exists (length l + i)%nat, (length l + j)%nat.
  rewrite !lookup_app_r by lia. rewrite !Nat.add_comm with (n := length l).
  rewrite !Nat.add_sub. split; [done|]. split; [done | lia].
Qed.

Lemma before_app l k p x : p ∈ l -> x ∈ k -> spec.before (l ++ k) p x.
Proof.
  intros [i Hi]%list_elem_of_lookup [j Hj]%list_elem_of_lookup.
  exists i, (length l + j)%nat. split; [by apply lookup_app_l_Some|].
  split.
  - rewrite lookup_app_r by lia. by rewrite Nat.add_comm, Nat.add_sub.
  - apply lookup_lt_Some in Hi. lia.
Qed.

Section sorted_order.
Import graph.
Variable h : Heap.
Hypothesis Hacyclic : forall m, ~ tc (spec.parent_edge h) m m.

Lemma visit_sorted_refl starts fl sorted :
  spec.visit_sorted h starts fl sorted (fl, sorted).
Proof.
  split; [apply visit_frame_refl|]. split; [apply visit_closed_refl|].
  intros added Hadded. simpl in Hadded.
  assert (added = []) as ->.
  { apply (app_inv_head sorted). by rewrite app_nil_r. }
  by intros x p ?%elem_of_nil.
Qed.

Lemma visit_sorted_trans starts1 starts2 starts fl sorted fl1 sorted1 r :
  (forall s, s ∈ starts1 -> s ∈ starts) -> (forall s, s ∈ starts2 -> s ∈ starts) ->
  spec.visit_sorted h starts1 fl sorted (fl1, sorted1) ->
  spec.visit_sorted h starts2 fl1 sorted1 r ->
  spec.visit_sorted h starts fl sorted r.
Proof.
  destruct r as [fl2 sorted2].
  intros Hin1 Hin2 (Hframe1 & Hclosed1 & Hfirst1) (Hframe2 & Hclosed2 & Hfirst2).
  split; [by eapply visit_frame_trans|]. split.
  { destruct Hframe2 as [Hsub2 _].
    by apply (visit_closed_trans h starts1 starts2 starts fl fl1 fl2). }
  destruct Hframe1 as (Hsub1 & _ & added1 & -> & _ & Hin_added1).
  destruct Hframe2 as (Hsub2 & _ & added2 & -> & _ & Hin_added2).
  simpl in *. intros added Hadded. rewrite <- app_assoc in Hadded.
  apply app_inv_head in Hadded as <-.
  specialize (Hfirst1 added1 eq_refl). specialize (Hfirst2 added2 eq_refl).
  intros x p [Hx | Hx]%elem_of_app Hp Hfresh Hreal.
  - apply before_app_l. by apply Hfirst1.
  - destruct (decide (p ∈ visited fl1)) as [Hp1 | Hp1].
    + apply before_app; [|done]. apply Hin_added1. done.
    + apply before_app_r. by apply Hfirst2.
Qed.

Lemma visit_parents_sorted (rec : string -> Flags -> list string -> option (Flags * list string))
    (parents : list string) :
  (forall p fl sorted r, rec p fl sorted = Some r ->
     spec.visit_post h p fl sorted r /\ spec.visit_sorted h [p] fl sorted r) ->
  forall fl sorted r,
    visit_parents rec parents fl sorted = Some r ->
    spec.visit_sorted h parents fl sorted r.
Proof.
  intros Hrec. induction parents as [|p parents IH]; intros fl sorted r Hrun;
    simpl in Hrun.
  - injection Hrun as <-. apply visit_sorted_refl.
  - destruct (rec p fl sorted) as [[fl1 sorted1]|] eqn:Hp; [|done].
    apply Hrec in Hp as [_ Hsorted1]. apply IH in Hrun.
    apply (visit_sorted_trans [p] parents _ fl sorted fl1 sorted1); try done.
    + intros s ->%list_elem_of_singleton. by left.
    + intros s Hs. by right.
Qed.

(** In a graph without cycles, a [visit] that returns has appended the
    nodes it marked with every parent before its children. *)
Lemma visit_sorted_holds fuel : forall n fl sorted r,
  visit fuel h n fl sorted = Some r -> spec.visit_sorted h [n] fl sorted r.
Proof.
  induction fuel as [|fuel IH]; intros n fl sorted r Hrun.
  { done. }
  pose proof (visit_post_holds h _ _ _ _ _ Hrun) as [Hframe _].
  pose proof (visit_closed_holds h _ _ _ _ _ Hrun) as Hclosed.
  split; [done|]. split; [done|].
  simpl in Hrun. destruct (decide (n ∈ visited fl)) as [Hseen | Hfresh].
  { injection Hrun as <-. exact (proj2 (proj2 (visit_sorted_refl [n] fl sorted))). }
  destruct (visit_parents (visit fuel h) (parents_of h n) (set_visited n fl) sorted)
    as [[fl1 sorted1]|] eqn:Hloop; [|done].
  assert (forall p fl0 sorted0 r0, visit fuel h p fl0 sorted0 = Some r0 ->
            spec.visit_post h p fl0 sorted0 r0
            /\ spec.visit_sorted h [p] fl0 sorted0 r0) as Hrec.
  { intros p fl0 sorted0 r0 Hp. split; [by eapply visit_post_holds | by eapply IH]. }
  pose proof (visit_parents_sorted _ _ Hrec _ _ _ Hloop)
    as ((Hsub1 & _ & added1 & -> & _ & Hin1) & Hclosed1 & Hfirst1).
  apply (visit_parents_post h _ _
           (fun p fl0 sorted0 r0 Hp => proj1 (Hrec p fl0 sorted0 r0 Hp)))
    in Hloop as [_ Hall].
  simpl in Hsub1, Hin1, Hclosed1, Hall. specialize (Hfirst1 added1 eq_refl).
  assert (forall x p, x ∈ added1 -> spec.parent_edge h x p -> p ∉ visited fl ->
            is_placeholder h p = false -> spec.before added1 p x) as Hold.
  { intros x p Hx Hp Hpfresh Hreal. apply Hfirst1; try done.
    simpl. intros [->%elem_of_singleton | Hin]%elem_of_union; [|done].
    apply Hin1 in Hx as (Hx1 & Hx0 & _).
    destruct (Hclosed1 x Hx1 Hx0) as [(s & Hs & Hreach) _].
    apply (Hacyclic n). eapply tc_r; [|exact Hp].
    eapply tc_rtc_r; [apply tc_once; exact Hs | exact Hreach]. }
  destruct (is_placeholder h n) eqn:Hph; injection Hrun as <-; simpl;
    intros added Hadded.
  - apply app_inv_head in Hadded as <-. done.
  - rewrite <- app_assoc in Hadded. apply app_inv_head in Hadded as <-.
    intros x p [Hx | ->%list_elem_of_singleton]%elem_of_app Hp Hpfresh Hreal.
    + apply before_app_l. by apply Hold.
    + apply before_app; [|by left]. apply Hin1. split; [by apply Hall|].
      split; [|done]. simpl.
      intros [->%elem_of_singleton | Hin]%elem_of_union; [|done].
      apply (Hacyclic n). by apply tc_once.
Qed.

Lemma visit_all_sorted nodes : forall fl sorted r,
  visit_all h nodes fl sorted = Some r -> spec.visit_sorted h nodes fl sorted r.
Proof.
  induction nodes as [|n nodes IH]; intros fl sorted r Hrun; cbn [visit_all] in Hrun.
  - injection Hrun as <-. apply visit_sorted_refl.
  - destruct (bool_decide (n ∈ visited fl) || is_placeholder h n).
    + apply IH in Hrun.
      apply (visit_sorted_trans [] nodes _ fl sorted fl sorted); try done.
      * by intros s ?%elem_of_nil.
      * intros s Hs. by right.
      * apply visit_sorted_refl.
    + destruct (visit (depth_bound h) h n fl sorted) as [[fl1 sorted1]|] eqn:Hn; [|done].
      apply visit_sorted_holds in Hn. apply IH in Hrun.
      apply (visit_sorted_trans [n] nodes _ fl sorted fl1 sorted1); try done.
      * intros s ->%list_elem_of_singleton. by left.
      * intros s Hs. by right.
Qed.
End sorted_order.

Section sorted_whole.
Import graph.
Variable order : RangeOrder.
Hypothesis Horder : range_ok order.

Lemma parents_closed_reach g x y :
  spec.parents_closed g -> x ∈ Nodes g ->
  rtc (spec.parent_edge (heap g)) x y -> y ∈ Nodes g.
Proof.
  intros Hclosed Hx Hxy. induction Hxy as [|x y z Hstep _ IH]; [done|].
  apply IH. by eapply Hclosed.
Qed.

(** What [TopologicalSort] returns on a graph that holds the parents of
    its nodes and has no cycle along the parents. *)
Lemma TopologicalSort_spec g fl sorted fl' :
  (forall m, ~ tc (spec.parent_edge (heap g)) m m) ->
  spec.parents_closed g ->
  TopologicalSort order g fl = Some (Ok sorted, fl') ->
  NoDup (StartupOrder sorted)
  /\ (forall x, x ∈ StartupOrder sorted <->
        x ∈ Nodes g /\ is_placeholder (heap g) x = false)
  /\ (forall x p, x ∈ StartupOrder sorted -> spec.parent_edge (heap g) x p ->
        is_placeholder (heap g) p = false -> spec.before (StartupOrder sorted) p x)
  /\ ShutdownOrder sorted = rev (StartupOrder sorted).
Proof.
  intros Hacyclic Hclosed Hsort. unfold TopologicalSort in Hsort.
  destruct (Validate order g fl) as [[[e|[]] fl1]|]; try done.
  destruct (visit_all_post (heap g) (order RangeTopologicalSort (Nodes g))
              (reset_visited (Nodes g) fl1) [])
    as ([fl2 sortedNodes] & Hvisit & (Hsub & _ & added & Hsorted & Hnd & Hadded) & Hall).
  rewrite Hvisit in Hsort.
  destruct (visit_all_sorted (heap g) Hacyclic _ _ _ _ Hvisit)
    as (_ & Hreach & Hfirst).
  simpl in Hsorted, Hreach, Hall, Hsub, Hadded. subst sortedNodes.
  specialize (Hfirst added eq_refl).
  destruct (length added =? 0)%nat; [done|]. injection Hsort as <- <-.
  cbn [StartupOrder ShutdownOrder].
  assert (forall x, x ∈ added -> x ∈ Nodes g) as Hin.
  { intros x (Hx2 & Hx0 & _)%Hadded.
    destruct (Hreach x Hx2 Hx0) as [(s & Hs & Hsx) _].
    apply (parents_closed_reach g s); [done | | done].
    rewrite (Horder RangeTopologicalSort (Nodes g)) in Hs.
    by apply elem_of_elements in Hs. }
  split; [done|]. split; [|split].
  - intros x. split.
    + intros Hx. split; [by apply Hin|]. by apply Hadded in Hx as (_ & _ & ?).
    + intros [Hx Hreal]. apply Hadded. split; [|split; [|done]].
      * apply Hall; [|done]. rewrite (Horder RangeTopologicalSort (Nodes g)).
        by apply elem_of_elements.
      * simpl. set_solver.
  - intros x p Hx Hp Hreal. apply Hfirst; try done.
    pose proof (Hclosed x p (Hin x Hx) Hp). simpl. set_solver.
  - apply reverse_by_index_rev.
Qed.

(** X6. On a graph that holds the parents of its nodes (every graph that
    [Build] makes does), has no cycle and has a non-placeholder node,
    [TopologicalSort] returns an order, whatever the order of iteration
    and whatever flags earlier walks left: the startup order lists every
    non-placeholder node of the graph exactly once, and nothing else,
    with every non-placeholder parent of a node before the node; the
    shutdown order is the startup order reversed. *)
Theorem TopologicalSort_puts_parents_first (g : Graph) (fl : Flags) (n : string) :
  spec.cycle_free (heap g) -> spec.parents_closed g ->
  inStack fl ⊆ Nodes g ->
  n ∈ Nodes g -> is_placeholder (heap g) n = false ->
  exists sorted fl',
    TopologicalSort order g fl = Some (Ok sorted, fl')
    /\ NoDup (StartupOrder sorted)
    /\ (forall x, x ∈ StartupOrder sorted <->
          x ∈ Nodes g /\ is_placeholder (heap g) x = false)
    /\ (forall x p, x ∈ StartupOrder sorted -> spec.parent_edge (heap g) x p ->
          is_placeholder (heap g) p = false -> spec.before (StartupOrder sorted) p x)
    /\ ShutdownOrder sorted = rev (StartupOrder sorted).
Proof.
  intros [Hchildren Hparents] Hclosed Hstack Hn Hreal.
  destruct (TopologicalSort_acyclic order Horder g fl n Hchildren Hstack Hn Hreal)
    as (sorted & fl' & Hsort & _).
  exists sorted, fl'. split; [done|].
  by apply (TopologicalSort_spec g fl sorted fl').
Qed.
End sorted_whole.

(** X6 at the opted-out middle, walked as a whole with [app] first. *)
Lemma TopologicalSort_puts_parents_first_witness :
  exists sorted fl',
    graph.TopologicalSort (examples.prefer ["app"%string; "web"%string])
      (examples.build examples.opted_out_middle) graph.no_flags
    = Some (Ok sorted, fl')
    /\ spec.before (graph.StartupOrder sorted) "base"%string "web"%string.
Proof.
  assert (graph.range_ok (examples.prefer ["app"%string; "web"%string])) as Hok.
  { apply prefer_ok. apply (bool_decide_unpack _). vm_compute. reflexivity. }
  destruct (TopologicalSort_puts_parents_first
              (examples.prefer ["app"%string; "web"%string]) Hok
              (examples.build examples.opted_out_middle) graph.no_flags "app"%string)
    as (sorted & fl' & Hsort & _ & Hin & Hfirst & _).
  - apply (ranked_cycle_free
             (examples.rank_of [("base"%string, 0%nat); ("db"%string, 1%nat);
                                ("web"%string, 1%nat); ("app"%string, 2%nat)])).
    apply (bool_decide_unpack _). vm_compute. reflexivity.
  - apply Build_parents_closed.
  - done.
  - apply (bool_decide_unpack _). vm_compute. reflexivity.
  - vm_compute. reflexivity.
  - exists sorted, fl'. split; [exact Hsort|].
    apply Hfirst.
    + apply Hin. split; [apply (bool_decide_unpack _); vm_compute; reflexivity|].
      vm_compute. reflexivity.
    + unfold spec.parent_edge. vm_compute. by left.
    + vm_compute. reflexivity.
Defined.

(** ** Every container in one batch, as early as its parents allow *)

Section tight_depths.
Import graph.
Variable h : Heap.
Hypothesis Hacyclic : forall m, ~ tc (spec.parent_edge h) m m.

Lemma depths_tight_insert depths n d :
  spec.depths_tight h depths -> depths !! n = None ->
  (0 < d -> exists p, spec.parent_edge h n p /\ is_placeholder h p = false
                      /\ depths !! p = Some (d - 1)) ->
  spec.depths_tight h (<[n := d]> depths).
Proof.
  intros Htight Hfresh Hn m dm Hm Hpos.
  assert (forall p (dp : Z), depths !! p = Some dp -> <[n := d]> depths !! p = Some dp)
    as Hkeep.
  { intros p dp Hp. rewrite lookup_insert_ne; [done | congruence]. }
  destruct (decide (m = n)) as [-> | Hne].
  - rewrite lookup_insert_eq in Hm. injection Hm as <-.
    destruct (Hn Hpos) as (p & Hp & Hreal & Hdp). exists p. auto.
  - rewrite lookup_insert_ne in Hm by done.
    destruct (Htight m dm Hm Hpos) as (p & Hp & Hreal & Hdp). exists p. auto.
Qed.

Lemma depth_parents_tight (rec : string -> gmap string Z -> option (Z * gmap string Z))
    (parents : list string) :
  (forall p depths d depths', rec p depths = Some (d, depths') ->
     spec.depths_ok h depths ->
     spec.depths_frame h [p] depths depths' /\ depths' !! p = Some d) ->
  (forall p depths d depths', rec p depths = Some (d, depths') ->
     spec.depths_ok h depths -> spec.depths_tight h depths ->
     spec.depths_tight h depths') ->
  forall maxd depths maxd' depths',
    depth_parents rec h parents maxd depths = Some (maxd', depths') ->
    spec.depths_ok h depths -> spec.depths_tight h depths ->
    spec.depths_tight h depths'
    /\ (maxd' = maxd
        \/ exists p, p ∈ parents /\ is_placeholder h p = false
             /\ depths' !! p = Some maxd').
Proof.
  intros Hrec Htight. induction parents as [|p parents IH];
    intros maxd depths maxd' depths' Hrun Hok Ht; simpl in Hrun.
  - injection Hrun as <- <-. split; [done | by left].
  - destruct (is_placeholder h p) eqn:Hph.
    + destruct (IH _ _ _ _ Hrun Hok Ht) as [Ht' [-> | (q & Hq & Hreal & Hdq)]].
      * split; [done | by left].
      * split; [done|]. right. exists q. split; [by right | done].
    + destruct (rec p depths) as [[pd depths1]|] eqn:Hp; [|done].
      destruct (Hrec _ _ _ _ Hp Hok) as [(Hsub1 & Hok1 & _) Hpd].
      pose proof (Htight _ _ _ _ Hp Hok Ht) as Ht1.
      destruct (depth_parents_spec h rec parents Hrec _ _ _ _ Hrun Hok1)
        as ((Hsub2 & _) & _).
      destruct (IH _ _ _ _ Hrun Hok1 Ht1) as [Ht' [-> | (q & Hq & Hreal & Hdq)]].
      * split; [done|]. destruct (maxd <? pd) eqn:Hcmp; [|by left].
        right. exists p. split; [by left|]. split; [done|].
        by eapply lookup_weaken.
      * split; [done|]. right. exists q. split; [by right | done].
Qed.

Lemma calculateDepth_tight fuel : forall n depths d depths',
  calculateDepth fuel h n depths = Some (d, depths') ->
  spec.depths_ok h depths -> spec.depths_tight h depths ->
  spec.depths_tight h depths'.
Proof.
  induction fuel as [|fuel IH]; intros n depths d depths' Hrun Hok Ht; [done|].
  simpl in Hrun. destruct (depths !! n) as [dn|] eqn:Hn.
  { by injection Hrun as <- <-. }
  destruct (negb (HasParents h n)) eqn:Hhas.
  - injection Hrun as <- <-. apply depths_tight_insert; [done | done | lia].
  - destruct (depth_parents (calculateDepth fuel h) h (parents_of h n) (-1) depths)
      as [[maxd depths1]|] eqn:Hloop; [|done].
    injection Hrun as <- <-.
    destruct (depth_parents_spec h _ _ (calculateDepth_spec h Hacyclic fuel)
                _ _ _ _ Hloop Hok) as ((Hsub & Hok1 & Hnew) & Hle & Hall).
    destruct (depth_parents_tight _ _ (calculateDepth_spec h Hacyclic fuel) IH
                _ _ _ _ Hloop Hok Ht) as [Ht1 Hmax].
    assert (depths1 !! n = None) as Hfresh.
    { destruct (depths1 !! n) as [dn|] eqn:Hn1; [|done]. exfalso.
      destruct (Hnew n (mk_is_Some _ _ Hn1)) as [[? Hold] | (p & Hp & Hreach)];
        [congruence|].
      apply (Hacyclic n). eapply tc_rtc_r; [|exact Hreach]. by apply tc_once. }
    apply depths_tight_insert; [done | done |].
    intros Hpos. destruct Hmax as [-> | (p & Hp & Hreal & Hdp)]; [lia|].
    exists p. split; [done|]. split; [done|].
    by replace (maxd + 1 - 1) with maxd by lia.
Qed.

Lemma all_depths_tight nodes : forall maxd depths maxd' depths',
  all_depths h nodes maxd depths = Some (maxd', depths') ->
  spec.depths_ok h depths -> spec.depths_tight h depths ->
  spec.depths_tight h depths'
  /\ (maxd' = maxd \/ exists n, n ∈ nodes /\ depths' !! n = Some maxd').
Proof.
  induction nodes as [|n nodes IH]; intros maxd depths maxd' depths' Hrun Hok Ht;
    cbn [all_depths] in Hrun.
  - injection Hrun as <- <-. split; [done | by left].
  - destruct (calculateDepth (depth_bound h) h n depths) as [[d depths1]|] eqn:Hn;
      [|done].
    destruct (calculateDepth_spec h Hacyclic _ _ _ _ _ Hn Hok) as [(_ & Hok1 & _) Hd].
    pose proof (calculateDepth_tight _ _ _ _ _ Hn Hok Ht) as Ht1.
    destruct (all_depths_spec h Hacyclic _ _ _ _ _ Hrun Hok1) as (Hsub & _).
    destruct (IH _ _ _ _ Hrun Hok1 Ht1) as [Ht' [-> | (m & Hm & Hdm)]].
    + split; [done|]. destruct (maxd <? d) eqn:Hcmp; [|by left].
      right. exists n. split; [by left|]. by eapply lookup_weaken.
    + split; [done|]. right. exists m. split; [by right | done].
Qed.
End tight_depths.

Lemma concat_alter_snoc (batches : list (list string)) (i : nat) (x : string) :
  (i < length batches)%nat ->
  concat (alter (fun batch => batch ++ [x]) i batches) ≡ₚ concat batches ++ [x].
Proof.
  revert i. induction batches as [|b batches IH]; intros i Hi; simpl in Hi; [lia|].
  destruct i as [|i]; simpl.
  - rewrite <- !app_assoc. apply Permutation_app_head. apply Permutation_app_comm.
  - etrans; [apply Permutation_app_head, (IH i); lia|]. by rewrite app_assoc.
Qed.

Lemma concat_replicate_nil (n : nat) : concat (replicate n ([] : list string)) = [].
Proof. induction n as [|n IH]; [done | exact IH]. Qed.

(** The second loop of [GetStartupBatches] neither loses nor repeats a
    node, as long as every depth is an index of [batches]. *)
Lemma group_by_depth_perm (depths : gmap string Z) (maxDepth : Z) (nodes : list string) :
  (forall n, n ∈ nodes ->
     (Z.to_nat (default 0%Z (depths !! n)) < Z.to_nat (maxDepth + 1)%Z)%nat) ->
  length (graph.group_by_depth depths maxDepth nodes) = Z.to_nat (maxDepth + 1)
  /\ concat (graph.group_by_depth depths maxDepth nodes) ≡ₚ nodes.
Proof.
  unfold graph.group_by_depth. intros Hrange.
  assert (forall (batches : list (list string)),
    length batches = Z.to_nat (maxDepth + 1) ->
    let out := foldl (fun batches node =>
                 alter (fun batch => batch ++ [node])
                       (Z.to_nat (default 0 (depths !! node))) batches)
               batches nodes in
    length out = Z.to_nat (maxDepth + 1) /\ concat out ≡ₚ concat batches ++ nodes)
    as Hloop.
  { induction nodes as [|n nodes IH]; intros batches Hlen; simpl.
    - split; [done | by rewrite app_nil_r].
    - destruct (IH (fun m Hm => Hrange m (list_elem_of_further _ _ _ Hm))
                   (alter (fun batch => batch ++ [n])
                          (Z.to_nat (default 0 (depths !! n))) batches))
        as [Hlen' Hperm].
      { by rewrite length_alter. }
      split; [done|]. rewrite Hperm, concat_alter_snoc.
      + by rewrite <- app_assoc.
      + rewrite Hlen. apply Hrange. by left. }
  destruct (Hloop (replicate (Z.to_nat (maxDepth + 1)) [])) as [Hlen Hperm].
  { by rewrite length_replicate. }
  split; [done|]. by rewrite Hperm, concat_replicate_nil.
Qed.

Section batches_whole.
Import graph.
Variable order : RangeOrder.
Hypothesis Horder : range_ok order.

(** X7. On a graph that holds the parents of its nodes, has no cycle and
    has a non-placeholder node, [GetStartupBatches] puts every
    non-placeholder node of the graph into exactly one batch, once, and
    nothing else into any; no batch is empty; the first batch holds
    exactly the nodes all of whose parents are placeholders (or that have
    none); and every node of a later batch has a non-placeholder parent
    in the batch just before: every container starts as early as its
    dependencies allow. *)
Theorem GetStartupBatches_is_a_partition (g : Graph) (fl : Flags) (n : string) :
  spec.cycle_free (heap g) -> spec.parents_closed g ->
  inStack fl ⊆ Nodes g ->
  n ∈ Nodes g -> is_placeholder (heap g) n = false ->
  exists batches fl',
    GetStartupBatches order g fl = Some (Ok batches, fl')
    /\ NoDup (concat batches)
    /\ (forall x, x ∈ concat batches <->
          x ∈ Nodes g /\ is_placeholder (heap g) x = false)
    /\ (forall i batch, batches !! i = Some batch -> batch <> [])
    /\ (forall batch x, batches !! 0%nat = Some batch ->
          (x ∈ batch <->
           x ∈ Nodes g /\ is_placeholder (heap g) x = false
           /\ forall p, spec.parent_edge (heap g) x p ->
                is_placeholder (heap g) p = true))
    /\ (forall i batch x, batches !! S i = Some batch -> x ∈ batch ->
          exists p batch',
            spec.parent_edge (heap g) x p /\ is_placeholder (heap g) p = false
            /\ batches !! i = Some batch' /\ p ∈ batch').
Proof.
  intros Hfree Hclosed Hstack Hn Hreal.
  destruct (GetStartupBatches_acyclic order Horder g fl n Hfree Hstack Hn Hreal)
    as (batches & fl' & Hrun & _).
  exists batches, fl'. split; [done|].
  destruct Hfree as [_ Hacyclic].
  unfold GetStartupBatches in Hrun.
  destruct (TopologicalSort order g fl) as [[[e|sorted] fl2]|] eqn:Hsort; try done.
  destruct (all_depths (heap g) (StartupOrder sorted) 0 ∅)
    as [[maxDepth depths]|] eqn:Hdepths; [|done].
  injection Hrun as <- <-.
  destruct (TopologicalSort_spec order Horder g fl sorted fl2 Hacyclic Hclosed Hsort)
    as (Hnd & Hmem & _ & _).
  set (nodes := StartupOrder sorted) in *.
  assert (spec.depths_ok (heap g) ∅) as Hok0 by (by intros x d ?).
  assert (spec.depths_tight (heap g) ∅) as Ht0 by (by intros x d ?).
  destruct (all_depths_spec (heap g) Hacyclic _ _ _ _ _ Hdepths Hok0)
    as (_ & Hok & Hmax0 & Hall).
  destruct (all_depths_tight (heap g) Hacyclic _ _ _ _ _ Hdepths Hok0 Ht0)
    as [Htight Hmax].
  assert (forall x, x ∈ nodes ->
            exists d, depths !! x = Some d /\ 0 <= d <= maxDepth) as Hdepth.
  { intros x Hx. destruct (Hall x Hx) as (d & Hd & Hle). exists d.
    split; [done|]. destruct (Hok x d Hd) as [Hd0 _]. lia. }
  assert (forall x p, x ∈ nodes -> spec.parent_edge (heap g) x p ->
            is_placeholder (heap g) p = false -> p ∈ nodes) as Hparent.
  { intros x p Hx Hp Hpreal. apply Hmem. split; [|done].
    apply (Hclosed x p); [|done]. by apply Hmem in Hx as [? _]. }
  destruct (group_by_depth_perm depths maxDepth nodes) as [Hlen Hperm].
  { intros x Hx. destruct (Hdepth x Hx) as (d & -> & Hd). simpl. lia. }
  assert (forall i batch x, group_by_depth depths maxDepth nodes !! i = Some batch ->
            x ∈ batch <-> x ∈ nodes /\ exists d, depths !! x = Some d /\ Z.to_nat d = i)
    as Hbatch.
  { intros i batch x Hi. rewrite (group_by_depth_elem _ _ _ _ _ x Hi). split.
    - intros [Hx Hdx]. split; [done|]. destruct (Hdepth x Hx) as (d & Hd & _).
      exists d. split; [done|]. by rewrite Hd in Hdx.
    - intros [Hx (d & Hd & Hdx)]. split; [done|]. by rewrite Hd. }
  split; [by rewrite Hperm|]. split; [intros x; by rewrite Hperm|].
  split; [|split].
  - assert (forall k x d, x ∈ nodes -> depths !! x = Some d ->
              forall i, 0 <= i <= d -> Z.to_nat (d - i) = k ->
              exists y, y ∈ nodes /\ depths !! y = Some i) as Hdown.
    { induction k as [|k IH]; intros x d Hx Hd i Hi Hk.
      - exists x. split; [done|]. rewrite Hd. f_equal. lia.
      - destruct (Htight x d Hd) as (p & Hp & Hpreal & Hdp); [lia|].
        apply (IH p (d - 1)); [by eapply Hparent | done | lia | lia]. }
    assert (exists x, x ∈ nodes /\ depths !! x = Some maxDepth) as (top & Htop & Hdtop).
    { destruct Hmax as [-> | Hattained]; [|done].
      assert (n ∈ nodes) as Hnn by (by apply Hmem).
      destruct (Hdepth n Hnn) as (d & Hd & Hd0). exists n. split; [done|].
      rewrite Hd. f_equal. lia. }
    intros i batch Hi Hempty. subst batch.
    pose proof (lookup_lt_Some _ _ _ Hi) as Hlt. rewrite Hlen in Hlt.
    destruct (Hdown (Z.to_nat (maxDepth - Z.of_nat i)) top maxDepth Htop Hdtop
                (Z.of_nat i)) as (y & Hy & Hdy); [lia | done |].
    assert (y ∈ ([] : list string)) as Hin; [|by apply elem_of_nil in Hin].
    apply (Hbatch i [] y Hi). split; [done|]. exists (Z.of_nat i).
    split; [done | lia].
  - intros batch x H0. rewrite (Hbatch _ _ x H0). split.
    + intros [Hx (d & Hd & Hd0)]. apply Hmem in Hx as Hx'. destruct Hx' as [HxG Hxreal].
      split; [done|]. split; [done|]. intros p Hp.
      destruct (is_placeholder (heap g) p) eqn:Hph; [done|]. exfalso.
      destruct (Hok x d Hd) as [Hdpos Hlt].
      destruct (Hlt p Hp Hph) as (d' & Hd' & Hlt').
      destruct (Hok p d' Hd') as [Hd'pos _]. lia.
    + intros (HxG & Hxreal & Hnone).
      assert (x ∈ nodes) as Hx by (by apply Hmem).
      split; [done|]. destruct (Hdepth x Hx) as (d & Hd & Hd0).
      exists d. split; [done|].
      destruct (decide (0 < d)) as [Hpos | Hzero]; [|lia]. exfalso.
      destruct (Htight x d Hd Hpos) as (p & Hp & Hpreal & _).
      rewrite (Hnone p Hp) in Hpreal. done.
  - intros i batch x Hi [Hx (d & Hd & Hdi)]%(Hbatch _ _ x Hi).
    destruct (Htight x d Hd) as (p & Hp & Hpreal & Hdp); [lia|].
    assert (p ∈ nodes) as Hpn by (by eapply Hparent).
    destruct (lookup_lt_is_Some_2 (group_by_depth depths maxDepth nodes) i)
      as [batch' Hbatch'].
    { apply lookup_lt_Some in Hi. lia. }
    exists p, batch'. split; [done|]. split; [done|]. split; [done|].
    apply (Hbatch i batch' p Hbatch'). split; [done|]. exists (d - 1).
    split; [done | lia].
Qed.
End batches_whole.

(** X7 at the opted-out middle, walked as a whole with [app] first. *)
Lemma GetStartupBatches_is_a_partition_witness :
  exists batches fl',
    graph.GetStartupBatches (examples.prefer ["app"%string; "web"%string])
      (examples.build examples.opted_out_middle) graph.no_flags
    = Some (Ok batches, fl')
    /\ NoDup (concat batches)
    /\ (forall i batch, batches !! i = Some batch -> batch <> []).
Proof.
  assert (graph.range_ok (examples.prefer ["app"%string; "web"%string])) as Hok.
  { apply prefer_ok. apply (bool_decide_unpack _). vm_compute. reflexivity. }
  destruct (GetStartupBatches_is_a_partition
              (examples.prefer ["app"%string; "web"%string]) Hok
              (examples.build examples.opted_out_middle) graph.no_flags "app"%string)
    as (batches & fl' & Hrun & Hnd & _ & Hfull & _).
  - apply (ranked_cycle_free
             (examples.rank_of [("base"%string, 0%nat); ("db"%string, 1%nat);
                                ("web"%string, 1%nat); ("app"%string, 2%nat)])).
    apply (bool_decide_unpack _). vm_compute. reflexivity.
  - apply Build_parents_closed.
  - done.
  - apply (bool_decide_unpack _). vm_compute. reflexivity.
  - vm_compute. reflexivity.
  - exists batches, fl'. split; [exact Hrun|]. split; [exact Hnd | exact Hfull].
Defined.

(** ** What [findComponent] collects *)

Section component.
Import graph.
Variable h : Heap.

Lemma push_connected_elem fl nodes : forall stack x,
  x ∈ push_connected h fl nodes stack <->
  x ∈ stack \/ (x ∈ nodes /\ spec.fresh h fl x).
Proof.
  unfold push_connected.
  induction nodes as [|y nodes IH]; intros stack x; simpl.
  { split; [by left | intros [? | [?%elem_of_nil _]]; done]. }
  rewrite IH. unfold spec.fresh.
  destruct (bool_decide (y ∈ visited fl)) eqn:Hv; simpl.
  - apply bool_decide_eq_true in Hv. rewrite elem_of_cons. split.
    + intros [? | [? ?]]; [by left | right]. split; [by right | done].
    + intros [? | [[-> | ?] [? ?]]]; [by left | done | right]. done.
  - apply bool_decide_eq_false in Hv. destruct (is_placeholder h y) eqn:Hph; simpl.
    + rewrite elem_of_cons. split.
      * intros [? | [? ?]]; [by left | right]. split; [by right | done].
      * intros [? | [[-> | ?] [? ?]]]; [by left | congruence | right]. done.
    + rewrite !elem_of_cons. split.
      * intros [[-> | ?] | [? ?]]; [right | by left | right].
        -- split; [by left | done].
        -- split; [by right | done].
      * intros [? | [[-> | ?] [? ?]]]; [left; by right | left; by left | right]. done.
Qed.

Section from.
Variable n : string.
Variable fl : Flags.

Lemma findComponent_loop_inv fuel : forall stack flc component c' fl',
  findComponent_loop fuel h stack flc component = Some (c', fl') ->
  spec.component_inv h n fl stack flc component ->
  spec.component_inv h n fl [] fl' c'.
Proof.
  induction fuel as [|fuel IH]; intros stack flc component c' fl' Hrun Hinv; [done|].
  destruct stack as [|node stack]; cbn [findComponent_loop] in Hrun.
  { by injection Hrun as <- <-. }
  destruct Hinv as (Hnd & Hvis & Hst & Hcomp & Hstack & Hclosed & Hstart).
  destruct (bool_decide (node ∈ visited flc) || is_placeholder h node) eqn:Hskip.
  - apply (IH _ _ _ _ _ Hrun). split; [done|]. split; [done|]. split; [done|].
    split; [done|]. split; [|split].
    + intros x Hx. apply Hstack. by right.
    + intros x y Hx Hlink. destruct (Hclosed x y Hx Hlink) as [? | Hy]; [by left|].
      apply elem_of_cons in Hy as [-> | Hy]; [|by right]. left.
      destruct Hlink as (_ & Hreal & Hfresh).
      apply orb_true_iff in Hskip as [Hv%bool_decide_eq_true | Hph]; [|congruence].
      rewrite Hvis in Hv. set_solver.
    + destruct Hstart as [[-> [[= -> ->] | [[=] _]]] | Hn]; [|by right].
      left. split; [done|]. right. split; [done|]. intros [Hnreal Hnfresh].
      apply orb_true_iff in Hskip as [Hv%bool_decide_eq_true | Hph]; [|congruence].
      rewrite Hvis in Hv. set_solver.
  - apply orb_false_elim in Hskip as [Hv%bool_decide_eq_false Hreal].
    assert (node ∉ visited fl) as Hfresh by (rewrite Hvis in Hv; set_solver).
    assert (node ∉ component) as Hnew by (rewrite Hvis in Hv; set_solver).
    set (fl1 := set_visited node flc) in *.
    assert (forall y, spec.link h fl node y ->
              y ∈ component ++ [node] \/ spec.fresh h fl1 y) as Hnext.
    { intros y (_ & Hyreal & Hyfresh).
      destruct (decide (y ∈ visited fl1)) as [Hy1 | Hy1]; [left | by right].
      unfold fl1 in Hy1. simpl in Hy1. rewrite Hvis in Hy1. set_solver. }
    apply (IH _ _ _ _ _ Hrun). split; [|split; [|split; [|split; [|split; [|split]]]]].
    + apply NoDup_app. split; [done|]. split; [|apply NoDup_singleton].
      by intros x Hx ->%list_elem_of_singleton.
    + unfold fl1. simpl. rewrite Hvis, list_to_set_app_L. set_solver.
    + done.
    + intros x [Hx | ->%list_elem_of_singleton]%elem_of_app; [by apply Hcomp|].
      split; [done|]. apply Hstack. by left.
    + intros x Hx. apply push_connected_elem in Hx as [Hx | [Hx [Hxreal Hxfresh]]].
      * apply push_connected_elem in Hx as [Hx | [Hx [Hxreal Hxfresh]]].
        -- apply Hstack. by right.
        -- eapply rtc_r; [apply Hstack; by left|].
           split; [by left|]. split; [done|]. unfold fl1 in Hxfresh. simpl in Hxfresh.
           rewrite Hvis in Hxfresh. set_solver.
      * eapply rtc_r; [apply Hstack; by left|].
        split; [by right|]. split; [done|]. unfold fl1 in Hxfresh. simpl in Hxfresh.
        rewrite Hvis in Hxfresh. set_solver.
    + intros x y [Hx | ->%list_elem_of_singleton]%elem_of_app Hlink.
      * destruct (Hclosed x y Hx Hlink) as [Hy | Hy].
        -- left. apply elem_of_app. by left.
        -- apply elem_of_cons in Hy as [-> | Hy].
           ++ left. apply elem_of_app. right. by left.
           ++ right. apply push_connected_elem. left.
              apply push_connected_elem. by left.
      * destruct (Hnext y Hlink) as [Hy | Hy]; [by left|]. right.
        destruct Hlink as ([Hp | Hc] & _).
        -- apply push_connected_elem. left. apply push_connected_elem. by right.
        -- apply push_connected_elem. by right.
    + right. destruct Hstart as [[-> [[= -> ->] | [[=] _]]] | Hn]; [done|].
      destruct component as [|c0 component]; [done | exact Hn].
Qed.

(** X8. [findComponent] returns, whatever the heap, the start and the
    flags: it collects each node once, marks exactly what it collects,
    and what it collects is, when the start is neither a placeholder nor
    marked, the nodes that the start reaches by stepping to parents and
    children that are neither placeholders nor marked, the start first;
    otherwise it collects nothing. *)
Theorem findComponent_collects_the_linked_nodes :
  exists component fl',
    findComponent h n fl = Some (component, fl')
    /\ NoDup component
    /\ visited fl' = visited fl ∪ list_to_set component
    /\ inStack fl' = inStack fl
    /\ (forall x, x ∈ component <->
          spec.fresh h fl n /\ rtc (spec.link h fl) n x)
    /\ (spec.fresh h fl n -> head component = Some n).
Proof.
  destruct (findComponent_total h n fl) as (component & fl' & Hrun & _).
  exists component, fl'. split; [done|].
  unfold findComponent in Hrun.
  apply findComponent_loop_inv in Hrun
    as (Hnd & Hvis & Hst & Hcomp & _ & Hclosed & Hstart).
  2: { split; [constructor|]. split; [simpl; set_solver|]. split; [done|].
       split; [by intros x ?%elem_of_nil|]. split.
       - by intros x ->%list_elem_of_singleton.
       - split; [by intros x y ?%elem_of_nil|]. left. split; [done | by left]. }
  assert (spec.fresh h fl n -> head component = Some n) as Hhead.
  { intros Hfresh. by destruct Hstart as [[_ [[=] | [_ ?]]] | ?]. }
  split; [done|]. split; [done|]. split; [done|]. split; [|done].
  intros x. split.
  - intros Hx. destruct (Hcomp x Hx) as [_ Hreach]. split; [|done].
    destruct Hstart as [[-> _] | Hn]; [by apply elem_of_nil in Hx|].
    apply (Hcomp n). destruct component as [|c0 component]; [done|].
    injection Hn as ->. by left.
  - intros [Hfresh Hreach].
    assert (n ∈ component) as Hn.
    { specialize (Hhead Hfresh). destruct component as [|c0 component]; [done|].
      injection Hhead as ->. by left. }
    apply (rtc_ind_r (R := spec.link h fl) (fun z => z ∈ component) n);
      [done | | exact Hreach].
    intros y z _ Hlink Hy.
    destruct (Hclosed y z Hy Hlink) as [? | ?%elem_of_nil]; done.
Qed.
End from.
End component.

(** ** What the executor does to the containers *)

Section run.
Import graph orchestrator.
Variable act : string -> result error unit * list Action.
Variable ignore : list string.

(** The outcome of running nodes one after the other, from given
    buckets: every node lands in one bucket, the ignored ones in
    [skipped] without a call. *)
Lemma run_nodes_spec (nodes : list string) : forall acc : Buckets,
  let '(started0, skipped0, failed0, trace0) := acc in
  let '(started, skipped, failed, trace) := foldl (run_node act ignore) acc nodes in
  started = started0 ++ List.filter (fun x => negb (bool_decide (x ∈ ignore))
                                              && is_Ok (act x).1) nodes
  /\ skipped = skipped0 ++ List.filter (fun x => bool_decide (x ∈ ignore)) nodes
  /\ failed = failed0 ++ List.filter (fun x => negb (bool_decide (x ∈ ignore))
                                               && negb (is_Ok (act x).1)) nodes
  /\ trace = trace0 ++ concat ((fun x => (act x).2)
                                 <$> List.filter (fun x => negb (bool_decide (x ∈ ignore)))
                                       nodes).
Proof.
  induction nodes as [|n nodes IH]; intros [[[started0 skipped0] failed0] trace0].
  { simpl. by rewrite !app_nil_r. }
  cbn [foldl]. unfold run_node at 2.
  destruct (bool_decide (n ∈ ignore)) eqn:Hig.
  - specialize (IH (started0, skipped0 ++ [n], failed0, trace0)).
    destruct (foldl (run_node act ignore) (started0, skipped0 ++ [n], failed0, trace0) nodes)
      as [[[started skipped] failed] trace].
    destruct IH as (-> & -> & -> & ->). cbn [List.filter]. rewrite Hig. simpl.
    by rewrite <- app_assoc.
  - destruct (act n) as [[e|[]] calls] eqn:Hact.
    + specialize (IH (started0, skipped0, failed0 ++ [n], trace0 ++ calls)).
      destruct (foldl (run_node act ignore)
                  (started0, skipped0, failed0 ++ [n], trace0 ++ calls) nodes)
        as [[[started skipped] failed] trace].
      destruct IH as (-> & -> & -> & ->). cbn [List.filter]. rewrite Hig, Hact. simpl.
      rewrite Hact. simpl. by rewrite <- !app_assoc.
    + specialize (IH (started0 ++ [n], skipped0, failed0, trace0 ++ calls)).
      destruct (foldl (run_node act ignore)
                  (started0 ++ [n], skipped0, failed0, trace0 ++ calls) nodes)
        as [[[started skipped] failed] trace].
      destruct IH as (-> & -> & -> & ->). cbn [List.filter]. rewrite Hig, Hact. simpl.
      rewrite Hact. simpl. by rewrite <- !app_assoc.
Qed.

Lemma foldl_run_node_app (l k : list string) (acc : Buckets) :
  foldl (run_node act ignore) acc (l ++ k)
  = foldl (run_node act ignore) (foldl (run_node act ignore) acc l) k.
Proof. apply foldl_app. Qed.

(** Running the batches of the components is running their nodes. *)
Lemma run_components_nodes (components : list ComponentBatches) :
  run_components act ignore components
  = foldl (run_node act ignore) ([], [], [], []) (spec.nodes_of components).
Proof.
  unfold run_components, spec.nodes_of.
  generalize (([], [], [], []) : Buckets).
  induction components as [|comp components IH]; intros acc; simpl; [done|].
  rewrite concat_app, foldl_app, <- IH. f_equal.
  generalize acc. clear.
  induction (Batches comp) as [|batch batches IHb]; intros acc; simpl; [done|].
  by rewrite foldl_app, IHb.
Qed.
End run.

Lemma filter_three_ways {A} (skip ok : A -> bool) (l : list A) :
  List.filter (fun x => negb (skip x) && ok x) l
  ++ List.filter skip l
  ++ List.filter (fun x => negb (skip x) && negb (ok x)) l ≡ₚ l.
Proof.
  induction l as [|x l IH]; [done|]. cbn [List.filter].
  destruct (skip x), (ok x); simpl.
  - rewrite <- Permutation_middle. by constructor.
  - rewrite <- Permutation_middle. by constructor.
  - by constructor.
  - rewrite app_assoc, <- Permutation_middle, <- app_assoc. by constructor.
Qed.

Lemma elem_of_concat_fmap {A B} (f : A -> list B) (l : list A) (b : B) :
  b ∈ concat (f <$> l) <-> exists a, a ∈ l /\ b ∈ f a.
Proof.
  induction l as [|a l IH]; simpl.
  { split; [by intros ?%elem_of_nil | by intros (a & ?%elem_of_nil & _)]. }
  rewrite elem_of_app, IH. split.
  - intros [Hb | (a' & Ha' & Hb)]; [exists a; split; [by left | done]|].
    exists a'. split; [by right | done].
  - intros (a' & [-> | Ha']%elem_of_cons & Hb); [by left | right; eauto].
Qed.

Section executor_results.
Import graph orchestrator.
Variable U : string -> string.
Variable order : RangeOrder.
Variable d : Daemon.

Lemma startContainer_ok h x :
  is_Ok (startContainer d h x).1 = true <->
  IsContainerRunning d x = Ok true
  \/ (spec.start_call d h x /\ StartContainer d (node_ID h x) = Ok tt).
Proof.
  unfold startContainer, spec.start_call.
  destruct (IsContainerRunning d x) as [e|[]]; simpl.
  - split; [done | intros [[=] | [[[=] _] _]]].
  - split; [by left | done].
  - destruct ((0 <? node_StartupDelay h x) && ctxDoneDuringDelay d x); simpl.
    + split; [done | intros [[=] | [[_ [=]] _]]].
    + destruct (StartContainer d (node_ID h x)) as [e|[]]; simpl.
      * split; [done | intros [[=] | [_ [=]]]].
      * split; [by right | done].
Qed.

Lemma startContainer_calls h x a :
  a ∈ (startContainer d h x).2 <->
  spec.start_call d h x /\ a = ActStart (node_ID h x).
Proof.
  unfold startContainer, spec.start_call.
  destruct (IsContainerRunning d x) as [e|[]]; simpl.
  - split; [by intros ?%elem_of_nil | intros [[[=] _] _]].
  - split; [by intros ?%elem_of_nil | intros [[[=] _] _]].
  - destruct ((0 <? node_StartupDelay h x) && ctxDoneDuringDelay d x); simpl.
    + split; [by intros ?%elem_of_nil | intros [[_ [=]] _]].
    + destruct (StartContainer d (node_ID h x)) as [e|[]]; simpl;
        rewrite list_elem_of_singleton; naive_solver.
Qed.

Lemma stopContainer_ok h x :
  is_Ok (stopContainer d h x).1 = true <->
  IsContainerRunning d x = Ok false
  \/ (IsContainerRunning d x = Ok true
      /\ StopContainer d (node_ID h x) (spec.stop_timeout h x) = Ok tt).
Proof.
  unfold stopContainer, spec.stop_timeout.
  destruct (IsContainerRunning d x) as [e|[]]; simpl.
  - split; [done | intros [[=] | [[=] _]]].
  - destruct (StopContainer d (node_ID h x) (default 10 (node_StopTimeout h x)))
      as [e|[]]; simpl.
    + split; [done | intros [[=] | [_ [=]]]].
    + split; [by right | done].
  - split; [by left | done].
Qed.

Lemma stopContainer_calls h x a :
  a ∈ (stopContainer d h x).2 <->
  IsContainerRunning d x = Ok true
  /\ a = ActStop (node_ID h x) (spec.stop_timeout h x).
Proof.
  unfold stopContainer, spec.stop_timeout.
  destruct (IsContainerRunning d x) as [e|[]]; simpl.
  - split; [by intros ?%elem_of_nil | intros [[=] _]].
  - destruct (StopContainer d (node_ID h x) (default 10 (node_StopTimeout h x)))
      as [e|[]]; simpl; rewrite list_elem_of_singleton; naive_solver.
  - split; [by intros ?%elem_of_nil | intros [[=] _]].
Qed.

(** X9. When [StartContainers] returns a result, the containers of the
    components are shared out among its three lists: the ignored ones are
    the skipped ones and get no call; a container is reported started
    when it was running already, and then gets no call either, or when
    the daemon started it; and the daemon is asked to start exactly the
    containers that are not ignored, are not running and whose startup
    delay the deadline does not cut short, by their IDs. A failure of one
    container keeps no other from being tried. *)
Theorem StartContainers_shares_out_the_containers (opts : StartContainersOptions)
    (res : StartResult) (trace : list Action) :
  StartContainers U order d opts = Some (Ok res, trace) ->
  exists containers components fl',
    ListManagedContainers d = Ok containers
    /\ GetConnectedComponents order (Build U (InspectStopTimeout d) containers) no_flags
       = Some (Ok components, fl')
    /\ let h := heap (Build U (InspectStopTimeout d) containers) in
       let nodes := spec.nodes_of components in
       Started res ++ StartSkipped res ++ StartFailed res ≡ₚ nodes
       /\ (forall x, x ∈ StartSkipped res <-> x ∈ nodes /\ x ∈ StartIgnore opts)
       /\ (forall x, x ∈ Started res <->
             x ∈ nodes /\ (x ∉ StartIgnore opts)
             /\ (IsContainerRunning d x = Ok true
                 \/ (spec.start_call d h x /\ StartContainer d (node_ID h x) = Ok tt)))
       /\ (forall a, a ∈ trace <->
             exists x, x ∈ nodes /\ (x ∉ StartIgnore opts)
               /\ spec.start_call d h x /\ a = ActStart (node_ID h x)).
Proof.
  unfold StartContainers. intros Hrun.
  destruct (ListManagedContainers d) as [e|containers]; [done|].
  set (g := Build U (InspectStopTimeout d) containers) in *.
  destruct (GetConnectedComponents order g no_flags)
    as [[[e|components] fl']|] eqn:Hcomp; try done.
  exists containers, components, fl'. split; [done|]. split; [exact Hcomp|].
  fold g.
  rewrite run_components_nodes in Hrun.
  pose proof (run_nodes_spec (startContainer d (heap g)) (StartIgnore opts)
                (spec.nodes_of components) ([], [], [], [])) as Hspec.
  cbv zeta in Hspec.
  destruct (foldl _ _ _) as [[[started skipped] failed] calls].
  destruct Hspec as (-> & -> & -> & ->). injection Hrun as <- <-.
  cbn [Started StartSkipped StartFailed app].
  split; [|split; [|split]].
  - apply (filter_three_ways (fun x => bool_decide (x ∈ StartIgnore opts))
             (fun x => is_Ok (startContainer d (heap g) x).1)).
  - intros x. rewrite elem_of_filter, bool_decide_eq_true. done.
  - intros x. rewrite elem_of_filter, andb_true_iff, negb_true_iff,
      bool_decide_eq_false, startContainer_ok. tauto.
  - intros a. rewrite elem_of_concat_fmap. split.
    + intros (x & Hx & Ha). apply elem_of_filter in Hx as [Hx Hig].
      apply negb_true_iff, bool_decide_eq_false in Hig.
      apply startContainer_calls in Ha as [Hcall ->]. exists x. auto.
    + intros (x & Hx & Hig & Hcall & ->). exists x. split.
      * apply elem_of_filter. split; [done|].
        by apply negb_true_iff, bool_decide_eq_false.
      * by apply startContainer_calls.
Qed.

(** X10. When [StopContainers] returns a result, the containers of the
    shutdown components are shared out among its three lists: the ignored
    ones are the skipped ones and get no call; a container is reported
    stopped when it was not running, and then gets no call either, or
    when the daemon stopped it; and the daemon is asked to stop exactly
    the containers that are not ignored and are running, each with its
    own configured stop timeout, 10 seconds when it has none: the timeout
    of the request is never passed on. *)
Theorem StopContainers_shares_out_the_containers (opts : StopContainersOptions)
    (res : StopResult) (trace : list Action) :
  StopContainers U order d opts = Some (Ok res, trace) ->
  exists containers components fl',
    ListManagedContainers d = Ok containers
    /\ GetConnectedComponentsForShutdown order
         (Build U (InspectStopTimeout d) containers) no_flags
       = Some (Ok components, fl')
    /\ let h := heap (Build U (InspectStopTimeout d) containers) in
       let nodes := spec.nodes_of components in
       Stopped res ++ StopSkipped res ++ StopFailed res ≡ₚ nodes
       /\ (forall x, x ∈ StopSkipped res <-> x ∈ nodes /\ x ∈ StopIgnore opts)
       /\ (forall x, x ∈ Stopped res <->
             x ∈ nodes /\ (x ∉ StopIgnore opts)
             /\ (IsContainerRunning d x = Ok false
                 \/ (IsContainerRunning d x = Ok true
                     /\ StopContainer d (node_ID h x) (spec.stop_timeout h x) = Ok tt)))
       /\ (forall a, a ∈ trace <->
             exists x, x ∈ nodes /\ (x ∉ StopIgnore opts)
               /\ IsContainerRunning d x = Ok true
               /\ a = ActStop (node_ID h x) (spec.stop_timeout h x)).
Proof.
  unfold StopContainers. intros Hrun.
  destruct (ListManagedContainers d) as [e|containers]; [done|].
  set (g := Build U (InspectStopTimeout d) containers) in *.
  destruct (GetConnectedComponentsForShutdown order g no_flags)
    as [[[e|components] fl']|] eqn:Hcomp; try done.
  exists containers, components, fl'. split; [done|]. split; [exact Hcomp|].
  fold g.
  rewrite run_components_nodes in Hrun.
  pose proof (run_nodes_spec (stopContainer d (heap g)) (StopIgnore opts)
                (spec.nodes_of components) ([], [], [], [])) as Hspec.
  cbv zeta in Hspec.
  destruct (foldl _ _ _) as [[[stopped skipped] failed] calls].
  destruct Hspec as (-> & -> & -> & ->). injection Hrun as <- <-.
  cbn [Stopped StopSkipped StopFailed app].
  split; [|split; [|split]].
  - apply (filter_three_ways (fun x => bool_decide (x ∈ StopIgnore opts))
             (fun x => is_Ok (stopContainer d (heap g) x).1)).
  - intros x. rewrite elem_of_filter, bool_decide_eq_true. done.
  - intros x. rewrite elem_of_filter, andb_true_iff, negb_true_iff,
      bool_decide_eq_false, stopContainer_ok. tauto.
  - intros a. rewrite elem_of_concat_fmap. split.
    + intros (x & Hx & Ha). apply elem_of_filter in Hx as [Hx Hig].
      apply negb_true_iff, bool_decide_eq_false in Hig.
      apply stopContainer_calls in Ha as [Hcall ->]. exists x. auto.
    + intros (x & Hx & Hig & Hcall & ->). exists x. split.
      * apply elem_of_filter. split; [done|].
        by apply negb_true_iff, bool_decide_eq_false.
      * by apply stopContainer_calls.
Qed.
End executor_results.

(** X9 at the chain [a], [b], [c] with [c] ignored and [b] failing to
    start. *)
Lemma StartContainers_shares_out_the_containers_witness :
  exists containers components fl',
    orchestrator.ListManagedContainers (examples.daemon examples.chain ["id-b"%string])
    = Ok containers
    /\ graph.GetConnectedComponents examples.in_key_order
         (graph.Build examples.no_unicode (fun _ => None) containers) graph.no_flags
       = Some (Ok components, fl')
    /\ ["a"%string] ++ ["c"%string] ++ ["b"%string] ≡ₚ spec.nodes_of components.
Proof.
  destruct (StartContainers_shares_out_the_containers examples.no_unicode
              examples.in_key_order (examples.daemon examples.chain ["id-b"%string])
              {| orchestrator.StartTimeout := 600;
                 orchestrator.StartIgnore := ["c"%string] |}
              {| orchestrator.Started := ["a"%string];
                 orchestrator.StartSkipped := ["c"%string];
                 orchestrator.StartFailed := ["b"%string] |}
              [orchestrator.ActStart "id-a"; orchestrator.ActStart "id-b"])
    as (containers & components & fl' & Hlist & Hcomp & Hperm & _).
  - vm_compute. reflexivity.
  - exists containers, components, fl'. split; [exact Hlist|].
    split; [exact Hcomp | exact Hperm].
Defined.

(** X10 at the running chain [a], [b], [c] with [c] ignored. *)
Lemma StopContainers_shares_out_the_containers_witness :
  exists containers components fl',
    orchestrator.ListManagedContainers (examples.daemon_running examples.chain)
    = Ok containers
    /\ graph.GetConnectedComponentsForShutdown examples.in_key_order
         (graph.Build examples.no_unicode (fun _ => None) containers) graph.no_flags
       = Some (Ok components, fl')
    /\ ["b"%string; "a"%string] ++ ["c"%string] ++ [] ≡ₚ spec.nodes_of components.
Proof.
  destruct (StopContainers_shares_out_the_containers examples.no_unicode
              examples.in_key_order (examples.daemon_running examples.chain)
              {| orchestrator.StopTimeoutOpt := 300;
                 orchestrator.StopIgnore := ["c"%string] |}
              {| orchestrator.Stopped := ["b"%string; "a"%string];
                 orchestrator.StopSkipped := ["c"%string];
                 orchestrator.StopFailed := [] |}
              [orchestrator.ActStop "id-b" 10; orchestrator.ActStop "id-a" 10])
    as (containers & components & fl' & Hlist & Hcomp & Hperm & _).
  - vm_compute. reflexivity.
  - exists containers, components, fl'. split; [exact Hlist|].
    split; [exact Hcomp | exact Hperm].
Defined.

(** ** The life of a job *)

Section job_calls.
Import jobs.

Lemma call_keeps_identity (j : Job) (c : JobCall) :
  JobID (call j c) = JobID j /\ Type_ (call j c) = Type_ j
  /\ CreatedAt (call j c) = CreatedAt j /\ Timeout (call j c) = Timeout j
  /\ Ignore (call j c) = Ignore j.
Proof. by destruct c. Qed.

Lemma call_StartedAt (j : Job) (c : JobCall) :
  StartedAt (call j c)
  = match c with
    | CallSetStatus now JobStatusRunning =>
        if IsZero (StartedAt j) then now else StartedAt j
    | _ => StartedAt j
    end.
Proof. destruct c as [now []| |]; done. Qed.

Lemma call_EndedAt (j : Job) (c : JobCall) :
  EndedAt (call j c)
  = match c with
    | CallSetStatus now JobStatusCompleted | CallSetStatus now JobStatusFailed
    | CallSetError now _ =>
        if IsZero (EndedAt j) then now else EndedAt j
    | _ => EndedAt j
    end.
Proof. destruct c as [now []| |]; done. Qed.

Lemma calls_keep_identity (j : Job) (calls : list JobCall) :
  JobID (foldl call j calls) = JobID j /\ Type_ (foldl call j calls) = Type_ j
  /\ CreatedAt (foldl call j calls) = CreatedAt j
  /\ Timeout (foldl call j calls) = Timeout j
  /\ Ignore (foldl call j calls) = Ignore j.
Proof.
  revert j. induction calls as [|c calls IH]; intros j; simpl; [done|].
  destruct (IH (call j c)) as (-> & -> & -> & -> & ->). apply call_keeps_identity.
Qed.

(** X12. Whatever calls of [SetStatus], [SetError] and [SetResults] a
    job receives, its ID, type, creation time, timeout and ignore list
    never change, and its two time stamps are written once: a start time
    that is set stays, and one that changes was the zero time and becomes
    the clock reading of a [SetStatus(running)]; an end time that is set
    stays, and one that changes was the zero time and becomes the clock
    reading of a [SetStatus(completed)], a [SetStatus(failed)] or a
    [SetError]. The status itself is not guarded: any call sets it. *)
Theorem job_time_stamps_are_written_once (j : Job) (calls : list JobCall) :
  let j' := foldl call j calls in
  (JobID j' = JobID j /\ Type_ j' = Type_ j /\ CreatedAt j' = CreatedAt j
   /\ Timeout j' = Timeout j /\ Ignore j' = Ignore j)
  /\ (StartedAt j' = StartedAt j
      \/ (IsZero (StartedAt j) = true
          /\ CallSetStatus (StartedAt j') JobStatusRunning ∈ calls))
  /\ (EndedAt j' = EndedAt j
      \/ (IsZero (EndedAt j) = true
          /\ (CallSetStatus (EndedAt j') JobStatusCompleted ∈ calls
              \/ CallSetStatus (EndedAt j') JobStatusFailed ∈ calls
              \/ exists err, CallSetError (EndedAt j') err ∈ calls)))
  /\ (forall now status, Status (foldl call j (calls ++ [CallSetStatus now status]))
                         = status).
Proof.
  cbv zeta. split; [|split; [|split]].
  - apply calls_keep_identity.
  - revert j. induction calls as [|c calls IH]; intros j; simpl; [by left|].
    destruct (IH (call j c)) as [Hsame | [Hzero Hin]].
    + rewrite Hsame, call_StartedAt.
      destruct c as [now []| |]; try (by left).
      destruct (IsZero (StartedAt j)) eqn:Hz; [|by left].
      right. split; [done|]. by left.
    + rewrite call_StartedAt in Hzero.
      destruct c as [now []| |]; try (right; split; [done | by right]).
      destruct (IsZero (StartedAt j)) eqn:Hz; [|congruence].
      right. split; [done | by right].
  - revert j. induction calls as [|c calls IH]; intros j; simpl; [by left|].
    destruct (IH (call j c)) as [Hsame | [Hzero Hin]].
    + rewrite Hsame, call_EndedAt.
      destruct c as [now []|now err|]; try (by left);
        (destruct (IsZero (EndedAt j)) eqn:Hz; [|by left]);
        right; (split; [done|]).
      * left. by left.
      * right. left. by left.
      * right. right. exists err. by left.
    + assert (IsZero (EndedAt j) = true) as Hz.
      { rewrite call_EndedAt in Hzero.
        destruct c as [now []|now err|]; try done;
          (destruct (IsZero (EndedAt j)) eqn:Hz'; [done | congruence]). }
      right. split; [done|].
      destruct Hin as [Hin | [Hin | (err & Hin)]].
      * left. by right.
      * right. left. by right.
      * right. right. exists err. by right.
  - intros now status. by rewrite foldl_snoc.
Qed.
End job_calls.

Section processed.
Import jobs.
Variable U : string -> string.
Variable order : graph.RangeOrder.
Variable d : orchestrator.Daemon.

Lemma processStartJob_calls now job job' :
  processStartJob U order d now job = Some job' ->
  exists calls last,
    job' = foldl call job (calls ++ [last])
    /\ (forall c, c ∈ calls -> exists a b c' d', c = CallSetResults a b c' d')
    /\ (last = CallSetStatus now JobStatusCompleted \/ exists err, last = CallSetError now err).
Proof.
  unfold processStartJob.
  destruct (orchestrator.StartContainers U order d _) as [[[err|res] trace]|]; [| |done];
    intros [= <-].
  - exists [], (CallSetError now err). split; [done|].
    split; [by intros c ?%elem_of_nil | right; by exists err].
  - eexists [CallSetResults _ _ _ _], (CallSetStatus now JobStatusCompleted).
    split; [done|]. split; [|by left].
    intros c ->%list_elem_of_singleton. by eexists _, _, _, _.
Qed.

Lemma processStopJob_calls now job job' :
  processStopJob U order d now job = Some job' ->
  exists calls last,
    job' = foldl call job (calls ++ [last])
    /\ (forall c, c ∈ calls -> exists a b c' d', c = CallSetResults a b c' d')
    /\ (last = CallSetStatus now JobStatusCompleted \/ exists err, last = CallSetError now err).
Proof.
  unfold processStopJob.
  destruct (orchestrator.StopContainers U order d _) as [[[err|res] trace]|]; [| |done];
    intros [= <-].
  - exists [], (CallSetError now err). split; [done|].
    split; [by intros c ?%elem_of_nil | right; by exists err].
  - eexists [CallSetResults _ _ _ _], (CallSetStatus now JobStatusCompleted).
    split; [done|]. split; [|by left].
    intros c ->%list_elem_of_singleton. by eexists _, _, _, _.
Qed.

(** X11. A job made by [NewJob] that a worker picks up at the clock
    reading [picked] and whose processing returns at [now], neither of
    them the zero time, ends Completed or Failed, never Pending or
    Running, with the ID, type, creation time, timeout and ignore list it
    was made with, [picked] as its start and [now] as its end: its
    [Duration] is [now - picked] whenever it is asked, and its [Age] is
    counted from its creation. A job of a type other than start and stop
    ends Failed with the error [unknown job type: <type>] and empty
    result lists. *)
Theorem processJob_records_the_run (uuid : string) (created picked now : Time)
    (jobType : string) (timeout : Z) (ignore : list string) (job' : Job) :
  picked <> 0 -> now <> 0 ->
  processJob U order d picked now (NewJob uuid created jobType timeout ignore)
  = Some job' ->
  (JobID job' = uuid /\ Type_ job' = jobType /\ CreatedAt job' = created
   /\ Timeout job' = timeout /\ Ignore job' = ignore)
  /\ (Status job' = JobStatusCompleted \/ Status job' = JobStatusFailed)
  /\ StartedAt job' = picked /\ EndedAt job' = now
  /\ (forall asked, Duration asked job' = Sub now picked
                    /\ Age asked job' = Sub asked created)
  /\ (jobType <> JobTypeStart -> jobType <> JobTypeStop ->
      Status job' = JobStatusFailed
      /\ Error job' = ("unknown job type: " ++ jobType)%string
      /\ JobStarted job' = [] /\ JobStopped job' = []
      /\ JobSkipped job' = [] /\ JobFailed job' = []).
Proof.
  intros Hpicked Hnow Hrun.
  set (job := NewJob uuid created jobType timeout ignore) in *.
  set (running := SetStatus picked JobStatusRunning job).
  assert (IsZero picked = false) as Hzp by (by apply Z.eqb_neq).
  assert (IsZero now = false) as Hzn by (by apply Z.eqb_neq).
  assert (exists calls last,
            job' = foldl call running (calls ++ [last])
            /\ (forall c, c ∈ calls -> exists a b c' d', c = CallSetResults a b c' d')
            /\ (last = CallSetStatus now JobStatusCompleted
                \/ exists err, last = CallSetError now err))
    as (calls & last & Hjob' & Hcalls & Hlast).
  { unfold processJob in Hrun. fold running in Hrun.
    destruct (String.eqb (Type_ running) JobTypeStart);
      [by apply processStartJob_calls in Hrun|].
    destruct (String.eqb (Type_ running) JobTypeStop);
      [by apply processStopJob_calls in Hrun|].
    injection Hrun as <-. exists [], (CallSetError now (ErrUnknownJobType (Type_ running))).
    split; [done|]. split; [by intros c ?%elem_of_nil | right; by eexists]. }
  assert (forall j, StartedAt (foldl call j calls) = StartedAt j
                    /\ EndedAt (foldl call j calls) = EndedAt j) as Hkeep.
  { clear Hjob'. induction calls as [|c calls IH]; intros j; [done|]. simpl.
    destruct (Hcalls c) as (a & b & c' & d' & ->); [by left|].
    destruct (IH (fun c0 Hc0 => Hcalls c0 (list_elem_of_further _ _ _ Hc0))
                 (call j (CallSetResults a b c' d'))) as [-> ->]. done. }
  destruct (calls_keep_identity running (calls ++ [last]))
    as (Hid1 & Hid2 & Hid3 & Hid4 & Hid5).
  assert (StartedAt job' = picked /\ EndedAt job' = now
          /\ (Status job' = JobStatusCompleted \/ Status job' = JobStatusFailed))
    as (Hstart & Hend & Hstatus).
  { rewrite Hjob', foldl_snoc.
    destruct (Hkeep running) as [Hs He].
    destruct Hlast as [-> | [err ->]]; simpl; rewrite Hs, He; simpl; auto. }
  split; [|split; [done|]; split; [done|]; split; [done|]; split].
  - rewrite Hjob'. by rewrite Hid1, Hid2, Hid3, Hid4, Hid5.
  - intros asked. unfold Duration, Age. rewrite Hstart, Hend, Hzp, Hzn.
    split; [done|]. f_equal. rewrite Hjob'. by rewrite Hid3.
  - intros Hne1 Hne2. unfold processJob in Hrun. fold running in Hrun.
    assert (String.eqb (Type_ running) JobTypeStart = false) as E1
      by (by apply String.eqb_neq).
    assert (String.eqb (Type_ running) JobTypeStop = false) as E2
      by (by apply String.eqb_neq).
    rewrite E1, E2 in Hrun. by injection Hrun as <-.
Qed.
End processed.

(** X11 at a start job picked up one second after its creation and done
    one second later. *)
Lemma processJob_records_the_run_witness :
  exists job',
    jobs.processJob examples.no_unicode (examples.prefer [])
      (examples.daemon examples.one_container [])
      (1001 * jobs.Second) (1002 * jobs.Second)
      (jobs.NewJob "job-1" (1000 * jobs.Second) jobs.JobTypeStart 600 [])
    = Some job'
    /\ jobs.Duration (5000 * jobs.Second) job' = 1 * jobs.Second.
Proof.
  destruct (jobs.processJob examples.no_unicode (examples.prefer [])
              (examples.daemon examples.one_container [])
              (1001 * jobs.Second) (1002 * jobs.Second)
              (jobs.NewJob "job-1" (1000 * jobs.Second) jobs.JobTypeStart 600 []))
    as [job'|] eqn:Hrun; [|vm_compute in Hrun; discriminate].
  exists job'. split; [reflexivity|].
  assert (1001 * jobs.Second <> 0) as Hpicked by (vm_compute; discriminate).
  assert (1002 * jobs.Second <> 0) as Hnow by (vm_compute; discriminate).
  destruct (processJob_records_the_run examples.no_unicode (examples.prefer [])
              (examples.daemon examples.one_container [])
              "job-1" (1000 * jobs.Second) (1001 * jobs.Second) (1002 * jobs.Second)
              jobs.JobTypeStart 600 [] job' Hpicked Hnow Hrun)
    as (_ & _ & _ & _ & Hduration & _).
  destruct (Hduration (5000 * jobs.Second)) as [-> _]. vm_compute. reflexivity.
Defined.

(** ** The registry of jobs *)

Section registry.
Import jobs.

Lemma List_clones (entries : list (string * Job)) (acc : list Job) :
  foldl (fun result entry => result ++ [Clone entry.2]) acc entries
  = acc ++ (snd <$> entries).
Proof.
  revert acc. induction entries as [|[i j] entries IH]; intros acc; simpl.
  { by rewrite app_nil_r. }
  rewrite IH, <- app_assoc. simpl. by destruct j.
Qed.

(** X13. The registry of the manager: a [Submit] to a manager that is
    shutting down changes nothing; any other [Submit] registers the job
    under its ID, whatever it returns, leaves the other jobs alone, and
    queues the job exactly when it returns no error, so that a job whose
    [Submit] gave up on a full queue stays registered though nothing
    will run it; [Get] of a registered ID returns the job and [Get] of
    any other ID the error [job not found: <id>]; [Delete] of a
    registered ID removes that job only and leaves the queue alone, and
    [Delete] of any other ID changes nothing and returns the same error;
    [List] returns every registered job once. *)
Theorem registry_keeps_what_it_is_given (jorder : JobOrder) (m : Manager)
    (waitCancelled : bool) (job : Job) (id : string) :
  job_order_ok jorder ->
  let submitted := Submit waitCancelled job m in
  let deleted := Delete id m in
  (shuttingDown m = true -> submitted = (Err ErrShuttingDown, m))
  /\ (shuttingDown m = false ->
      GetJob (JobID job) submitted.2 = Ok job
      /\ (forall other, other <> JobID job ->
            GetJob other submitted.2 = GetJob other m)
      /\ jobQueue submitted.2
         = (if is_Ok submitted.1 then jobQueue m ++ [JobID job] else jobQueue m)
      /\ (is_Ok submitted.1 = false <->
          (QueueCapacity <= length (jobQueue m))%nat /\ waitCancelled = true))
  /\ (jobs m !! id = None ->
      GetJob id m = Err (ErrJobNotFound id)
      /\ deleted = (Err (ErrJobNotFound id), m)
      /\ registry_error_string (ErrJobNotFound id) = ("job not found: " ++ id)%string)
  /\ (forall j, jobs m !! id = Some j ->
      GetJob id m = Ok j
      /\ deleted.1 = Ok tt
      /\ GetJob id deleted.2 = Err (ErrJobNotFound id)
      /\ (forall other, other <> id -> GetJob other deleted.2 = GetJob other m)
      /\ jobQueue deleted.2 = jobQueue m)
  /\ List jorder m ≡ₚ snd <$> map_to_list (jobs m).
Proof.
  intros Horder submitted deleted.
  assert (forall j : Job, Clone j = j) as Hclone by (by intros []).
  split; [|split; [|split; [|split]]].
  - intros Hdown. unfold submitted, Submit. by rewrite Hdown.
  - intros Hrun. unfold submitted, Submit. rewrite Hrun.
    destruct (length (jobQueue m) <? QueueCapacity)%nat eqn:Hroom; simpl.
    + apply Nat.ltb_lt in Hroom. unfold GetJob. simpl.
      rewrite lookup_insert_eq, Hclone. split; [done|]. split.
      * intros other Hne. by rewrite lookup_insert_ne by done.
      * split; [done|]. split; [done | intros [? _]; lia].
    + apply Nat.ltb_ge in Hroom. destruct waitCancelled; simpl; unfold GetJob; simpl;
        rewrite lookup_insert_eq, Hclone; (split; [done|]); split.
      * intros other Hne. by rewrite lookup_insert_ne by done.
      * split; [done|]. split; [done | done].
      * intros other Hne. by rewrite lookup_insert_ne by done.
      * split; [done|]. split; [done | intros [_ ?]; done].
  - intros Hnone. unfold deleted, GetJob, Delete. by rewrite Hnone.
  - intros j Hj. unfold deleted, GetJob, Delete. rewrite Hj, Hclone. simpl.
    split; [done|]. split; [done|]. rewrite lookup_delete_eq. split; [done|].
    split; [|done]. intros other Hne. by rewrite lookup_delete_ne by done.
  - unfold List. rewrite List_clones. simpl. by rewrite (Horder (jobs m)).
Qed.
End registry.

(** X13 at the registry of three jobs. *)
Lemma registry_keeps_what_it_is_given_witness :
  jobs.List examples.in_map_order examples.small_manager
  ≡ₚ snd <$> map_to_list (jobs.jobs examples.small_manager).
Proof.
  exact (proj2 (proj2 (proj2 (proj2
    (registry_keeps_what_it_is_given examples.in_map_order examples.small_manager
       false (examples.job0 jobs.JobTypeStart) "busy"%string in_map_order_ok))))).
Defined.

(** ** The routes of the server *)

Section routes.
Import jobs api.

(** The six routes of [Router], and what any other request gets. *)
Lemma Router_cases env r s :
  (method r = "POST"%string /\ path r = ["start"%string]
     /\ Router env r s = HandleStartContainers env r s)
  \/ (method r = "POST"%string /\ path r = ["stop"%string]
     /\ Router env r s = HandleStopContainers env r s)
  \/ (method r = "GET"%string /\ path r = ["ping"%string]
     /\ Router env r s = HandleHealth s)
  \/ (method r = "POST"%string /\ (exists duration, path r = ["block"%string; duration]
     /\ Router env r s = HandleBlock duration s))
  \/ (method r = "POST"%string /\ path r = ["unblock"%string]
     /\ Router env r s = HandleUnblock s)
  \/ (method r = "GET"%string /\ (exists job_id, path r = ["job_status"%string; job_id]
     /\ Router env r s = HandleGetJobStatus job_id s))
  \/ ((Router env r s).2 = s
      /\ (status (Router env r s).1 = StatusNotFound
          \/ status (Router env r s).1 = StatusMethodNotAllowed)).
Proof.
  unfold Router.
  destruct (path r) as [|seg1 rest].
  { do 6 right. split; [done | by left]. }
  destruct (decide (seg1 = "start"%string)) as [-> | H1].
  { destruct rest as [|]; [|do 6 right; split; [done | by left]].
    destruct (String.eqb (method r) "POST") eqn:Hm.
    - apply String.eqb_eq in Hm. left. done.
    - do 6 right. split; [done | by right]. }
  destruct (decide (seg1 = "stop"%string)) as [-> | H2].
  { destruct rest as [|]; [|do 6 right; split; [done | by left]].
    destruct (String.eqb (method r) "POST") eqn:Hm.
    - apply String.eqb_eq in Hm. right. left. done.
    - do 6 right. split; [done | by right]. }
  destruct (decide (seg1 = "ping"%string)) as [-> | H3].
  { destruct rest as [|]; [|do 6 right; split; [done | by left]].
    destruct (String.eqb (method r) "GET") eqn:Hm.
    - apply String.eqb_eq in Hm. do 2 right. left. done.
    - do 6 right. split; [done | by right]. }
  destruct (decide (seg1 = "block"%string)) as [-> | H4].
  { destruct rest as [|duration [|]]; [do 6 right; split; [done | by left] | |
      do 6 right; split; [done | by left]].
    destruct (String.eqb (method r) "POST") eqn:Hm.
    - apply String.eqb_eq in Hm. do 3 right. left. split; [done|]. by exists duration.
    - do 6 right. split; [done | by right]. }
  destruct (decide (seg1 = "unblock"%string)) as [-> | H5].
  { destruct rest as [|]; [|do 6 right; split; [done | by left]].
    destruct (String.eqb (method r) "POST") eqn:Hm.
    - apply String.eqb_eq in Hm. do 4 right. left. done.
    - do 6 right. split; [done | by right]. }
  destruct (decide (seg1 = "job_status"%string)) as [-> | H6].
  { destruct rest as [|job_id [|]]; [do 6 right; split; [done | by left] | |
      do 6 right; split; [done | by left]].
    destruct (String.eqb (method r) "GET") eqn:Hm.
    - apply String.eqb_eq in Hm. do 5 right. left. split; [done|]. by exists job_id.
    - do 6 right. split; [done | by right]. }
  do 6 right.
  repeat case_match; subst; try done; simpl; auto.
Qed.

Lemma submit_job_frame env job s :
  isBlocked (submit_job env job s).2 = isBlocked s
  /\ (status (submit_job env job s).1 = StatusOK
      \/ status (submit_job env job s).1 = StatusInternalServerError).
Proof.
  unfold submit_job.
  destruct (Submit (cancelledWhileWaiting env) job (jobManager s)) as [[e|[]] m];
    simpl; auto.
Qed.

(** X15. What a request can do to the server: only a POST to /start or
    /stop of a server that is not blocked can change the job manager;
    only a POST to /block/<duration> or /unblock can change the block
    flag; a GET changes nothing; and the answer 503 is given only by a
    blocked server, to a POST to /start or /stop, and changes nothing. *)
Theorem requests_change_only_what_they_are_for (env : Env) (r : Request) (s : Server) :
  let resp := (Router env r s).1 in
  let s' := (Router env r s).2 in
  (jobManager s' <> jobManager s ->
     method r = "POST"%string
     /\ (path r = ["start"%string] \/ path r = ["stop"%string])
     /\ isBlocked s = false)
  /\ (isBlocked s' <> isBlocked s ->
        method r = "POST"%string
        /\ (path r = ["unblock"%string]
            \/ exists duration, path r = ["block"%string; duration]))
  /\ (method r = "GET"%string -> s' = s)
  /\ (status resp = StatusServiceUnavailable ->
        isBlocked s = true /\ s' = s /\ method r = "POST"%string
        /\ (path r = ["start"%string] \/ path r = ["stop"%string])).
Proof.
  cbv zeta.
  destruct (Router_cases env r s)
    as [(Hm & Hp & ->) | [(Hm & Hp & ->) | [(Hm & Hp & ->) |
       [(Hm & d & Hp & ->) | [(Hm & Hp & ->) | [(Hm & id & Hp & ->) | [-> Hst]]]]]]].
  - unfold HandleStartContainers. destruct (isBlocked s) eqn:Hb; simpl.
    + split; [done|]. split; [done|]. split; [by rewrite Hm | auto].
    + destruct (submit_job_frame env
                  (NewJob (uuid env) (now env) JobTypeStart (parse_timeout (query r) 600) [])
                  s) as [Hflag Hstatus].
      split; [auto|]. split; [by rewrite Hflag, Hb|]. split; [by rewrite Hm|].
      intros H503. destruct Hstatus as [H | H]; rewrite H in H503; done.
  - unfold HandleStopContainers. destruct (isBlocked s) eqn:Hb; simpl.
    + split; [done|]. split; [done|]. split; [by rewrite Hm | auto].
    + destruct (submit_job_frame env
                  (NewJob (uuid env) (now env) JobTypeStop (parse_timeout (query r) 300)
                     (parse_ignore (query r))) s) as [Hflag Hstatus].
      split; [auto|]. split; [by rewrite Hflag, Hb|]. split; [by rewrite Hm|].
      intros H503. destruct Hstatus as [H | H]; rewrite H in H503; done.
  - simpl. done.
  - simpl. split; [done|]. split; [eauto|]. split; [by rewrite Hm | done].
  - simpl. split; [done|]. split; [auto|]. split; [by rewrite Hm | done].
  - unfold HandleGetJobStatus. destruct (Get id (jobManager s)); simpl; done.
  - split; [done|]. split; [done|]. split; [done|].
    intros H503. destruct Hst as [H | H]; rewrite H in H503; done.
Qed.
End routes.

Section service.
Import jobs api.



(** X16. A job can be asked for as soon as its request is answered: when
    the server is not blocked and the manager is running, POST /start
    and POST /stop answer either 200 with the ID of the new job or 500
    with [Failed to submit job], and in both cases GET /job_status/<id>
    then answers 200 with the status [pending]; asked for an ID that
    is not registered, it answers 404 with the status [not_found]. *)
Theorem submitted_job_can_be_asked_for (env env' : Env) (s : Server)
    (q : gmap string (list string)) (route : string) :
  isBlocked s = false -> shuttingDown (jobManager s) = false ->
  route = "start"%string \/ route = "stop"%string ->
  let answer := Router env (mkRequest "POST" [route] q) s in
  let ask id := Router env' (mkRequest "GET" ["job_status"%string; id] q) answer.2 in
  (answer.1 = writeJSON StatusOK [("job_id"%string, uuid env)]
   \/ answer.1 = writeError StatusInternalServerError "Failed to submit job")
  /\ (answer.1 = writeError StatusInternalServerError "Failed to submit job" <->
      (QueueCapacity <= length (jobQueue (jobManager s)))%nat
      /\ cancelledWhileWaiting env = true)
  /\ ask (uuid env)
     = (writeJSON StatusOK [("status"%string, "pending"%string)], answer.2)
  /\ (forall id, id <> uuid env -> jobs (jobManager s) !! id = None ->
        ask id = (writeJSON StatusNotFound [("status"%string, "not_found"%string)],
                  answer.2)).
Proof.
  intros Hb Hrun Hroute answer ask.
  assert (exists job, JobID job = uuid env /\ Status job = JobStatusPending
                      /\ answer = submit_job env job s) as (job & Hid & Hstatus & Hanswer).
  { destruct Hroute as [-> | ->]; unfold answer, Router; simpl.
    - unfold HandleStartContainers. rewrite Hb.
      eexists. split; [|split; [|reflexivity]]; done.
    - unfold HandleStopContainers. rewrite Hb.
      eexists. split; [|split; [|reflexivity]]; done. }
  unfold ask, Router. simpl. rewrite Hanswer.
  unfold HandleGetJobStatus, Get, submit_job, Submit. rewrite Hrun, Hid.
  destruct (length (jobQueue (jobManager s)) <? QueueCapacity)%nat eqn:Hroom; simpl.
  - apply Nat.ltb_lt in Hroom. split; [by left|]. split; [split; [done | lia]|].
    rewrite lookup_insert_eq, Hstatus. split; [done|].
    intros id Hne Hnone. by rewrite lookup_insert_ne, Hnone by done.
  - apply Nat.ltb_ge in Hroom. destruct (cancelledWhileWaiting env); simpl.
    + split; [by right|]. split; [done|].
      rewrite lookup_insert_eq, Hstatus. split; [done|].
      intros id Hne Hnone. by rewrite lookup_insert_ne, Hnone by done.
    + split; [by left|]. split; [split; [done | by intros [_ ?]]|].
      rewrite lookup_insert_eq, Hstatus. split; [done|].
      intros id Hne Hnone. by rewrite lookup_insert_ne, Hnone by done.
Qed.
End service.


(** X16 at the request [POST /start] to the server that has never been
    blocked. *)
Lemma submitted_job_can_be_asked_for_witness :
  api.Router examples.env0
    (api.mkRequest "GET" ["job_status"%string; api.uuid examples.env0] ∅)
    (api.Router examples.env0 (api.mkRequest "POST" ["start"%string] ∅)
       examples.server0).2
  = (api.writeJSON api.StatusOK [("status"%string, "pending"%string)],
     (api.Router examples.env0 (api.mkRequest "POST" ["start"%string] ∅)
        examples.server0).2).
Proof.
  apply (submitted_job_can_be_asked_for examples.env0 examples.env0 examples.server0
           ∅ "start").
  - reflexivity.
  - reflexivity.
  - by left.
Defined.
